(** * mwc-loader: the filesystem operations of [main.py]

    A shallow embedding of the file operations of the My Winter Car fixer
    ([src/main.py]): installation detection and the selection of the
    game folder, backup, the two coupled renames of the fix and revert
    actions, and the overlay copy.

    The filesystem is one shared store, a finite map from absolute paths
    to entries; every operation of the program reads and writes that one
    store, so overlapping locations (a game folder inside the backup
    folder, a working directory inside the game folder) are part of the
    model.

    What the model takes from the platform: the program is a Windows
    program (drive letters, [win32com]), so [Path.rename] refuses an
    existing target; names are compared as they are spelled; there are
    no symbolic links; the log file, the configuration file and the
    message boxes do not fail.  Input and output errors that the store
    does not explain (a locked file, a full disk, a directory that may
    not be listed) are faults the world marks on single calls. *)

From stdpp Require Import base option list strings pretty gmap fin_maps sorting.

Local Open Scope string_scope.
Local Open Scope list_scope.

(** ** Paths and the store *)

(** A [pathlib.Path] is its list of components, the drive first:
    [Path("C:/Games/MWC")] is [["C:"; "Games"; "MWC"]]. *)
Abbreviation path := (list string).

(** [p / name] of pathlib. *)
Definition child (p : path) (name : string) : path := p ++ [name].
Infix "//" := child (at level 40, left associativity).

(** An entry is a regular file with its content or a directory.  The
    children of a directory are the entries one component below it. *)
Inductive node :=
  | File (data : string)
  | Dir.

Global Instance node_eq_dec : EqDecision node.
Proof. solve_decision. Defined.

Abbreviation filesystem := (gmap path node).

Definition is_dir (o : option node) : bool :=
  match o with Some Dir => true | _ => false end.

Definition is_file (o : option node) : bool :=
  match o with Some (File _) => true | _ => false end.

(** [Path.exists()]: the probe answers [False] for a missing path and,
    like [os.path.exists], for one whose [stat] fails. *)
Definition path_exists (m : filesystem) (p : path) : bool :=
  match m !! p with Some _ => true | None => false end.

Definition parent (p : path) : path := removelast p.

(** The store is a forest: every entry below a drive root sits in a
    directory. *)
Definition wf_fs (m : filesystem) : Prop :=
  map_Forall (λ p _, parent p = [] ∨ m !! parent p = Some Dir) m.

Global Instance wf_fs_dec m : Decision (wf_fs m).
Proof. unfold wf_fs. apply _. Defined.

(** [under src p] is the rest of [p] below [src], when [p] is [src] or
    lies inside it. *)
Fixpoint under (src p : path) : option path :=
  match src, p with
  | [], _ => Some p
  | _ :: _, [] => None
  | x :: src', y :: p' => if decide (x = y) then under src' p' else None
  end.

(** The tree found at [src], keyed by the paths relative to [src]; the
    key [[]] is the entry [src] itself. *)
Definition subtree (m : filesystem) (src : path) : gmap path node :=
  map_fold (λ p n acc, match under src p with
                       | Some rel => <[rel := n]> acc
                       | None => acc
                       end) ∅ m.

(** Write the tree [t] at [dst]; entries already there are replaced. *)
Definition graft (dst : path) (t : gmap path node) (m : filesystem) : filesystem :=
  kmap (app dst) t ∪ m.

(** Remove [src] and everything inside it. *)
Definition prune (src : path) (m : filesystem) : filesystem :=
  filter (λ kv, under src kv.1 = None) m.

(** The entries a rename moves: [src] with all it holds goes to [dst]. *)
Definition moved (src dst : path) (m : filesystem) : filesystem :=
  graft dst (subtree m src) (prune src m).

(** The non-empty prefixes of a path, shortest first: the directories
    [os.makedirs] walks through, the path itself last. *)
Definition prefixes (p : path) : list path :=
  (λ n, take (S n) p) <$> seq 0 (length p).

(** The names directly inside [p], with their entries. *)
Definition children (m : filesystem) (p : path) : list (string * node) :=
  omap (λ kv, match under p kv.1 with
              | Some [name] => Some (name, kv.2)
              | _ => None
              end) (map_to_list m).

(** ** The operating system and the window *)

(** The library calls that touch the store.  [Scandir] only reads. *)
Inductive oscall :=
  | Makedirs (p : path)
  | CopyTree (src dst : path)
  | CopyFile (src dst : path)
  | Rename (src dst : path)
  | Scandir (p : path).

Global Instance oscall_eq_dec : EqDecision oscall.
Proof. solve_decision. Defined.

Inductive errno :=
  | ENOENT | EEXIST | ENOTDIR | EISDIR | EINVAL | ENAMETOOLONG | EACCES.

(** The exceptions the program can meet: an [OSError] of one call, or
    the [shutil.Error] of [copytree] with the calls that failed. *)
Inductive exn :=
  | OSError (e : errno) (c : oscall)
  | ShutilError (errors : list oscall).

Inductive dialog :=
  | Warning (title text : string)
  | Critical (title text : string)
  | Information (title text : string)
  | Question (title text : string).

Inductive button := Yes | No.

Global Instance button_eq_dec : EqDecision button.
Proof. solve_decision. Defined.

(** Everything an action of the window can read or change.

    - [fs], [cwd], [clock]: the store, the working directory that
      relative paths ([Backups], [fmf]) are resolved against, and
      [datetime.now()] already formatted as [%Y-%m-%d_%H-%M-%S];
    - [io_fail]: the environment's faults; an elementary call it marks
      fails with a permission error (a locked file, a full disk), on top
      of the failures the store itself causes;
    - [shortcut_error]: the exception text of [create_shortcut], if the
      shell refuses the shortcut (the desktop is outside the store);
    - [calls]: the mutating library calls issued so far, oldest first;
    - [logfile], [ui_log], [dialogs]: the lines handed to
      [write_log_line], the lines appended to the log widget with their
      error flag, and the message boxes shown, oldest first (the log sink
      and the message boxes are collaborators that do not fail);
    - [game_path], [last_action]: [self.game_path] and
      [self.cfg["last_action"]]. *)
Record world := World {
  fs : gmap path node;
  cwd : path;
  clock : string;
  io_fail : oscall → bool;
  shortcut_error : option string;
  calls : list oscall;
  logfile : list string;
  ui_log : list (string * bool);
  dialogs : list dialog;
  game_path : option path;
  last_action : string }.

Definition set_fs (m : gmap path node) (w : world) : world :=
  World m (cwd w) (clock w) (io_fail w) (shortcut_error w) (calls w)
        (logfile w) (ui_log w) (dialogs w) (game_path w) (last_action w).

Definition add_call (c : oscall) (w : world) : world :=
  World (fs w) (cwd w) (clock w) (io_fail w) (shortcut_error w) (calls w ++ [c])
        (logfile w) (ui_log w) (dialogs w) (game_path w) (last_action w).

Definition add_logfile (line : string) (w : world) : world :=
  World (fs w) (cwd w) (clock w) (io_fail w) (shortcut_error w) (calls w)
        (logfile w ++ [line]) (ui_log w) (dialogs w) (game_path w) (last_action w).

Definition add_ui_log (line : string) (error : bool) (w : world) : world :=
  World (fs w) (cwd w) (clock w) (io_fail w) (shortcut_error w) (calls w)
        (logfile w) (ui_log w ++ [(line, error)]) (dialogs w) (game_path w)
        (last_action w).

Definition add_dialog (d : dialog) (w : world) : world :=
  World (fs w) (cwd w) (clock w) (io_fail w) (shortcut_error w) (calls w)
        (logfile w) (ui_log w) (dialogs w ++ [d]) (game_path w) (last_action w).

Definition set_last_action (a : string) (w : world) : world :=
  World (fs w) (cwd w) (clock w) (io_fail w) (shortcut_error w) (calls w)
        (logfile w) (ui_log w) (dialogs w) (game_path w) a.

(** The working directory exists and the store is a forest. *)
Definition wf_world (w : world) : Prop :=
  wf_fs (fs w) ∧ fs w !! cwd w = Some Dir.

Global Instance wf_world_dec w : Decision (wf_world w).
Proof. unfold wf_world. apply _. Defined.

(** *** Computations: state that survives an exception *)

Inductive res (A : Type) :=
  | Ok (a : A)
  | Raise (e : exn).
Arguments Ok {A} a.
Arguments Raise {A} e.

Definition M (A : Type) : Type := world → res A * world.

Global Instance M_ret : MRet M := λ A a w, (Ok a, w).

Global Instance M_bind : MBind M := λ A B k c w,
  match c w with
  | (Ok a, w') => k a w'
  | (Raise e, w') => (Raise e, w')
  end.

Definition raise {A} (e : exn) : M A := λ w, (Raise e, w).

(** [try: c  except Exception as e: h e] *)
Definition try_except {A} (c : M A) (h : exn → M A) : M A := λ w,
  match c w with
  | (Ok a, w') => (Ok a, w')
  | (Raise e, w') => h e w'
  end.

Definition gets {A} (f : world → A) : M A := λ w, (Ok (f w), w).
Definition modify (f : world → world) : M unit := λ w, (Ok tt, f w).

(** [for x in l: s = body s x] *)
Fixpoint for_each {A S} (l : list A) (body : S → A → M S) (s : S) : M S :=
  match l with
  | [] => mret s
  | x :: l' => s' ← body s x; for_each l' body s'
  end.

(** *** Texts *)

Definition NL : string := String (Ascii.ascii_of_nat 10) "".

Definition show_path (p : path) : string := String.concat "\" p.

Definition show_errno (e : errno) : string :=
  match e with
  | ENOENT => "[WinError 3] The system cannot find the path specified"
  | EEXIST => "[WinError 183] Cannot create a file when that file already exists"
  | ENOTDIR => "[WinError 267] The directory name is invalid"
  | EISDIR => "[Errno 13] Permission denied"
  | EINVAL => "[WinError 87] The parameter is incorrect"
  | ENAMETOOLONG => "[WinError 206] The filename or extension is too long"
  | EACCES => "[WinError 5] Access is denied"
  end.

Definition show_call (c : oscall) : string :=
  match c with
  | Makedirs p | Scandir p => "'" +:+ show_path p +:+ "'"
  | CopyTree src dst | CopyFile src dst | Rename src dst =>
      "'" +:+ show_path src +:+ "' -> '" +:+ show_path dst +:+ "'"
  end.

(** [str(e)] *)
Definition show_exn (e : exn) : string :=
  match e with
  | OSError k c => show_errno k +:+ ": " +:+ show_call c
  | ShutilError errors => "[" +:+ String.concat ", " (show_call <$> errors) +:+ "]"
  end.

(** *** CONFIG + LOGGING, message boxes *)

Definition write_log_line (text : string) : M unit := modify (add_logfile text).

Definition log_msg (text : string) (error : bool) : M unit :=
  modify (add_ui_log text error);;
  write_log_line text.

Definition message_box (d : dialog) : M unit := modify (add_dialog d).

Definition question (title text : string) (answer : button) : M button :=
  modify (add_dialog (Question title text));;
  mret answer.

(** *** The library calls *)

Definition parent_ok (m : gmap path node) (p : path) : bool :=
  bool_decide (parent p = []) || is_dir (m !! parent p).

(** Create every missing directory of [l]. *)
Definition mkdir_all (l : list path) (m : gmap path node) : gmap path node :=
  foldr (λ q acc, match acc !! q with
                  | None => <[q := Dir]> acc
                  | Some _ => acc
                  end) m l.

(** [os.makedirs(p, exist_ok=...)], also [Path.mkdir(parents=True,
    exist_ok=...)]: a file on the way is an error, and so is [p] itself
    unless it is a directory and [exist_ok] is set. *)
Definition os_makedirs (p : path) (exist_ok : bool) : M unit := λ w0,
  let c := Makedirs p in
  let w := add_call c w0 in
  match fs w !! p with
  | Some Dir => if exist_ok then (Ok tt, w) else (Raise (OSError EEXIST c), w)
  | Some (File _) => (Raise (OSError EEXIST c), w)
  | None =>
      if existsb (λ q, is_file (fs w !! q)) (prefixes p)
      then (Raise (OSError ENOTDIR c), w)
      else if io_fail w c then (Raise (OSError EACCES c), w)
      else (Ok tt, set_fs (mkdir_all (prefixes p) (fs w)) w)
  end.

(** [Path.rename(dst)] on Windows: an existing target is an error. *)
Definition os_rename (src dst : path) : M unit := λ w0,
  let c := Rename src dst in
  let w := add_call c w0 in
  if negb (path_exists (fs w) src) then (Raise (OSError ENOENT c), w)
  else if path_exists (fs w) dst then (Raise (OSError EEXIST c), w)
  else if bool_decide (is_Some (under src dst)) then (Raise (OSError EINVAL c), w)
  else if negb (parent_ok (fs w) dst) then (Raise (OSError ENOENT c), w)
  else if io_fail w c then (Raise (OSError EACCES c), w)
  else (Ok tt, set_fs (moved src dst (fs w)) w).

(** [shutil.copy2(src, dst)]: a directory at [dst] receives the file
    under its own name; an existing file is replaced. *)
Definition shutil_copy2 (src dst : path) : M unit := λ w0,
  let c := CopyFile src dst in
  let w := add_call c w0 in
  match fs w !! src with
  | None => (Raise (OSError ENOENT c), w)
  | Some Dir => (Raise (OSError EISDIR c), w)
  | Some (File data) =>
      let target := if is_dir (fs w !! dst) then dst // List.last src "" else dst in
      if is_dir (fs w !! target) then (Raise (OSError EISDIR c), w)
      else if negb (parent_ok (fs w) target) then (Raise (OSError ENOENT c), w)
      else if io_fail w c then (Raise (OSError EACCES c), w)
      else (Ok tt, set_fs (<[target := File data]> (fs w)) w)
  end.

(** [os.scandir(p)] *)
Definition os_scandir (p : path) : M (list (string * node)) := λ w,
  let c := Scandir p in
  match fs w !! p with
  | None => (Raise (OSError ENOENT c), w)
  | Some (File _) => (Raise (OSError ENOTDIR c), w)
  | Some Dir =>
      if io_fail w c then (Raise (OSError EACCES c), w)
      else (Ok (children (fs w) p), w)
  end.

(** The proper prefixes of a relative path, the empty one first. *)
Definition above (rel : path) : list path :=
  (λ n, take n rel) <$> seq 0 (length rel).

(** The elementary calls [copytree] makes for the entry [rel] of the
    source tree: it lists and creates a directory, or copies a file. *)
Definition copy_calls (src dst rel : path) (n : node) : list oscall :=
  match n with
  | Dir => [Scandir (src ++ rel); Makedirs (dst ++ rel)]
  | File _ => [CopyFile (src ++ rel) (dst ++ rel)]
  end.

Definition copy_step_ok (fail : oscall → bool) (src dst : path)
    (t : gmap path node) (rel : path) : bool :=
  match t !! rel with
  | Some n => forallb (λ c, negb (fail c)) (copy_calls src dst rel n)
  | None => false
  end.

(** [copytree] reaches an entry when every directory above it was
    copied, and copies it when its own step succeeds as well. *)
Definition copy_reached (fail : oscall → bool) (src dst : path)
    (t : gmap path node) (rel : path) : bool :=
  forallb (copy_step_ok fail src dst t) (above rel).

Definition copy_done (fail : oscall → bool) (src dst : path)
    (t : gmap path node) (rel : path) : bool :=
  copy_reached fail src dst t rel && copy_step_ok fail src dst t rel.

Definition copy_call (src dst rel : path) (n : node) : oscall :=
  match n with
  | Dir => Makedirs (dst ++ rel)
  | File _ => CopyFile (src ++ rel) (dst ++ rel)
  end.

(** [shutil.copytree(src, dst)]: [dst] must not exist; a failure inside
    the tree is collected and the copy goes on with the next entry, and
    [shutil.Error] is raised at the end if anything was collected.  When
    [dst] lies inside [src] the copy feeds on its own output until the
    path length limit stops it: the first generation of the copy is kept
    here and the error reported. *)
Definition shutil_copytree (src dst : path) : M path := λ w0,
  let w := add_call (CopyTree src dst) w0 in
  let m := fs w in
  let fail := io_fail w in
  match m !! src with
  | None => (Raise (OSError ENOENT (Scandir src)), w)
  | Some (File _) => (Raise (OSError ENOTDIR (Scandir src)), w)
  | Some Dir =>
      if fail (Scandir src) then (Raise (OSError EACCES (Scandir src)), w)
      else if path_exists m dst then (Raise (OSError EEXIST (Makedirs dst)), w)
      else if existsb (λ q, is_file (m !! q)) (prefixes dst)
      then (Raise (OSError ENOTDIR (Makedirs dst)), w)
      else if fail (Makedirs dst) then (Raise (OSError EACCES (Makedirs dst)), w)
      else
        let t := subtree m src in
        let copied := filter (λ kv, copy_done fail src dst t kv.1 = true) t in
        let failed :=
          filter (λ kv, copy_reached fail src dst t kv.1 = true
                        ∧ copy_step_ok fail src dst t kv.1 = false) t in
        let w' := set_fs (graft dst copied (mkdir_all (prefixes dst) m)) w in
        if bool_decide (is_Some (under src dst))
        then (Raise (OSError ENAMETOOLONG (Makedirs dst)), w')
        else if bool_decide (failed = ∅) then (Ok dst, w')
        else (Raise (ShutilError ((λ kv, copy_call src dst kv.1 kv.2)
                                    <$> map_to_list failed)), w')
  end.

(** Lexicographic order on paths, a directory before what it holds:
    the order of a top-down walk that lists names in order. *)
Fixpoint path_leb (p q : path) : bool :=
  match p, q with
  | [], _ => true
  | _ :: _, [] => false
  | x :: p', y :: q' => if String.eqb x y then path_leb p' q' else String.ltb x y
  end.

(** [os.walk(base)], top-down, as the list of the directories visited
    (relative to [base]) with the files of each.  A directory that cannot
    be listed is skipped with all it holds ([onerror] is not set).  The
    listing is the one found when the walk starts. *)
Definition walk_visits (fail : oscall → bool) (base : path)
    (t : gmap path node) (rel : path) : bool :=
  forallb (λ q, is_dir (t !! q) && negb (fail (Scandir (base ++ q))))
          (above rel ++ [rel]).

Definition files_in (m : gmap path node) (p : path) : list string :=
  omap (λ kv : string * node, if is_file (Some kv.2) then Some kv.1 else None)
       (children m p).

Definition os_walk (base : path) : M (list (path * list string)) := λ w,
  let t := subtree (fs w) base in
  let dirs := merge_sort (λ p q, path_leb p q)
                (List.filter (walk_visits (io_fail w) base t) (map_to_list t).*1) in
  (Ok ((λ rel, (rel, files_in (fs w) (base ++ rel))) <$> dirs), w).

(** ** GAME DETECTION *)

Definition looks_like_mwc_folder (m : filesystem) (p : path) : bool :=
  let exe_mwc := p // "mywintercar.exe" in
  let exe_msc := p // "mysummercar.exe" in
  let data_mwc := p // "mywintercar_Data" in
  let data_msc := p // "mysummercar_Data" in
  if path_exists m exe_mwc && path_exists m data_mwc then true
  else if path_exists m exe_msc && path_exists m data_msc then true
  else false.

(** [str.lower()] on the ASCII letters. *)
Definition lower_ascii (c : Ascii.ascii) : Ascii.ascii :=
  let n := Ascii.nat_of_ascii c in
  if (65 <=? n)%nat && (n <=? 90)%nat then Ascii.ascii_of_nat (n + 32) else c.

Fixpoint lower (s : string) : string :=
  match s with
  | EmptyString => EmptyString
  | String c s' => String (lower_ascii c) (lower s')
  end.

(** [x in name] on strings: [x] occurs in [name]. *)
Fixpoint contains (x name : string) : bool :=
  String.prefix x name ||
  match name with
  | EmptyString => false
  | String _ name' => contains x name'
  end.

Definition BAD_DIRS : list string :=
  [ "windows"; "programdata"; "system volume information";
    "$recycle.bin"; "recycler"; "recovery"; "tmp"; "temp" ].

Definition TARGET_NAMES : list string :=
  [ "my winter car"; "winter"; "mysummercar"; "mywintercar" ].

(** [path.name] *)
Definition name_of (p : path) : string := List.last p "".

(** The loop of [fast_check] over the listing of [p]; it returns at the
    first entry that passes. *)
Fixpoint scan_entries (m : gmap path node) (p : path)
    (entries : list (string * node)) : option path :=
  match entries with
  | [] => None
  | obj :: rest =>
      if negb (is_dir (Some obj.2)) then scan_entries m p rest
      else
        let low := lower obj.1 in
        if bool_decide (low ∈ BAD_DIRS) then scan_entries m p rest
        else
          let q := p // obj.1 in
          if (path_exists m (q // "mywintercar.exe")
              || path_exists m (q // "mysummercar.exe"))
             && looks_like_mwc_folder m q
          then Some q
          else scan_entries m p rest
  end.

(** [fast_check], with the set [checked] it shares with the other
    tasks passed in and out. *)
Definition fast_check (checked : gset path) (p : path) : M (option path * gset path) :=
  if bool_decide (p ∈ checked) then mret (None, checked)
  else
    let checked' := checked ∪ {[ p ]} in
    r ← try_except
          (let name := lower (name_of p) in
           hit ← gets (λ w, existsb (λ x, contains x name) TARGET_NAMES
                             && looks_like_mwc_folder (fs w) p);
           if hit : bool then mret (Some p)
           else
             entries ← os_scandir p;
             gets (λ w, scan_entries (fs w) p entries))
          (λ _, mret None);
    mret (r, checked').

Definition drive_letters : list string :=
  [ "C"; "D"; "E"; "F"; "G"; "H"; "I"; "J"; "K"; "L"; "M"; "N";
    "O"; "P"; "Q"; "R"; "S"; "T"; "U"; "V"; "W"; "X"; "Y"; "Z" ].

Definition fast_paths : list path :=
  [ ["C:"; "Program Files (x86)"; "Steam"; "steamapps"; "common"];
    ["C:"; "Program Files"; "Steam"; "steamapps"; "common"];
    ["D:"; "SteamLibrary"; "steamapps"; "common"];
    ["E:"; "SteamLibrary"; "steamapps"; "common"] ].

(** The roots of the scan: the drives that exist, then the library
    folders that exist and are not among them. *)
Definition scan_roots (m : gmap path node) : list path :=
  let drives :=
    List.filter (path_exists m) ((λ letter, [letter +:+ ":"]) <$> drive_letters) in
  foldl (λ drives p, if path_exists m p && negb (bool_decide (p ∈ drives))
                     then drives ++ [p] else drives)
        drives fast_paths.

(** The tasks submitted for one root: its directories; a root that
    cannot be listed submits nothing. *)
Definition submit_root (root : path) : M (list path) :=
  try_except
    (entries ← os_scandir root;
     mret (omap (λ entry : string * node,
                   if is_dir (Some entry.2) then Some (root // entry.1) else None)
                entries))
    (λ _, mret []).

(** [find_mwc_candidates].  The pool runs the tasks concurrently and
    hands the results back as they complete; here they run and complete
    in the order they were submitted, which is one of the schedules. *)
Definition find_mwc_candidates : M (list path) :=
  roots ← gets (λ w, scan_roots (fs w));
  tasks ← for_each roots (λ futures root,
                            submitted ← submit_root root;
                            mret (futures ++ submitted)) [];
  '(results, _) ← for_each tasks
                    (λ (acc : list (option path) * gset path) p,
                       '(res, checked) ← fast_check acc.2 p;
                       mret (acc.1 ++ [res], checked))
                    ([], ∅);
  mret (foldl (λ candidates res,
                 match res with
                 | Some p => if bool_decide (p ∈ candidates) then candidates
                             else candidates ++ [p]
                 | None => candidates
                 end) [] results).

(** ** BACKUP SYSTEM *)

Definition BACKUP_DIR : path := ["Backups"].

(** A relative path, as the system resolves it. *)
Definition resolve (w : world) (p : path) : path := cwd w ++ p.

(** The name of the backup taken at [ts]. *)
Definition backup_name (ts : string) : string := "MWC_Backup_" +:+ ts.

(** [create_backup]: the record returned is the relative path
    [Backups/MWC_Backup_<ts>] of the copy, or [None]. *)
Definition create_backup (game_folder : path) : M (option path) :=
  try_except
    (found ← gets (λ w, path_exists (fs w) game_folder);
     if negb found then mret None
     else
       backups ← gets (λ w, resolve w BACKUP_DIR);
       os_makedirs backups true;;
       ts ← gets clock;
       let backup_folder := BACKUP_DIR // backup_name ts in
       write_log_line ("Creating backup at " +:+ show_path backup_folder);;
       dst ← gets (λ w, resolve w backup_folder);
       shutil_copytree game_folder dst;;
       mret (Some backup_folder))
    (λ e,
       write_log_line ("Backup error: " +:+ show_exn e);;
       mret None).

(** ** FMF HELPER FILES + COPY *)

Definition FMF : path := ["fmf"].

(** The body of the inner loop of [copy_fmf_to_game]: one file. *)
Definition copy_fmf_file (root_path dest_dir : path) (copied_files : nat)
    (f : string) : M nat :=
  let src := root_path // f in
  let dest := dest_dir // f in
  try_except
    (shutil_copy2 src dest;;
     mret (copied_files + 1))
    (λ e,
       write_log_line ("FMF copy error " +:+ show_path src +:+ " -> "
                       +:+ show_path dest +:+ ": " +:+ show_exn e);;
       mret copied_files).

(** The body of the outer loop: one directory of the walk. *)
Definition copy_fmf_dir (base game_folder : path) (counts : nat * nat)
    (visit : path * list string) : M (nat * nat) :=
  let '(copied_files, copied_dirs) := counts in
  let rel := visit.1 in
  let root_path := base ++ rel in
  let dest_dir := game_folder ++ rel in
  os_makedirs dest_dir true;;
  let copied_dirs := if bool_decide (rel ≠ []) then copied_dirs + 1 else copied_dirs in
  copied_files ← for_each visit.2 (copy_fmf_file root_path dest_dir) copied_files;
  mret (copied_files, copied_dirs).

Definition copy_fmf_to_game (game_folder : path) : M (nat * nat) :=
  base ← gets (λ w, resolve w FMF);
  found ← gets (λ w, path_exists (fs w) base);
  if negb found then
    write_log_line "FMF folder not found, nothing to copy.";;
    mret (0, 0)
  else
    visits ← os_walk base;
    counts ← for_each visits (copy_fmf_dir base game_folder) (0, 0);
    write_log_line ("FMF copied: " +:+ pretty counts.1 +:+ " files, "
                    +:+ pretty counts.2 +:+ " folders into "
                    +:+ show_path game_folder);;
    mret counts.

(** ** SHORTCUT *)

Definition create_shortcut (target_path : path) : M bool :=
  err ← gets shortcut_error;
  match err with
  | None => mret true
  | Some e =>
      write_log_line ("Shortcut error: " +:+ e);;
      mret false
  end.

(** ** MAIN WINDOW: FIX / REVERT *)

(** The [return] a handler leaves by. *)
Inductive outcome :=
  | NoFolder
  | NotValid
  | Cancelled
  | BackupFailed
  | RenameFailed
  | Completed.

Global Instance outcome_eq_dec : EqDecision outcome.
Proof. solve_decision. Defined.

(** The shape both halves of a [try] body have: rename the entry if it
    is there, and log the rename. *)
Definition rename_if_exists (src dst : path) (line : string) : M unit :=
  found ← gets (λ w, path_exists (fs w) src);
  if found : bool then
    os_rename src dst;;
    log_msg line false
  else mret tt.

(** Two such renames in a row, of the entries [a] and [c] of the folder
    [g]: the body of the [try] of the fix and of the revert. *)
Definition rename_pair (g : path) (a b c d line1 line2 : string) : M unit :=
  rename_if_exists (g // a) (g // b) line1;;
  rename_if_exists (g // c) (g // d) line2.

(** The body of the [try] of [on_fix_clicked]: the two renames. *)
Definition fix_renames (game_path : path) : M unit :=
  let exe_mwc := game_path // "mywintercar.exe" in
  let data_mwc := game_path // "mywintercar_Data" in
  let exe_msc := game_path // "mysummercar.exe" in
  let data_msc := game_path // "mysummercar_Data" in
  found ← gets (λ w, path_exists (fs w) exe_mwc);
  (if found : bool then
     os_rename exe_mwc exe_msc;;
     log_msg "Renamed mywintercar.exe -> mysummercar.exe" false
   else mret tt);;
  found ← gets (λ w, path_exists (fs w) data_mwc);
  (if found : bool then
     os_rename data_mwc data_msc;;
     log_msg "Renamed mywintercar_Data -> mysummercar_Data" false
   else mret tt).

(** The whole [try ... except Exception as e] statement of the fix: it
    answers whether the renames went through, and reports the exception
    when they did not. *)
Definition fix_transform (game_path : path) : M bool :=
  try_except
    (fix_renames game_path;;
     mret true)
    (λ e,
       log_msg ("Rename error: " +:+ show_exn e) true;;
       message_box (Critical "Error" ("Rename failed:" +:+ NL +:+ show_exn e));;
       mret false).

Definition on_fix_clicked (answer : button) : M outcome :=
  selected ← gets game_path;
  match selected with
  | None =>
      message_box (Warning "No Folder" "Select or auto-detect game folder first.");;
      log_msg "Fix aborted: no game folder selected." true;;
      mret NoFolder
  | Some game_path =>
      valid ← gets (λ w, looks_like_mwc_folder (fs w) game_path);
      if negb valid then
        message_box (Warning "Not Valid"
                       "This folder does not look like My Winter Car / My Summer Car.");;
        log_msg "Fix aborted: folder not valid game folder." true;;
        mret NotValid
      else
        answer ← question "Backup + Fix"
                   ("This will create a backup and then rename files." +:+ NL +:+ NL
                    +:+ "Continue?") answer;
        if bool_decide (answer ≠ Yes) then
          log_msg "Fix cancelled by user." false;;
          mret Cancelled
        else
          log_msg "Creating backup before fix..." false;;
          backup_folder ← create_backup game_path;
          match backup_folder with
          | None =>
              message_box (Warning "Backup Failed"
                             "Backup could not be created. Aborting.");;
              log_msg "Backup failed. Fix aborted." true;;
              mret BackupFailed
          | Some backup_folder =>
              log_msg ("Backup created at " +:+ show_path backup_folder) false;;
              let exe_msc := game_path // "mysummercar.exe" in
              renamed ← fix_transform game_path;
              if negb renamed then mret RenameFailed
              else
                created ← create_shortcut exe_msc;
                (if created : bool then log_msg "Desktop shortcut created." false
                 else log_msg "Failed to create desktop shortcut." true);;
                counts ← copy_fmf_to_game game_path;
                (if (0 <? counts.1)%nat then
                   log_msg ("Copied " +:+ pretty counts.1
                            +:+ " file(s) from FMF into game folder.") false
                 else
                   log_msg "FMF folder empty or not found, nothing extra copied." false);;
                modify (set_last_action "FIXED");;
                message_box
                  (Information "Done"
                     ("Game successfully converted for MSC Loader." +:+ NL
                      +:+ "FMF content has been copied on top of the game folder." +:+ NL
                      +:+ "You can now install MSC Loader or use your mods."));;
                log_msg "Fix completed successfully." false;;
                mret Completed
          end
  end.

(** The world in which [on_fix_clicked] calls [create_backup]: the
    confirmation box was answered and the line before the backup
    logged. *)
Definition backup_point (w : world) : world :=
  ((question "Backup + Fix"
      ("This will create a backup and then rename files." +:+ NL +:+ NL
       +:+ "Continue?") Yes;;
    log_msg "Creating backup before fix..." false) w).2.

(** The body of the [try] of [on_revert_clicked]. *)
Definition revert_renames (game_path : path) : M unit :=
  let exe_mwc := game_path // "mywintercar.exe" in
  let data_mwc := game_path // "mywintercar_Data" in
  let exe_msc := game_path // "mysummercar.exe" in
  let data_msc := game_path // "mysummercar_Data" in
  found ← gets (λ w, path_exists (fs w) exe_msc);
  (if found : bool then
     os_rename exe_msc exe_mwc;;
     log_msg "Renamed mysummmercar.exe -> mywintercar.exe" false
   else mret tt);;
  found ← gets (λ w, path_exists (fs w) data_msc);
  (if found : bool then
     os_rename data_msc data_mwc;;
     log_msg "Renamed mysummmercar_Data -> mywintercar_Data" false
   else mret tt).

(** The whole [try ... except] statement of the revert. *)
Definition revert_transform (game_path : path) : M bool :=
  try_except
    (revert_renames game_path;;
     mret true)
    (λ e,
       log_msg ("Revert error: " +:+ show_exn e) true;;
       message_box (Critical "Error" ("Revert failed:" +:+ NL +:+ show_exn e));;
       mret false).

Definition on_revert_clicked (answer : button) : M outcome :=
  selected ← gets game_path;
  match selected with
  | None =>
      message_box (Warning "No Folder" "Select or auto-detect game folder first.");;
      log_msg "Revert aborted: no game folder selected." true;;
      mret NoFolder
  | Some game_path =>
      answer ← question "Revert"
                 ("This will try to rename mysummercar.exe -> mywintercar.exe "
                  +:+ "and data folder back." +:+ NL +:+ NL +:+ "Continue?")
                 answer;
      if bool_decide (answer ≠ Yes) then
        log_msg "Revert cancelled by user." false;;
        mret Cancelled
      else
        renamed ← revert_transform game_path;
        if negb renamed then mret RenameFailed
        else
          modify (set_last_action "REVERTED");;
          message_box (Information "Reverted" "Names reverted successfully.");;
          log_msg "Revert completed successfully." false;;
          mret Completed
  end.


(** ** MAIN WINDOW: selecting the game folder *)

Definition set_selected (p : option path) (w : world) : world :=
  World (fs w) (cwd w) (clock w) (io_fail w) (shortcut_error w) (calls w)
        (logfile w) (ui_log w) (dialogs w) p (last_action w).

(** [set_game_path]: the field of the window; the entry [last_path] of
    the configuration and the path label are not part of the world. *)
Definition set_game_path (p : path) : M unit := modify (set_selected (Some p)).

(** [on_browse_clicked]; [folder] is what the folder dialog returned,
    [None] for the empty string of a dialog that was closed. *)
Definition on_browse_clicked (folder : option path) : M unit :=
  match folder with
  | None => mret tt
  | Some p =>
      valid ← gets (λ w, looks_like_mwc_folder (fs w) p);
      (if negb valid then
         log_msg "Selected folder does not look like My Winter Car." true;;
         message_box
           (Warning "Warning"
              ("Selected folder does not seem to contain "
               +:+ "My Winter Car / My Summer Car executable."))
       else mret tt);;
      set_game_path p;;
      log_msg "Folder selected manually." false
  end.

(** [auto_detect_game]; [answer] and [folder] are what the user does
    with the question and with the folder dialog, if they are shown. *)
Definition auto_detect_game (prompt_if_found : bool) (answer : button)
    (folder : option path) : M unit :=
  log_msg "Searching for My Winter Car installation..." false;;
  candidates ← find_mwc_candidates;
  match candidates with
  | [] => log_msg "No automatic game folder detected." true
  | best :: _ =>
      if prompt_if_found then
        answer ← question "Game Found"
                   ("My Winter Car seems to be here:" +:+ NL +:+ NL
                    +:+ show_path best +:+ NL +:+ NL +:+ "Use this folder?")
                   answer;
        if bool_decide (answer = Yes) then
          set_game_path best;;
          log_msg "Game folder selected by auto-detect." false
        else on_browse_clicked folder
      else
        set_game_path best;;
        log_msg "Game folder set by auto-detect." false
  end.

Definition auto_detect_game_if_needed (answer : button) (folder : option path) : M unit :=
  selected ← gets (λ w, match game_path w with
                        | Some p => path_exists (fs w) p
                        | None => false
                        end);
  if selected : bool then mret tt
  else auto_detect_game true answer folder.

Definition on_auto_detect_clicked (answer : button) (folder : option path) : M unit :=
  auto_detect_game true answer folder.
(** ** Notions the properties are stated with *)

(** The marker pair of one naming: the executable and the data folder,
    both directly under [p]. *)
Definition has_pair (m : gmap path node) (p : path) (exe data : string) : Prop :=
  is_Some (m !! (p // exe)) ∧ is_Some (m !! (p // data)).


(** The first rename went through: the executable left its primary
    name for the alternate one. *)
Definition first_renamed (g : path) (w w' : world) : Prop :=
  is_Some (fs w !! (g // "mywintercar.exe"))
  ∧ fs w' !! (g // "mywintercar.exe") = None
  ∧ is_Some (fs w' !! (g // "mysummercar.exe")).

(** A call that is not one of the renames. *)
Definition not_rename (c : oscall) : Prop :=
  match c with Rename _ _ => False | _ => True end.

(** What holds of the world [cur] all along the copy of the overlay
    [base] of the world [w0] onto [g]: the faults are those of [w0], and
    an entry of the store is either what it was in [w0] or, at a path
    [g ++ rel], the entry the overlay has at [rel]. *)
Definition merge_inv (w0 : world) (base g : path) (cur : world) : Prop :=
  io_fail cur = io_fail w0
  ∧ ∀ p, fs cur !! p = fs w0 !! p
         ∨ ∃ rel, p = g ++ rel
                  ∧ is_Some (fs w0 !! (base ++ rel))
                  ∧ fs cur !! p = fs w0 !! (base ++ rel).

(** The overlay entry at [rel] is found at [rel] under [g]. *)
Definition mirrored (w0 : world) (base g rel : path) (cur : world) : Prop :=
  is_Some (fs w0 !! (base ++ rel))
  ∧ fs cur !! (g ++ rel) = fs w0 !! (base ++ rel).

(** Nothing that existed in [w] is missing in [w']. *)
Definition keeps (w w' : world) : Prop :=
  ∀ p, is_Some (fs w !! p) → is_Some (fs w' !! p).

(** The four marker names of an installation root. *)
Definition markers : list string :=
  [ "mywintercar.exe"; "mysummercar.exe"; "mywintercar_Data"; "mysummercar_Data" ].

(** ** Example installations *)

(** A primary-named game in [C:\Games\MWC], the tool in [C:\Tools] with
    an overlay of two files. *)
Definition primary_fs : gmap path node :=
  list_to_map
    [ (["C:"], Dir);
      (["C:"; "Tools"], Dir);
      (["C:"; "Tools"; "fmf"], Dir);
      (["C:"; "Tools"; "fmf"; "a"], Dir);
      (["C:"; "Tools"; "fmf"; "a"; "readme.txt"], File "FMF FOLDER");
      (["C:"; "Tools"; "fmf"; "a"; "b"], Dir);
      (["C:"; "Tools"; "fmf"; "a"; "b"; "c.dll"], File "dll");
      (["C:"; "Games"], Dir);
      (["C:"; "Games"; "MWC"], Dir);
      (["C:"; "Games"; "MWC"; "mywintercar.exe"], File "MZ");
      (["C:"; "Games"; "MWC"; "mywintercar_Data"], Dir);
      (["C:"; "Games"; "MWC"; "mywintercar_Data"; "level0"], File "scene") ].

Definition game : path := ["C:"; "Games"; "MWC"].

Definition world_of (m : gmap path node) (fail : oscall → bool) : world :=
  World m ["C:"; "Tools"] "2024-01-01_10-00-00" fail None [] [] [] []
        (Some game) "None".

Definition primary_world : world := world_of primary_fs (λ _, false).

(** The same game after a fix, and after a fix and a revert. *)
Definition fixed_world : world := (fix_transform game primary_world).2.
Definition reverted_world : world := (revert_transform game fixed_world).2.

(** Two installations in which the rename of the data folder fails
    because [mysummercar_Data] is already there: in the first the
    executable still has its primary name and is renamed before the
    failure, in the second it already has the alternate name. *)
Definition half_done_fs : gmap path node :=
  list_to_map
    [ (["C:"], Dir);
      (["C:"; "Tools"], Dir);
      (["C:"; "Games"], Dir);
      (["C:"; "Games"; "MWC"], Dir);
      (["C:"; "Games"; "MWC"; "mywintercar.exe"], File "MZ");
      (["C:"; "Games"; "MWC"; "mywintercar_Data"], Dir);
      (["C:"; "Games"; "MWC"; "mysummercar_Data"], Dir);
      (["C:"; "Games"; "MWC"; "mysummercar_Data"; "level0"], File "scene") ].

Definition blocked_fs : gmap path node :=
  list_to_map
    [ (["C:"], Dir);
      (["C:"; "Tools"], Dir);
      (["C:"; "Games"], Dir);
      (["C:"; "Games"; "MWC"], Dir);
      (["C:"; "Games"; "MWC"; "mysummercar.exe"], File "MZ");
      (["C:"; "Games"; "MWC"; "mywintercar_Data"], Dir);
      (["C:"; "Games"; "MWC"; "mysummercar_Data"], Dir);
      (["C:"; "Games"; "MWC"; "mysummercar_Data"; "level0"], File "scene") ].

Definition half_done_world : world := world_of half_done_fs (λ _, false).
Definition blocked_world : world := world_of blocked_fs (λ _, false).

(** What a [try] statement that failed has reported: the message boxes
    it opened and the lines it logged as errors. *)
Definition failure_report (w w' : world) : list dialog * list string :=
  (drop (length (dialogs w)) (dialogs w'),
   (List.filter (λ line : string * bool, line.2)
                (drop (length (ui_log w)) (ui_log w'))).*1).

(** The same game when the copy of one file of the data folder fails:
    the backup cannot be completed. *)
Definition faulty_world : world :=
  world_of primary_fs
    (λ c, bool_decide
            (c = CopyFile (game ++ ["mywintercar_Data"; "level0"])
                          (["C:"; "Tools"; "Backups";
                            "MWC_Backup_2024-01-01_10-00-00";
                            "mywintercar_Data"; "level0"]))).

(** A backup of an already fixed game, selected as the game folder. *)
Definition backup_copy : path :=
  ["C:"; "Tools"; "Backups"; "MWC_Backup_2023-12-31_09-00-00"].

Definition backup_selected_fs : gmap path node :=
  list_to_map
    [ (["C:"], Dir);
      (["C:"; "Tools"], Dir);
      (["C:"; "Tools"; "Backups"], Dir);
      (backup_copy, Dir);
      (backup_copy // "mysummercar.exe", File "MZ");
      (backup_copy // "mysummercar_Data", Dir) ].

Definition backup_selected_world : world :=
  World backup_selected_fs ["C:"; "Tools"] "2024-01-01_10-00-00" (λ _, false)
        None [] [] [] [] (Some backup_copy) "FIXED".

(** The fixed game of the first example, as the window holds it. *)
Definition fixed_game_world : world :=
  World (fs fixed_world) ["C:"; "Tools"] "2024-01-01_10-05-00" (λ _, false)
        None [] [] [] [] (Some game) "FIXED".

(** The drive [C:] holds [Temp], a directory the deny-list names, and
    one level below it a folder with a complete primary pair. *)
Definition denied_fs : gmap path node :=
  list_to_map
    [ (["C:"], Dir);
      (["C:"; "Temp"], Dir);
      (["C:"; "Temp"; "MyGame"], Dir);
      (["C:"; "Temp"; "MyGame"; "mywintercar.exe"], File "MZ");
      (["C:"; "Temp"; "MyGame"; "mywintercar_Data"], Dir) ].

Definition denied_world : world :=
  World denied_fs ["C:"; "Tools"] "2024-01-01_10-00-00" (λ _, false) None
        [] [] [] [] None "None".

(** The first example when the game holds [a\readme.txt] open, so that
    the copy of this one overlay file is refused. *)
Definition locked_world : world :=
  world_of primary_fs
    (λ c, bool_decide
            (c = CopyFile ["C:"; "Tools"; "fmf"; "a"; "readme.txt"]
                          (game ++ ["a"; "readme.txt"]))).

(** An overlay with a file [plugin] and a game that has a directory of
    that name. *)
Definition clash_fs : gmap path node :=
  list_to_map
    [ (["C:"], Dir);
      (["C:"; "Tools"], Dir);
      (["C:"; "Tools"; "fmf"], Dir);
      (["C:"; "Tools"; "fmf"; "plugin"], File "dll");
      (["C:"; "Games"], Dir);
      (["C:"; "Games"; "MWC"], Dir);
      (["C:"; "Games"; "MWC"; "plugin"], Dir);
      (["C:"; "Games"; "MWC"; "mysummercar.exe"], File "MZ");
      (["C:"; "Games"; "MWC"; "mysummercar_Data"], Dir) ].

Definition clash_world : world := world_of clash_fs (λ _, false).

(** The first example with an overlay that holds a file named like the
    primary executable. *)
Definition patched_fs : gmap path node :=
  <[ ["C:"; "Tools"; "fmf"; "mywintercar.exe"] := File "patched" ]> primary_fs.

Definition patched_world : world := world_of patched_fs (λ _, false).


(** ** Notions for the scan and the selection *)

(** What [fast_check] can hand back for the folder [t] it is given: the
    folder itself when its name holds one of the fragments, or a
    directory directly inside it that the deny-list does not name; in
    both cases one that looks like an installation. *)
Definition found_by (m : gmap path node) (t q : path) : Prop :=
  looks_like_mwc_folder m q = true
  ∧ ((q = t ∧ existsb (λ x, contains x (lower (name_of t))) TARGET_NAMES = true)
     ∨ ∃ b, q = t // b ∧ lower b ∉ BAD_DIRS ∧ m !! q = Some Dir).

(** The places a scan starts from, whether they exist or not. *)
Definition scan_places : list path :=
  ((λ letter, [letter +:+ ":"]) <$> drive_letters) ++ fast_paths.

(** ** Notions for the overlay copy *)

(** Every entry of [w] is still there in [w'], as a directory if it was
    one and as a file if it was one. *)
Definition keeps_kinds (w w' : world) : Prop :=
  ∀ p, (is_dir (fs w !! p) = true → is_dir (fs w' !! p) = true)
       ∧ (is_file (fs w !! p) = true → is_file (fs w' !! p) = true).

(** The store changes below [g] only, provided the directories on the
    way to [g] exist, and loses nothing. *)
Definition writes_below (g : path) (w w' : world) : Prop :=
  keeps w w'
  ∧ ((∀ q, q ∈ prefixes g → is_Some (fs w !! q)) →
     ∀ p, under g p = None → fs w' !! p = fs w !! p).

(** The calls added between [w] and [w'] all satisfy [P]. *)
Definition calls_added (P : oscall → Prop) (w w' : world) : Prop :=
  ∃ l, calls w' = calls w ++ l ∧ Forall P l.

Definition is_copy_file (c : oscall) : bool :=
  match c with CopyFile _ _ => true | _ => false end.

(** A line that [copy_fmf_to_game] logs for a file it could not
    copy. *)
Definition copy_error_line (line : string) : Prop :=
  String.prefix "FMF copy error " line = true.

(** ** Notions for the actions of the window *)

(** Between [w] and [w'] only log lines and message boxes were
    added. *)
Definition only_reports (w w' : world) : Prop :=
  fs w' = fs w ∧ calls w' = calls w
  ∧ cwd w' = cwd w ∧ clock w' = clock w ∧ io_fail w' = io_fail w
  ∧ shortcut_error w' = shortcut_error w
  ∧ game_path w' = game_path w ∧ last_action w' = last_action w.

(** What no file operation changes: the environment, the selected
    folder and the recorded last action. *)
Definition same_setup (w w' : world) : Prop :=
  cwd w' = cwd w ∧ clock w' = clock w ∧ io_fail w' = io_fail w
  ∧ shortcut_error w' = shortcut_error w
  ∧ game_path w' = game_path w ∧ last_action w' = last_action w.

(** One of the two renames of the fix of the folder [g]. *)
Definition fix_rename (g : path) (c : oscall) : Prop :=
  c = Rename (g // "mywintercar.exe") (g // "mysummercar.exe")
  ∨ c = Rename (g // "mywintercar_Data") (g // "mysummercar_Data").

(** An alternate-named game in [C:\Games\MWC], as a fix leaves it. *)
Definition alternate_fs : gmap path node :=
  list_to_map
    [ (["C:"], Dir);
      (["C:"; "Tools"], Dir);
      (["C:"; "Games"], Dir);
      (["C:"; "Games"; "MWC"], Dir);
      (["C:"; "Games"; "MWC"; "mysummercar.exe"], File "MZ");
      (["C:"; "Games"; "MWC"; "mysummercar_Data"], Dir);
      (["C:"; "Games"; "MWC"; "mysummercar_Data"; "level0"], File "scene") ].

Definition alternate_world : world := world_of alternate_fs (λ _, false).



(** ** Probes that the system refuses *)

(** What [Path.exists()] does with a failing [stat], as pathlib has it:
    a path that is not there answers [False]; any other failure, a
    refusal of access among them, is raised to the caller.  The
    definitions above describe the program while every probe is
    answered.  The definitions of this part follow the same lines of the
    source with the paths whose [stat] the system refuses as a parameter
    [refused]; they carry the answer or the [PermissionError] of the
    refused path. *)
Inductive probed (A : Type) :=
  | Answered (a : A)
  | PermissionError (p : path).
Arguments Answered {A} a.
Arguments PermissionError {A} p.

Global Instance probed_ret : MRet probed := λ A a, Answered a.

Global Instance probed_bind : MBind probed := λ A B k c,
  match c with
  | Answered a => k a
  | PermissionError p => PermissionError p
  end.

(** [for x in l: s = body s x], a refused probe leaving the loop. *)
Fixpoint for_each_probed {A S} (l : list A) (body : S → A → probed S) (s : S)
    : probed S :=
  match l with
  | [] => mret s
  | x :: l' => s' ← body s x; for_each_probed l' body s'
  end.

(** [p.exists()] *)
Definition Path_exists (refused : path → bool) (m : filesystem) (p : path)
    : probed bool :=
  if refused p then PermissionError p else Answered (path_exists m p).

(** [looks_like_mwc_folder], probe by probe: [and] asks for the data
    folder only when the executable is there. *)
Definition looks_like_mwc_folder_probed (refused : path → bool) (m : filesystem)
    (p : path) : probed bool :=
  let exe_mwc := p // "mywintercar.exe" in
  let exe_msc := p // "mysummercar.exe" in
  let data_mwc := p // "mywintercar_Data" in
  let data_msc := p // "mysummercar_Data" in
  exe ← Path_exists refused m exe_mwc;
  both ← (if exe : bool then Path_exists refused m data_mwc else mret false);
  if both : bool then mret true
  else
    exe ← Path_exists refused m exe_msc;
    both ← (if exe : bool then Path_exists refused m data_msc else mret false);
    if both : bool then mret true
    else mret false.

(** The loop of [fast_check] over the listing of [p], probe by probe:
    [or] asks for the second executable only when the first is not
    there. *)
Fixpoint scan_entries_probed (refused : path → bool) (m : filesystem) (p : path)
    (entries : list (string * node)) : probed (option path) :=
  match entries with
  | [] => mret None
  | obj :: rest =>
      if negb (is_dir (Some obj.2)) then scan_entries_probed refused m p rest
      else
        let low := lower obj.1 in
        if bool_decide (low ∈ BAD_DIRS) then scan_entries_probed refused m p rest
        else
          let q := p // obj.1 in
          exe ← Path_exists refused m (q // "mywintercar.exe");
          exe ← (if exe : bool then mret true
                 else Path_exists refused m (q // "mysummercar.exe"));
          if exe : bool then
            valid ← looks_like_mwc_folder_probed refused m q;
            if valid : bool then mret (Some q)
            else scan_entries_probed refused m p rest
          else scan_entries_probed refused m p rest
  end.

(** [fast_check]: the [try] of the task turns a refused probe, like a
    listing that fails, into the answer [None] of the whole task. *)
Definition fast_check_probed (refused : path → bool) (w : world)
    (checked : gset path) (p : path) : option path * gset path :=
  if bool_decide (p ∈ checked) then (None, checked)
  else
    let checked' := checked ∪ {[ p ]} in
    let name := lower (name_of p) in
    let body : probed (option path) :=
      hit ← (if existsb (λ x, contains x name) TARGET_NAMES
             then looks_like_mwc_folder_probed refused (fs w) p
             else mret false);
      if hit : bool then mret (Some p)
      else
        match (os_scandir p w).1 with
        | Ok entries => scan_entries_probed refused (fs w) p entries
        | Raise _ => mret None
        end in
    (match body with
     | Answered r => r
     | PermissionError _ => None
     end, checked').

(** The roots of the scan: the two loops over the drive letters and
    over the library folders; their probes are in no [try]. *)
Definition scan_roots_probed (refused : path → bool) (m : filesystem)
    : probed (list path) :=
  drives ← for_each_probed ((λ letter, [letter +:+ ":"]) <$> drive_letters)
              (λ drives d,
                 found ← Path_exists refused m d;
                 if found : bool then mret (drives ++ [d]) else mret drives)
              [];
  for_each_probed fast_paths
    (λ drives p,
       found ← Path_exists refused m p;
       if found && negb (bool_decide (p ∈ drives))
       then mret (drives ++ [p]) else mret drives)
    drives.

(** [find_mwc_candidates] with probes that can be refused.  The scan
    changes nothing, so the world is only read; the tasks run in the
    order they were submitted, as above. *)
Definition find_mwc_candidates_probed (refused : path → bool) (w : world)
    : probed (list path) :=
  roots ← scan_roots_probed refused (fs w);
  let tasks := flat_map (λ root, match (submit_root root w).1 with
                                 | Ok submitted => submitted
                                 | Raise _ => []
                                 end) roots in
  let results :=
    (foldl (λ (acc : list (option path) * gset path) p,
              let '(res, checked) := fast_check_probed refused w acc.2 p in
              (acc.1 ++ [res], checked))
           ([], ∅) tasks).1 in
  mret (foldl (λ candidates res,
                 match res with
                 | Some p => if bool_decide (p ∈ candidates) then candidates
                             else candidates ++ [p]
                 | None => candidates
                 end) [] results).

(** A folder the user may not look into: the folder itself is seen, a
    [stat] of anything inside it is refused.  It holds no marker. *)
Definition locked : path := ["C:"; "Games"; "Locked"].

Definition locked_fs : gmap path node :=
  list_to_map
    [ (["C:"], Dir);
      (["C:"; "Games"], Dir);
      (locked, Dir) ].

Definition inside_locked (p : path) : bool :=
  match under locked p with
  | Some (_ :: _) => true
  | _ => false
  end.

(** A drive with a game in [C:\Games\MWC], next to the locked folder,
    and another in [C:\Play\MWC]. *)
Definition neighbour_fs : gmap path node :=
  list_to_map
    [ (["C:"], Dir);
      (["C:"; "Games"], Dir);
      (locked, Dir);
      (["C:"; "Games"; "MWC"], Dir);
      (["C:"; "Games"; "MWC"; "mywintercar.exe"], File "MZ");
      (["C:"; "Games"; "MWC"; "mywintercar_Data"], Dir);
      (["C:"; "Play"], Dir);
      (["C:"; "Play"; "MWC"], Dir);
      (["C:"; "Play"; "MWC"; "mywintercar.exe"], File "MZ");
      (["C:"; "Play"; "MWC"; "mywintercar_Data"], Dir) ].

Definition neighbour_world : world :=
  World neighbour_fs ["C:"; "Tools"] "2024-01-01_10-00-00" (λ _, false) None
        [] [] [] [] None "None".
(** * Properties *)

(** A closed decidable fact is settled by running its decision
    procedure. *)
Ltac decide_by_computing :=
  lazymatch goal with
  | |- ?P => apply (bool_decide_eq_true_1 P); vm_compute; reflexivity
  end.

(** A run is settled by its result: the world it leaves is the second
    component of the run. *)
Lemma run_eq {A} (c : M A) (w : world) (r : res A) :
  (c w).1 = r → c w = (r, (c w).2).
Proof. intros <-. apply surjective_pairing. Qed.

(** ** The store *)

Lemma under_Some src p rel : under src p = Some rel ↔ p = src ++ rel.
Proof.
  revert p. induction src as [|x src IH]; intros [|y p]; simpl.
  - split; [by intros [= <-] | by intros <-].
  - split; [by intros [= <-] | by intros <-].
  - split; [done | by intros [=]].
  - case_decide as Hxy.
    + subst y. rewrite IH. split; [by intros -> | by intros [= ->]].
    + split; [done | intros [= ? _]; by subst].
Qed.

Lemma under_app src rel : under src (src ++ rel) = Some rel.
Proof. by apply under_Some. Qed.

Lemma under_None src p : under src p = None ↔ ∀ rel, p ≠ src ++ rel.
Proof.
  split.
  - intros Hn rel ->. by rewrite under_app in Hn.
  - intros Hne. destruct (under src p) as [rel|] eqn:E; [|done].
    apply under_Some in E. by destruct (Hne rel).
Qed.

Lemma lookup_subtree m src rel : subtree m src !! rel = m !! (src ++ rel).
Proof.
  unfold subtree. revert rel.
  apply (map_fold_weak_ind
           (λ (acc : gmap path node) (m : gmap path node),
              ∀ rel, acc !! rel = m !! (src ++ rel))); simpl.
  - intros rel. by rewrite !lookup_empty.
  - intros p n m' acc Hp IH rel.
    destruct (under src p) as [rel'|] eqn:E.
    + apply under_Some in E. subst p.
      destruct (decide (rel' = rel)) as [->|Hne].
      * by rewrite !lookup_insert_eq.
      * rewrite lookup_insert_ne by done.
        rewrite lookup_insert_ne; [apply IH|].
        intros Heq. by apply app_inv_head in Heq.
    + rewrite lookup_insert_ne; [apply IH|].
      intros ->. by rewrite under_app in E.
Qed.

Local Instance app_head_inj (dst : path) : Inj (=) (=) (app dst).
Proof. intros rel1 rel2 Heq. by apply app_inv_head in Heq. Qed.

Lemma lookup_graft dst t m p :
  graft dst t m !! p =
    match under dst p with
    | Some rel => match t !! rel with Some n => Some n | None => m !! p end
    | None => m !! p
    end.
Proof.
  unfold graft. rewrite lookup_union.
  destruct (under dst p) as [rel|] eqn:E.
  - apply under_Some in E. subst p.
    assert (kmap (app dst) t !! (dst ++ rel) = t !! rel) as ->
      by apply (lookup_kmap _).
    destruct (t !! rel), (m !! (dst ++ rel)); done.
  - assert (kmap (app dst) t !! p = None) as ->.
    { apply (lookup_kmap_None _). intros rel ->. by rewrite under_app in E. }
    by destruct (m !! p).
Qed.

Lemma lookup_prune src m p :
  prune src m !! p = match under src p with Some _ => None | None => m !! p end.
Proof.
  unfold prune. destruct (under src p) as [rel|] eqn:E.
  - apply map_lookup_filter_None. right. intros n _. simpl. by rewrite E.
  - destruct (m !! p) as [n|] eqn:Hp.
    + by apply map_lookup_filter_Some.
    + apply map_lookup_filter_None. by left.
Qed.

(** ** Detection *)

Lemma path_exists_true m p : path_exists m p = true ↔ is_Some (m !! p).
Proof.
  unfold path_exists. destruct (m !! p) as [n|]; split; done.
Qed.

Lemma path_exists_false m p : path_exists m p = false ↔ m !! p = None.
Proof. unfold path_exists. by destruct (m !! p). Qed.


(** The answer is [True] exactly for a complete pair. *)
Lemma looks_like_pairs (m : gmap path node) (p : path) :
  looks_like_mwc_folder m p = true ↔
    has_pair m p "mywintercar.exe" "mywintercar_Data"
    ∨ has_pair m p "mysummercar.exe" "mysummercar_Data".
Proof.
  unfold looks_like_mwc_folder, has_pair.
  rewrite <- !path_exists_true.
  destruct (path_exists m (p // "mywintercar.exe")),
           (path_exists m (p // "mywintercar_Data")),
           (path_exists m (p // "mysummercar.exe")),
           (path_exists m (p // "mysummercar_Data")); simpl;
    intuition discriminate.
Qed.


(** A directory with nothing inside is not an installation. *)
Lemma looks_like_empty_dir m p :
  (∀ name, m !! (p // name) = None) → looks_like_mwc_folder m p = false.
Proof.
  intros Hempty.
  destruct (looks_like_mwc_folder m p) eqn:Hlooks; [|done].
  apply looks_like_pairs in Hlooks as [[[n Hn] _]|[[n Hn] _]];
    by rewrite Hempty in Hn.
Qed.

Lemma parent_child p name : parent (p // name) = p.
Proof. unfold parent, child. apply removelast_last. Qed.

(** In a forest every entry above an existing one is a directory. *)
Lemma wf_fs_parent m p name :
  wf_fs m → p ≠ [] → is_Some (m !! (p // name)) → m !! p = Some Dir.
Proof.
  intros Hwf Hp [n Hn]. specialize (Hwf _ _ Hn). simpl in Hwf.
  rewrite parent_child in Hwf. by destruct Hwf.
Qed.

Lemma wf_fs_above m p rel :
  wf_fs m → p ≠ [] → rel ≠ [] → is_Some (m !! (p ++ rel)) → m !! p = Some Dir.
Proof.
  intros Hwf Hp. induction rel as [|x rel IH] using rev_ind; [done|].
  intros _ Hsome. rewrite app_assoc in Hsome.
  assert (m !! (p ++ rel) = Some Dir) as Hdir.
  { apply (wf_fs_parent m (p ++ rel) x); [done| |done].
    intros Hnil. apply app_eq_nil in Hnil. by destruct Hnil. }
  destruct rel as [|y rel'].
  - by rewrite app_nil_r in Hdir.
  - apply IH; [done|]. by rewrite Hdir.
Qed.

(** A path that does not exist is not an installation. *)
Lemma looks_like_missing_path m p :
  wf_fs m → p ≠ [] → m !! p = None → looks_like_mwc_folder m p = false.
Proof.
  intros Hwf Hp Hnone.
  destruct (looks_like_mwc_folder m p) eqn:Hlooks; [|done].
  apply looks_like_pairs in Hlooks as [[Hexe _]|[Hexe _]];
    apply (wf_fs_parent m p _ Hwf Hp) in Hexe; congruence.
Qed.

(** *** The deny-list of the scan *)

(** What the deny-list does: a directory it names, met in the listing
    that [fast_check] goes through, is never returned itself. *)
Lemma scan_entries_skips_bad_dirs m p entries q :
  scan_entries m p entries = Some q →
  ∃ name, q = p // name ∧ lower name ∉ BAD_DIRS.
Proof.
  induction entries as [|[name n] rest IH]; simpl; [done|].
  destruct (negb _); [exact IH|].
  case_bool_decide as Hbad; [exact IH|].
  destruct (_ && _); [|exact IH].
  intros [= <-]. eauto.
Qed.


(** C5, evaluated on the code.  The scan of the drive [C:] hands
    [C:\Temp] to [fast_check], which does not look at the name of the
    directory it is given: it lists it and returns [C:\Temp\MyGame], a
    candidate inside a directory of the deny-list.  The deny-list is only
    consulted for the names found inside the directory being listed. *)
Theorem scan_reports_candidate_inside_denied_dir :
  wf_fs denied_fs
  ∧ lower "Temp" ∈ BAD_DIRS
  ∧ (find_mwc_candidates denied_world).1 = Ok [["C:"; "Temp"; "MyGame"]].
Proof.
  split; [decide_by_computing|].
  split; [decide_by_computing|].
  by vm_compute.
Qed.

(** ** The two coupled renames *)

Lemma under_refl p : under p p = Some [].
Proof. apply under_Some. by rewrite app_nil_r. Qed.

Lemma under_sibling g a b : a ≠ b → under (g // a) (g // b) = None.
Proof.
  intros Hab. apply under_None. intros rel Heq. unfold child in Heq.
  rewrite <- app_assoc in Heq. apply app_inv_head in Heq.
  by injection Heq as ->.
Qed.

Lemma lookup_moved src dst m p :
  moved src dst m !! p =
    match under dst p with
    | Some rel =>
        match m !! (src ++ rel) with
        | Some n => Some n
        | None => prune src m !! p
        end
    | None => prune src m !! p
    end.
Proof.
  unfold moved. rewrite lookup_graft.
  destruct (under dst p) as [rel|]; [|done]. by rewrite lookup_subtree.
Qed.

Lemma moved_source_gone g a b m : a ≠ b → moved (g // a) (g // b) m !! (g // a) = None.
Proof.
  intros Hab. rewrite lookup_moved, under_sibling by done.
  by rewrite lookup_prune, under_refl.
Qed.

Lemma moved_target g a b m n :
  m !! (g // a) = Some n → moved (g // a) (g // b) m !! (g // b) = Some n.
Proof.
  intros Ha. rewrite lookup_moved, under_refl, app_nil_r. by rewrite Ha.
Qed.

Lemma moved_elsewhere src dst m p :
  under src p = None → under dst p = None → moved src dst m !! p = m !! p.
Proof. intros Hs Hd. by rewrite lookup_moved, Hd, lookup_prune, Hs. Qed.

(** What one library call can do to the world. *)
Lemma os_rename_inv src dst w r w' :
  os_rename src dst w = (r, w') →
  (r = Ok tt
   ∧ is_Some (fs w !! src) ∧ fs w !! dst = None
   ∧ w' = set_fs (moved src dst (fs w)) (add_call (Rename src dst) w))
  ∨ ((∃ k, r = Raise (OSError k (Rename src dst)))
     ∧ w' = add_call (Rename src dst) w).
Proof.
  unfold os_rename. simpl.
  destruct (path_exists (fs w) src) eqn:Hsrc; simpl;
    [|intros [= <- <-]; right; eauto].
  destruct (path_exists (fs w) dst) eqn:Hdst;
    [intros [= <- <-]; right; eauto|].
  case_bool_decide; [intros [= <- <-]; right; eauto|].
  destruct (negb _); [intros [= <- <-]; right; eauto|].
  destruct (io_fail w _); intros [= <- <-]; [right; eauto|].
  left. apply path_exists_true in Hsrc. apply path_exists_false in Hdst. done.
Qed.

Lemma rename_if_exists_inv src dst line w r w' :
  rename_if_exists src dst line w = (r, w') →
  (r = Ok tt ∧ fs w !! src = None ∧ w' = w)
  ∨ (r = Ok tt
     ∧ is_Some (fs w !! src) ∧ fs w !! dst = None
     ∧ w' = add_logfile line (add_ui_log line false
              (set_fs (moved src dst (fs w)) (add_call (Rename src dst) w))))
  ∨ ((∃ k, r = Raise (OSError k (Rename src dst)))
     ∧ is_Some (fs w !! src)
     ∧ w' = add_call (Rename src dst) w).
Proof.
  unfold rename_if_exists, mbind, M_bind, gets.
  destruct (path_exists (fs w) src) eqn:Hsrc.
  - destruct (os_rename src dst w) as [r1 w1] eqn:Hren.
    apply path_exists_true in Hsrc.
    apply os_rename_inv in Hren as [(-> & _ & Hdst & ->)|[[k ->] ->]].
    + intros [= <- <-]. right; left. done.
    + intros [= <- <-]. right; right. eauto.
  - intros [= <- <-]. left. by apply path_exists_false in Hsrc.
Qed.

Section two_renames.
(** Two renames of entries of one folder [g], as the fix ([a] to [b],
    then [c] to [d]) and the revert do them; the four names differ. *)
Context (g : path) (a b c d : string) (line1 line2 : string).
Hypothesis Hab : a ≠ b.
Hypothesis Hcd : c ≠ d.
Hypothesis Hac : a ≠ c.
Hypothesis Had : a ≠ d.
Hypothesis Hbc : b ≠ c.
Hypothesis Hbd : b ≠ d.


(** After the two renames went through, the source names are gone and
    each target name holds what its source held, or else what it held
    before. *)
Lemma rename_pair_Ok w w1 :
  rename_pair g a b c d line1 line2 w = (Ok tt, w1) →
  fs w1 !! (g // a) = None
  ∧ fs w1 !! (g // c) = None
  ∧ fs w1 !! (g // b) =
      match fs w !! (g // a) with Some n => Some n | None => fs w !! (g // b) end
  ∧ fs w1 !! (g // d) =
      match fs w !! (g // c) with Some n => Some n | None => fs w !! (g // d) end.
Proof.
  unfold rename_pair, mbind, M_bind.
  destruct (rename_if_exists (g // a) (g // b) line1 w) as [r1 w'] eqn:H1.
  apply rename_if_exists_inv in H1
    as [(-> & Ha & ->)|[(-> & [na Ha] & Hb & ->)|([k ->] & _ & ->)]]; [| |done].
  - intros H2. apply rename_if_exists_inv in H2
      as [(_ & Hc & ->)|[(_ & [nc Hc] & Hd & ->)|([k Hk] & _)]]; [| |done].
    + by rewrite Ha, Hc.
    + simpl. rewrite Ha, Hc.
      rewrite (moved_source_gone g c d) by done.
      rewrite (moved_target g c d _ nc) by done.
      rewrite !moved_elsewhere by (by apply under_sibling).
      done.
  - intros H2. apply rename_if_exists_inv in H2
      as [(_ & Hc & ->)|[(_ & [nc Hc] & Hd & ->)|([k Hk] & _)]]; [| |done];
      simpl in *.
    + rewrite Ha.
      rewrite (moved_source_gone g a b) by done.
      rewrite (moved_target g a b _ na) by done.
      rewrite moved_elsewhere in Hc by (by apply under_sibling).
      rewrite Hc.
      rewrite !moved_elsewhere by (by apply under_sibling).
      done.
    + rewrite Ha.
      rewrite (moved_source_gone g c d) by done.
      rewrite (moved_target g c d _ nc) by done.
      rewrite !(moved_elsewhere (g // c) (g // d)) by (by apply under_sibling).
      rewrite (moved_source_gone g a b) by done.
      rewrite (moved_target g a b _ na) by done.
      rewrite moved_elsewhere in Hc by (by apply under_sibling).
      by rewrite Hc.
Qed.

(** With both source names absent nothing is called and nothing
    changes. *)
Lemma rename_pair_skip w :
  fs w !! (g // a) = None → fs w !! (g // c) = None →
  rename_pair g a b c d line1 line2 w = (Ok tt, w).
Proof.
  intros Ha Hc.
  unfold rename_pair, rename_if_exists, mbind, M_bind, gets, path_exists.
  rewrite Ha. simpl. by rewrite Hc.
Qed.

Lemma rename_pair_twice w w1 :
  rename_pair g a b c d line1 line2 w = (Ok tt, w1) →
  rename_pair g a b c d line1 line2 w1 = (Ok tt, w1).
Proof.
  intros (Ha & Hc & _)%rename_pair_Ok. by apply rename_pair_skip.
Qed.

(** When one of the two renames fails, either nothing was renamed, or
    the first entry was renamed and its line logged before the second
    rename failed. *)
Lemma rename_pair_Raise w e w1 :
  rename_pair g a b c d line1 line2 w = (Raise e, w1) →
  dialogs w1 = dialogs w
  ∧ ((fs w1 = fs w ∧ ui_log w1 = ui_log w)
     ∨ (is_Some (fs w !! (g // a))
        ∧ fs w1 = moved (g // a) (g // b) (fs w)
        ∧ ui_log w1 = ui_log w ++ [(line1, false)])).
Proof.
  unfold rename_pair, mbind, M_bind.
  destruct (rename_if_exists (g // a) (g // b) line1 w) as [r1 w'] eqn:H1.
  apply rename_if_exists_inv in H1
    as [(-> & Ha & ->)|[(-> & Ha & Hb & ->)|([k ->] & _ & ->)]].
  - intros H2. apply rename_if_exists_inv in H2
      as [([=] & _)|[([=] & _)|(_ & _ & ->)]].
    split; [done|]. by left.
  - intros H2. apply rename_if_exists_inv in H2
      as [([=] & _)|[([=] & _)|(_ & _ & ->)]].
    split; [done|]. by right.
  - intros [= <- <-]. split; [done|]. by left.
Qed.
End two_renames.

Lemma fix_renames_pair g :
  fix_renames g =
    rename_pair g "mywintercar.exe" "mysummercar.exe"
                  "mywintercar_Data" "mysummercar_Data"
                  "Renamed mywintercar.exe -> mysummercar.exe"
                  "Renamed mywintercar_Data -> mysummercar_Data".
Proof. reflexivity. Qed.

Lemma revert_renames_pair g :
  revert_renames g =
    rename_pair g "mysummercar.exe" "mywintercar.exe"
                  "mysummercar_Data" "mywintercar_Data"
                  "Renamed mysummmercar.exe -> mywintercar.exe"
                  "Renamed mysummmercar_Data -> mywintercar_Data".
Proof. reflexivity. Qed.

(** The [try] statement answers [True] exactly when its body went
    through. *)
Lemma fix_transform_true g w w1 :
  fix_transform g w = (Ok true, w1) ↔ fix_renames g w = (Ok tt, w1).
Proof.
  unfold fix_transform, try_except, mbind, M_bind, mret, M_ret.
  destruct (fix_renames g w) as [[[]|e] w'].
  - split; by intros [= <-].
  - unfold log_msg, message_box, write_log_line, modify, mbind, M_bind. simpl.
    split; by intros [=].
Qed.

Lemma revert_transform_true g w w1 :
  revert_transform g w = (Ok true, w1) ↔ revert_renames g w = (Ok tt, w1).
Proof.
  unfold revert_transform, try_except, mbind, M_bind, mret, M_ret.
  destruct (revert_renames g w) as [[[]|e] w'].
  - split; by intros [= <-].
  - unfold log_msg, message_box, write_log_line, modify, mbind, M_bind. simpl.
    split; by intros [=].
Qed.




(** C7.  On a primary-named installation (both primary markers there,
    both alternate markers absent), a fix followed at once by a revert,
    both going through, gives the primary markers back, with the very
    entries they held, and leaves no alternate marker. *)
Theorem fix_then_revert_restores_markers (g : path) (w w1 w2 : world)
    (exe data : node) :
  fs w !! (g // "mywintercar.exe") = Some exe →
  fs w !! (g // "mywintercar_Data") = Some data →
  fs w !! (g // "mysummercar.exe") = None →
  fs w !! (g // "mysummercar_Data") = None →
  fix_transform g w = (Ok true, w1) →
  revert_transform g w1 = (Ok true, w2) →
  fs w2 !! (g // "mywintercar.exe") = Some exe
  ∧ fs w2 !! (g // "mywintercar_Data") = Some data
  ∧ fs w2 !! (g // "mysummercar.exe") = None
  ∧ fs w2 !! (g // "mysummercar_Data") = None.
Proof.
  intros He Hd He' Hd' Hfix Hrev.
  apply fix_transform_true in Hfix. rewrite fix_renames_pair in Hfix.
  apply rename_pair_Ok in Hfix as (He1 & Hd1 & He1' & Hd1'); [|done..].
  apply revert_transform_true in Hrev. rewrite revert_renames_pair in Hrev.
  apply rename_pair_Ok in Hrev as (He2' & Hd2' & He2 & Hd2); [|done..].
  rewrite He2, Hd2, He2', Hd2', He1', Hd1', He, Hd. done.
Qed.

Lemma fix_then_revert_restores_markers_witness :
  fs reverted_world !! (game // "mywintercar.exe") = Some (File "MZ")
  ∧ fs reverted_world !! (game // "mywintercar_Data") = Some Dir
  ∧ fs reverted_world !! (game // "mysummercar.exe") = None
  ∧ fs reverted_world !! (game // "mysummercar_Data") = None.
Proof.
  apply (fix_then_revert_restores_markers game primary_world fixed_world
           reverted_world).
  - vm_compute. reflexivity.
  - vm_compute. reflexivity.
  - vm_compute. reflexivity.
  - vm_compute. reflexivity.
  - apply (run_eq (fix_transform game) primary_world (Ok true)).
    vm_compute. reflexivity.
  - apply (run_eq (revert_transform game) fixed_world (Ok true)).
    vm_compute. reflexivity.
Defined.

(** C8.  A fix that went through has removed both primary names, so a
    second fix right after it finds nothing to rename: it goes through
    and hands back the very same world, with no call added to [calls]
    (zero renames), no line logged and the store untouched.  The same
    holds for two reverts. *)
Theorem transform_twice_is_noop (g : path) (w w1 : world) :
  (fix_transform g w = (Ok true, w1) → fix_transform g w1 = (Ok true, w1))
  ∧ (revert_transform g w = (Ok true, w1) → revert_transform g w1 = (Ok true, w1)).
Proof.
  split.
  - rewrite !fix_transform_true, fix_renames_pair. by apply rename_pair_twice.
  - rewrite !revert_transform_true, revert_renames_pair. by apply rename_pair_twice.
Qed.

Lemma transform_twice_is_noop_witness :
  fix_transform game fixed_world = (Ok true, fixed_world)
  ∧ revert_transform game reverted_world = (Ok true, reverted_world).
Proof.
  split.
  - apply (transform_twice_is_noop game primary_world fixed_world).
    apply (run_eq (fix_transform game) primary_world (Ok true)).
    vm_compute. reflexivity.
  - apply (transform_twice_is_noop game fixed_world reverted_world).
    apply (run_eq (revert_transform game) fixed_world (Ok true)).
    vm_compute. reflexivity.
Defined.

(** C6, as the code has it.  A fix whose renames failed reports one
    condition whatever happened before the failure: the box "Rename
    failed" and the error line "Rename error", each with the text of the
    exception and nothing else.  Whether the first rename had succeeded
    shows only in the store and in the progress line "Renamed
    mywintercar.exe -> mysummercar.exe" logged before the error: that
    line is there exactly when the executable was renamed. *)
Theorem failed_fix_reports_one_condition (g : path) (w w' : world) :
  fix_transform g w = (Ok false, w') →
  ∃ e : exn,
    dialogs w' = dialogs w
                 ++ [Critical "Error" ("Rename failed:" +:+ NL +:+ show_exn e)]
    ∧ ((fs w' = fs w
        ∧ ui_log w' = ui_log w ++ [("Rename error: " +:+ show_exn e, true)])
       ∨ (is_Some (fs w !! (g // "mywintercar.exe"))
          ∧ fs w' = moved (g // "mywintercar.exe") (g // "mysummercar.exe") (fs w)
          ∧ ui_log w' = ui_log w
                        ++ [("Renamed mywintercar.exe -> mysummercar.exe", false);
                            ("Rename error: " +:+ show_exn e, true)])).
Proof.
  unfold fix_transform, try_except, mbind, M_bind, mret, M_ret.
  destruct (fix_renames g w) as [[[]|e] w1] eqn:Hbody; [by intros [=]|].
  rewrite fix_renames_pair in Hbody.
  apply rename_pair_Raise in Hbody as [Hdialogs Hcases].
  unfold log_msg, message_box, write_log_line, modify, mbind, M_bind. simpl.
  intros [= <-]. exists e. simpl. rewrite Hdialogs. split; [done|].
  destruct Hcases as [[-> ->]|(Hexe & -> & ->)].
  - by left.
  - right. by rewrite <- app_assoc.
Qed.

Lemma failed_fix_reports_one_condition_witness :
  ∃ e : exn,
    dialogs (fix_transform game half_done_world).2
    = dialogs half_done_world
      ++ [Critical "Error" ("Rename failed:" +:+ NL +:+ show_exn e)]
    ∧ ((fs (fix_transform game half_done_world).2 = fs half_done_world
        ∧ ui_log (fix_transform game half_done_world).2
          = ui_log half_done_world ++ [("Rename error: " +:+ show_exn e, true)])
       ∨ (is_Some (fs half_done_world !! (game // "mywintercar.exe"))
          ∧ fs (fix_transform game half_done_world).2
            = moved (game // "mywintercar.exe") (game // "mysummercar.exe")
                    (fs half_done_world)
          ∧ ui_log (fix_transform game half_done_world).2
            = ui_log half_done_world
              ++ [("Renamed mywintercar.exe -> mysummercar.exe", false);
                  ("Rename error: " +:+ show_exn e, true)])).
Proof.
  apply (failed_fix_reports_one_condition game half_done_world).
  apply (run_eq (fix_transform game) half_done_world (Ok false)).
  vm_compute. reflexivity.
Defined.


(** C6, as the claim states it: a failure after the first rename would
    be reported differently from a failure with nothing renamed.  The
    two example installations refute it: in both the rename of the data
    folder fails, in the first after the executable was renamed, in the
    second with nothing renamed, and the reports are the same. *)
Theorem partial_failure_is_reported_like_any_failure :
  ¬ (∀ (g : path) (wa wa' wb wb' : world),
       fix_transform g wa = (Ok false, wa') →
       fix_transform g wb = (Ok false, wb') →
       first_renamed g wa wa' →
       fs wb' = fs wb →
       failure_report wa wa' ≠ failure_report wb wb').
Proof.
  intros Hclaim.
  apply (Hclaim game
           half_done_world (fix_transform game half_done_world).2
           blocked_world (fix_transform game blocked_world).2).
  - apply (run_eq (fix_transform game) half_done_world (Ok false)).
    vm_compute. reflexivity.
  - apply (run_eq (fix_transform game) blocked_world (Ok false)).
    vm_compute. reflexivity.
  - unfold first_renamed. repeat split; vm_compute; eauto.
  - decide_by_computing.
  - vm_compute. reflexivity.
Qed.

(** ** Directories on the way *)

Lemma elem_of_prefixes (q p : path) :
  q ∈ prefixes p ↔ q ≠ [] ∧ ∃ rel, p = q ++ rel.
Proof.
  unfold prefixes. rewrite list_elem_of_fmap. split.
  - intros (n & -> & Hn). apply elem_of_seq in Hn. split.
    + destruct p; simpl in *; [lia|done].
    + exists (drop (S n) p). by rewrite take_drop.
  - intros (Hq & rel & ->). exists (pred (length q)). split.
    + destruct q as [|x q]; [done|]. simpl.
      by rewrite take_app_length.
    + apply elem_of_seq. rewrite length_app.
      destruct q; [done|]. simpl. lia.
Qed.

Lemma prefixes_not_longer (p rel : path) : rel ≠ [] → p ++ rel ∉ prefixes p.
Proof.
  intros Hrel (_ & rel' & Heq)%elem_of_prefixes.
  rewrite <- app_assoc in Heq. rewrite <- (app_nil_r p) in Heq at 1.
  apply app_inv_head in Heq. symmetry in Heq.
  apply app_eq_nil in Heq. by destruct Heq.
Qed.

Lemma elem_of_prefixes_snoc (q p : path) (x : string) :
  q ∈ prefixes (p // x) ↔ q ∈ prefixes p ∨ q = p // x.
Proof.
  rewrite !elem_of_prefixes. unfold child. split.
  - intros (Hq & rel & Heq).
    destruct rel as [|y rel _] using rev_ind.
    + right. by rewrite app_nil_r in Heq.
    + left. split; [done|]. exists rel.
      rewrite app_assoc in Heq. by apply app_inj_tail in Heq as [-> _].
  - intros [(Hq & rel & ->)| ->].
    + split; [done|]. exists (rel ++ [x]). by rewrite app_assoc.
    + split; [by destruct p|]. exists []. by rewrite app_nil_r.
Qed.

Lemma lookup_mkdir_one (q : path) (m : gmap path node) (p : path) :
  match m !! q with None => <[q := Dir]> m | Some _ => m end !! p =
    match m !! p with
    | Some n => Some n
    | None => if bool_decide (p = q) then Some Dir else None
    end.
Proof.
  destruct (m !! q) as [n|] eqn:Hq; destruct (decide (p = q)) as [->|Hne].
  - by rewrite Hq.
  - destruct (m !! p); [done|]. by rewrite bool_decide_eq_false_2.
  - rewrite lookup_insert_eq, Hq. by rewrite bool_decide_eq_true_2.
  - rewrite lookup_insert_ne by done.
    destruct (m !! p); [done|]. by rewrite bool_decide_eq_false_2.
Qed.

Lemma lookup_mkdir_all (l : list path) (m : gmap path node) (p : path) :
  mkdir_all l m !! p =
    match m !! p with
    | Some n => Some n
    | None => if bool_decide (p ∈ l) then Some Dir else None
    end.
Proof.
  induction l as [|q l IH]; simpl.
  - by destruct (m !! p).
  - rewrite lookup_mkdir_one, IH.
    destruct (m !! p); [done|].
    repeat case_bool_decide; try done; exfalso;
      match goal with H : context [_ ∈ _ :: _] |- _ => rewrite elem_of_cons in H end;
      tauto.
Qed.

Lemma mkdir_all_keeps (l : list path) (m : gmap path node) (p : path) (n : node) :
  m !! p = Some n → mkdir_all l m !! p = Some n.
Proof. intros Hp. by rewrite lookup_mkdir_all, Hp. Qed.

(** Below an existing working directory every directory on the way to
    it exists. *)
Lemma wf_prefixes_exist (m : gmap path node) (p q : path) :
  wf_fs m → is_Some (m !! p) → q ∈ prefixes p → is_Some (m !! q).
Proof.
  intros Hwf Hp (Hq & rel & ->)%elem_of_prefixes.
  destruct rel as [|x rel].
  - by rewrite app_nil_r in Hp.
  - rewrite (wf_fs_above m q (x :: rel)); by eauto.
Qed.

Lemma parent_in_prefixes (p q : path) :
  q ∈ prefixes p → parent q = [] ∨ parent q ∈ prefixes p.
Proof.
  intros (Hq & rel & ->)%elem_of_prefixes.
  destruct q as [|x q _] using rev_ind; [done|].
  unfold parent. rewrite removelast_last.
  destruct q as [|y q]; [by left|]. right.
  apply elem_of_prefixes. split; [done|].
  exists ([x] ++ rel). by rewrite <- !app_assoc.
Qed.

(** Creating the directories on the way keeps the store a forest,
    when no file is on the way. *)
Lemma wf_fs_mkdir_all (m : gmap path node) (p : path) :
  wf_fs m →
  existsb (λ q, is_file (m !! q)) (prefixes p) = false →
  wf_fs (mkdir_all (prefixes p) m).
Proof.
  intros Hwf Hfiles q n Hq. simpl.
  rewrite lookup_mkdir_all in Hq.
  assert (∀ q', q' ∈ prefixes p → is_Some (m !! q') → m !! q' = Some Dir) as Hdirs.
  { intros q' Hin [[data|] Hq']; [|done].
    assert (existsb (λ q, is_file (m !! q)) (prefixes p) = true) as Htrue; [|congruence].
    apply existsb_exists. exists q'. split; [by apply list_elem_of_In|].
    by rewrite Hq'. }
  destruct (m !! q) as [n'|] eqn:Hmq.
  - destruct (Hwf _ _ Hmq) as [Hroot|Hparent]; [by left|right].
    by apply mkdir_all_keeps.
  - case_bool_decide as Hin; [|done].
    destruct (parent_in_prefixes _ _ Hin) as [Hroot|Hpar]; [by left|right].
    rewrite lookup_mkdir_all.
    destruct (m !! parent q) as [n'|] eqn:Hpq.
    + rewrite <- Hpq. apply Hdirs; [done|]. by rewrite Hpq.
    + by rewrite bool_decide_eq_true_2.
Qed.

Lemma os_makedirs_inv p exist_ok w r w' :
  os_makedirs p exist_ok w = (r, w') →
  (w' = add_call (Makedirs p) w ∧ (r = Ok tt → fs w !! p = Some Dir))
  ∨ (r = Ok tt
     ∧ fs w !! p = None
     ∧ existsb (λ q, is_file (fs w !! q)) (prefixes p) = false
     ∧ w' = set_fs (mkdir_all (prefixes p) (fs w)) (add_call (Makedirs p) w)).
Proof.
  unfold os_makedirs. simpl.
  destruct (fs w !! p) as [[data|]|] eqn:Hp.
  - intros [= <- <-]. by left.
  - destruct exist_ok; intros [= <- <-]; by left.
  - destruct (existsb _ _) eqn:Hfiles; [intros [= <- <-]; by left|].
    destruct (io_fail w _); intros [= <- <-]; [by left|].
    by right.
Qed.

(** ** copytree *)

Lemma above_snoc (rel : path) (x : string) : above (rel ++ [x]) = above rel ++ [rel].
Proof.
  unfold above. rewrite length_app. simpl.
  rewrite Nat.add_1_r, seq_S, fmap_app. simpl.
  rewrite take_app_length. f_equal.
  apply list_fmap_ext. intros i n Hn.
  apply take_app_le. apply list_elem_of_lookup_2, elem_of_seq in Hn. lia.
Qed.

Lemma subtree_parent (m : gmap path node) (src rel : path) (x : string) :
  wf_fs m → is_Some (m !! src) →
  is_Some (subtree m src !! (rel ++ [x])) → is_Some (subtree m src !! rel).
Proof.
  intros Hwf Hsrc. rewrite !lookup_subtree, app_assoc. intros Hx.
  destruct (decide (src ++ rel = [])) as [Hnil|Hne].
  - apply app_eq_nil in Hnil as [-> ->]. by rewrite app_nil_r.
  - rewrite (wf_fs_parent m (src ++ rel) x); by eauto.
Qed.

(** When [copytree] collected no failure, every entry of the source
    tree was reached and copied. *)
Lemma copy_nothing_failed (fail : oscall → bool) (src dst : path)
    (t : gmap path node) :
  (∀ rel x, is_Some (t !! (rel ++ [x])) → is_Some (t !! rel)) →
  filter (λ kv, copy_reached fail src dst t kv.1 = true
                ∧ copy_step_ok fail src dst t kv.1 = false) t = ∅ →
  ∀ rel, is_Some (t !! rel) → copy_done fail src dst t rel = true.
Proof.
  intros Hclosed Hfailed.
  assert (∀ rel, is_Some (t !! rel) →
                 copy_reached fail src dst t rel = true →
                 copy_step_ok fail src dst t rel = true) as Hstep.
  { intros rel [n Hn] Hreach.
    destruct (copy_step_ok fail src dst t rel) eqn:Hok; [done|].
    assert (filter (λ kv, copy_reached fail src dst t kv.1 = true
                          ∧ copy_step_ok fail src dst t kv.1 = false) t
              !! rel = Some n) as Hin
      by by apply map_lookup_filter_Some.
    by rewrite Hfailed, lookup_empty in Hin. }
  intros rel. induction rel as [|x rel IH] using rev_ind; intros Hrel.
  - unfold copy_done. rewrite (Hstep [] Hrel); by done.
  - specialize (IH (Hclosed _ _ Hrel)). unfold copy_done in *.
    apply andb_true_iff in IH as [Hreach Hok].
    assert (copy_reached fail src dst t (rel ++ [x]) = true) as Hreach'.
    { unfold copy_reached in *. rewrite above_snoc, forallb_app. simpl.
      by rewrite Hreach, Hok. }
    by rewrite Hreach', (Hstep _ Hrel Hreach').
Qed.

Lemma shutil_copytree_inv src dst w r w' :
  shutil_copytree src dst w = (r, w') →
  ((∃ e, r = Raise e) ∧ w' = add_call (CopyTree src dst) w)
  ∨ (fs w !! src = Some Dir
     ∧ fs w !! dst = None
     ∧ existsb (λ q, is_file (fs w !! q)) (prefixes dst) = false
     ∧ w' = set_fs
              (graft dst
                 (filter (λ kv, copy_done (io_fail w) src dst
                                  (subtree (fs w) src) kv.1 = true)
                         (subtree (fs w) src))
                 (mkdir_all (prefixes dst) (fs w)))
              (add_call (CopyTree src dst) w)
     ∧ (∀ d, r = Ok d →
          d = dst
          ∧ under src dst = None
          ∧ filter (λ kv, copy_reached (io_fail w) src dst
                            (subtree (fs w) src) kv.1 = true
                          ∧ copy_step_ok (io_fail w) src dst
                              (subtree (fs w) src) kv.1 = false)
                   (subtree (fs w) src) = ∅)).
Proof.
  unfold shutil_copytree. simpl.
  destruct (fs w !! src) as [[data|]|] eqn:Hsrc;
    [intros [= <- <-]; left; eauto| |intros [= <- <-]; left; eauto].
  destruct (io_fail w (Scandir src)); [intros [= <- <-]; left; eauto|].
  destruct (path_exists (fs w) dst) eqn:Hdst; [intros [= <- <-]; left; eauto|].
  apply path_exists_false in Hdst.
  destruct (existsb _ _) eqn:Hfiles; [intros [= <- <-]; left; eauto|].
  destruct (io_fail w (Makedirs dst)); [intros [= <- <-]; left; eauto|].
  intros Hrun. right. do 3 (split; [done|]).
  case_bool_decide as Hinside.
  - injection Hrun as <- <-. split; [done|]. by intros d [=].
  - case_bool_decide as Hfailed; injection Hrun as <- <-.
    + split; [done|]. intros d [= <-]. split; [done|]. split; [|done].
      destruct (under src dst) eqn:Hu; [|done]. by destruct Hinside.
    + split; [done|]. by intros d [=].
Qed.

(** A [copytree] that returns has mirrored the whole source tree:
    below [dst] the store holds what it held below [src], nothing more
    and nothing less, and no step of the copy had failed. *)
Lemma shutil_copytree_Ok src dst w d w' :
  wf_fs (fs w) → dst ≠ [] →
  shutil_copytree src dst w = (Ok d, w') →
  d = dst
  ∧ under src dst = None
  ∧ fs w !! src = Some Dir
  ∧ (∀ rel, fs w' !! (dst ++ rel) = fs w !! (src ++ rel))
  ∧ (∀ rel, is_Some (fs w !! (src ++ rel)) →
            copy_step_ok (io_fail w) src dst (subtree (fs w) src) rel = true).
Proof.
  intros Hwf Hdst Hrun.
  apply shutil_copytree_inv in Hrun
    as [[[e [=]] _]|(Hs & Hd & Hfiles & -> & Hok)].
  destruct (Hok d eq_refl) as (-> & Hinside & Hfailed).
  assert (∀ rel, is_Some (subtree (fs w) src !! rel) →
                 copy_done (io_fail w) src dst (subtree (fs w) src) rel = true)
    as Hdone.
  { apply copy_nothing_failed; [|done].
    intros rel x Hx. apply (subtree_parent _ _ _ x); by eauto. }
  do 3 (split; [done|]). split.
  - intros rel. simpl. rewrite lookup_graft, under_app.
    destruct (subtree (fs w) src !! rel) as [n|] eqn:Hrel.
    + rewrite lookup_subtree in Hrel. rewrite Hrel.
      erewrite map_lookup_filter_Some_2; [done| |].
      * by rewrite lookup_subtree.
      * simpl. apply Hdone. rewrite lookup_subtree. by eauto.
    + rewrite lookup_subtree in Hrel. rewrite Hrel.
      assert (filter (λ kv, copy_done (io_fail w) src dst
                              (subtree (fs w) src) kv.1 = true)
                     (subtree (fs w) src) !! rel = None) as ->.
      { apply map_lookup_filter_None. left. by rewrite lookup_subtree. }
      rewrite lookup_mkdir_all.
      destruct rel as [|x rel].
      { rewrite app_nil_r in Hrel. congruence. }
      assert (fs w !! (dst ++ x :: rel) = None) as ->.
      { destruct (fs w !! (dst ++ x :: rel)) eqn:Hbelow; [|done].
        rewrite (wf_fs_above (fs w) dst (x :: rel)) in Hd; by eauto. }
      rewrite bool_decide_eq_false_2; [done|].
      by apply prefixes_not_longer.
  - intros rel Hrel. rewrite <- lookup_subtree in Hrel.
    specialize (Hdone rel Hrel). unfold copy_done in Hdone.
    by apply andb_true_iff in Hdone as [_ ?].
Qed.

(** ** create_backup *)


Lemma os_makedirs_env p exist_ok w r w' :
  os_makedirs p exist_ok w = (r, w') →
  cwd w' = cwd w ∧ clock w' = clock w ∧ io_fail w' = io_fail w
  ∧ calls w' = calls w ++ [Makedirs p]
  ∧ dialogs w' = dialogs w ∧ ui_log w' = ui_log w ∧ logfile w' = logfile w.
Proof.
  intros [[-> _]|(_ & _ & _ & ->)]%os_makedirs_inv; done.
Qed.

Lemma shutil_copytree_env src dst w r w' :
  shutil_copytree src dst w = (r, w') →
  cwd w' = cwd w ∧ clock w' = clock w ∧ io_fail w' = io_fail w
  ∧ calls w' = calls w ++ [CopyTree src dst]
  ∧ dialogs w' = dialogs w ∧ ui_log w' = ui_log w ∧ logfile w' = logfile w.
Proof.
  intros [[_ ->]|(_ & _ & _ & -> & _)]%shutil_copytree_inv; done.
Qed.

(** The runs of [create_backup]: the folder is missing; the backup
    directory cannot be made; the copy fails; the copy succeeds. *)
Lemma create_backup_inv g w r w' :
  create_backup g w = (r, w') →
  let backups := resolve w BACKUP_DIR in
  let backup_folder := BACKUP_DIR // backup_name (clock w) in
  let line := "Creating backup at " +:+ show_path backup_folder in
  (fs w !! g = None ∧ r = Ok None ∧ w' = w)
  ∨ (is_Some (fs w !! g)
     ∧ ((∃ e w1,
           os_makedirs backups true w = (Raise e, w1)
           ∧ r = Ok None
           ∧ w' = add_logfile ("Backup error: " +:+ show_exn e) w1)
        ∨ (∃ e w1 w2,
             os_makedirs backups true w = (Ok tt, w1)
             ∧ shutil_copytree g (resolve w backup_folder) (add_logfile line w1)
               = (Raise e, w2)
             ∧ r = Ok None
             ∧ w' = add_logfile ("Backup error: " +:+ show_exn e) w2)
        ∨ (∃ d w1,
             os_makedirs backups true w = (Ok tt, w1)
             ∧ shutil_copytree g (resolve w backup_folder) (add_logfile line w1)
               = (Ok d, w')
             ∧ r = Ok (Some backup_folder)))).
Proof.
  unfold create_backup, try_except, mbind, M_bind, gets, mret, M_ret. simpl.
  destruct (path_exists (fs w) g) eqn:Hg; simpl.
  2: { intros [= <- <-]. left. by apply path_exists_false in Hg. }
  apply path_exists_true in Hg. intros Hrun. right. split; [done|].
  destruct (os_makedirs (resolve w BACKUP_DIR) true w) as [[[]|e] w1] eqn:Hmk.
  2: { injection Hrun as <- <-. left. eauto. }
  destruct (os_makedirs_env _ _ _ _ _ Hmk) as (Hcwd & Hclock & _).
  unfold write_log_line, modify, resolve in *. simpl in Hrun.
  rewrite Hcwd, Hclock in Hrun.
  destruct (shutil_copytree g _ _) as [[d|e] w2] eqn:Hcp.
  - injection Hrun as <- <-. right; right. eauto.
  - injection Hrun as <- <-. right; left. eauto 10.
Qed.

Lemma marker_not_backups name : name ∈ markers → name ≠ "Backups".
Proof. unfold markers. rewrite !elem_of_cons. intros [->|[->|[->|[->|[]%elem_of_nil]]]]; done. Qed.

Lemma marker_not_backup_name name ts : name ∈ markers → name ≠ backup_name ts.
Proof.
  unfold markers, backup_name. rewrite !elem_of_cons.
  intros [->|[->|[->|[->|[]%elem_of_nil]]]]; done.
Qed.

(** A marker of an existing folder is not inside a directory that does
    not exist, nor that directory itself, when the names differ. *)
Lemma marker_not_under (m : gmap path node) (g dst : path) (name : string) :
  wf_fs m → dst ≠ [] → is_Some (m !! g) → m !! dst = None →
  name ≠ List.last dst "" →
  under dst (g // name) = None.
Proof.
  intros Hwf Hdst Hg Hnone Hname.
  destruct (under dst (g // name)) as [rel|] eqn:Hu; [|done].
  apply under_Some in Hu. unfold child in Hu.
  destruct rel as [|x rel _] using rev_ind.
  - rewrite app_nil_r in Hu. subst dst. by rewrite last_last in Hname.
  - rewrite app_assoc in Hu. apply app_inj_tail in Hu as [-> _].
    destruct rel as [|y rel].
    + rewrite app_nil_r in Hg. rewrite Hnone in Hg. by destruct Hg.
    + rewrite (wf_fs_above m dst (y :: rel)) in Hnone; done.
Qed.

(** Making the directories on the way to [p // x] leaves the markers
    of [g] alone, when the directories on the way to [p] exist and [x]
    is not a marker name. *)
Lemma mkdir_all_keeps_marker (m : gmap path node) (g p : path) (x name : string) :
  (∀ q, q ∈ prefixes p → is_Some (m !! q)) →
  name ≠ x →
  mkdir_all (prefixes (p // x)) m !! (g // name) = m !! (g // name).
Proof.
  intros Hp Hname. rewrite lookup_mkdir_all.
  destruct (m !! (g // name)) as [n|] eqn:Hq; [done|].
  rewrite bool_decide_eq_false_2; [done|].
  intros [Hin|Heq]%elem_of_prefixes_snoc.
  - apply Hp in Hin. rewrite Hq in Hin. by destruct Hin.
  - unfold child in Heq. by apply app_inj_tail in Heq as [_ ->].
Qed.

(** What [create_backup] leaves untouched, whatever its result: the
    marker entries of the folder it is given; and what it calls: no
    rename. *)
Lemma create_backup_frame g w r w' :
  wf_world w →
  create_backup g w = (r, w') →
  (∀ name, name ∈ markers → fs w' !! (g // name) = fs w !! (g // name))
  ∧ (∃ l, calls w' = calls w ++ l ∧ Forall not_rename l)
  ∧ dialogs w' = dialogs w
  ∧ ui_log w' = ui_log w.
Proof.
  intros [Hwf Hcwd] Hrun.
  apply create_backup_inv in Hrun as [(_ & _ & ->)|[Hg Hrun]].
  { split; [done|]. split; [|done]. exists []. by rewrite app_nil_r. }
  assert (∀ q, q ∈ prefixes (cwd w) → is_Some (fs w !! q)) as Hway.
  { intros q Hq. apply (wf_prefixes_exist (fs w) (cwd w)); by eauto. }
  (* the step that makes the backup directory *)
  assert (∀ r1 w1,
            os_makedirs (resolve w BACKUP_DIR) true w = (r1, w1) →
            (∀ name, name ∈ markers → fs w1 !! (g // name) = fs w !! (g // name))
            ∧ (r1 = Ok tt →
               wf_fs (fs w1) ∧ is_Some (fs w1 !! g)
               ∧ ∀ q, q ∈ prefixes (resolve w BACKUP_DIR) → is_Some (fs w1 !! q)))
    as Hmkdir.
  { intros r1 w1 [[-> Hdir]|(-> & Hnone & Hfiles & ->)]%os_makedirs_inv; simpl.
    - split; [done|]. intros Hok. do 2 (split; [done|]).
      intros q [Hq| ->]%elem_of_prefixes_snoc; [by apply Hway|].
      exists Dir. apply (Hdir Hok).
    - split.
      + intros name Hname. apply mkdir_all_keeps_marker; [done|].
        by apply marker_not_backups.
      + intros _. split; [by apply wf_fs_mkdir_all|]. split.
        * destruct Hg as [n Hg]. rewrite (mkdir_all_keeps _ _ _ n); by eauto.
        * intros q Hq. rewrite lookup_mkdir_all.
          destruct (fs w !! q); [by eauto|].
          rewrite bool_decide_eq_true_2; by eauto. }
  (* the copy *)
  assert (∀ w1 r2 w2,
            wf_fs (fs w1) → is_Some (fs w1 !! g) →
            (∀ q, q ∈ prefixes (resolve w BACKUP_DIR) → is_Some (fs w1 !! q)) →
            shutil_copytree g (resolve w (BACKUP_DIR // backup_name (clock w))) w1
            = (r2, w2) →
            ∀ name, name ∈ markers → fs w2 !! (g // name) = fs w1 !! (g // name))
    as Hcopy.
  { intros w1 r2 w2 Hwf1 Hg1 Hway1
      [[_ ->]|(_ & Hdst & _ & -> & _)]%shutil_copytree_inv name Hname;
      [done|]. simpl.
    assert (resolve w (BACKUP_DIR // backup_name (clock w))
            = resolve w BACKUP_DIR // backup_name (clock w)) as Hres
      by (unfold resolve, child; by rewrite app_assoc).
    rewrite Hres in *.
    rewrite lookup_graft.
    rewrite (marker_not_under (fs w1) g); try done.
    - apply mkdir_all_keeps_marker; [done|]. by apply marker_not_backup_name.
    - unfold child. by destruct (resolve w BACKUP_DIR).
    - unfold child. rewrite last_last. by apply marker_not_backup_name. }
  destruct Hrun as [(e & w1 & Hmk & -> & ->)
                   |[(e & w1 & w2 & Hmk & Hcp & -> & ->)
                    |(d & w1 & Hmk & Hcp & ->)]].
  - destruct (Hmkdir _ _ Hmk) as [Hmarkers _].
    destruct (os_makedirs_env _ _ _ _ _ Hmk) as (_ & _ & _ & Hcalls & Hd & Hu & _).
    simpl. split; [done|]. split; [|done].
    exists [Makedirs (resolve w BACKUP_DIR)]. split; [done|].
    by repeat constructor.
  - destruct (Hmkdir _ _ Hmk) as [Hmarkers Hok].
    destruct (Hok eq_refl) as (Hwf1 & Hg1 & Hway1).
    destruct (os_makedirs_env _ _ _ _ _ Hmk) as (_ & _ & _ & Hcalls & Hd & Hu & _).
    destruct (shutil_copytree_env _ _ _ _ _ Hcp) as (_ & _ & _ & Hcalls2 & Hd2 & Hu2 & _).
    simpl in *. split; [|split].
    + intros name Hname.
      rewrite (Hcopy (add_logfile _ w1) _ _ Hwf1 Hg1 Hway1 Hcp name Hname).
      simpl. by apply Hmarkers.
    + eexists. rewrite Hcalls2, Hcalls, <- app_assoc. split; [done|].
      by repeat constructor.
    + by rewrite Hd2, Hu2.
  - destruct (Hmkdir _ _ Hmk) as [Hmarkers Hok].
    destruct (Hok eq_refl) as (Hwf1 & Hg1 & Hway1).
    destruct (os_makedirs_env _ _ _ _ _ Hmk) as (_ & _ & _ & Hcalls & Hd & Hu & _).
    destruct (shutil_copytree_env _ _ _ _ _ Hcp) as (_ & _ & _ & Hcalls2 & Hd2 & Hu2 & _).
    simpl in *. split; [|split].
    + intros name Hname.
      rewrite (Hcopy (add_logfile _ w1) _ _ Hwf1 Hg1 Hway1 Hcp name Hname).
      simpl. by apply Hmarkers.
    + eexists. rewrite Hcalls2, Hcalls, <- app_assoc. split; [done|].
      by repeat constructor.
    + by rewrite Hd2, Hu2.
Qed.

(** C1.  When [create_backup] returns no record in a fix, the handler
    leaves by the "Backup failed" return: no rename was called (every
    call added to [calls] is a directory creation or the copy), and the
    four marker entries of the folder hold exactly what they held when
    the fix was started. *)
Theorem failed_backup_stops_fix (w : world) (g : path) (w1 : world) :
  wf_world w →
  game_path w = Some g →
  looks_like_mwc_folder (fs w) g = true →
  create_backup g (backup_point w) = (Ok None, w1) →
  ∃ w',
    on_fix_clicked Yes w = (Ok BackupFailed, w')
    ∧ (∀ name, name ∈ markers → fs w' !! (g // name) = fs w !! (g // name))
    ∧ (∃ l, calls w' = calls w ++ l ∧ Forall not_rename l).
Proof.
  intros Hwf Hselected Hvalid Hbackup.
  destruct (create_backup_frame g (backup_point w) (Ok None) w1)
    as (Hmarkers & Hcalls & _); [done|done|].
  unfold on_fix_clicked, mbind, M_bind, gets.
  rewrite Hselected, Hvalid. simpl.
  unfold backup_point in Hbackup. simpl in Hbackup. rewrite Hbackup.
  eexists. split; [reflexivity|]. simpl. split; [exact Hmarkers|exact Hcalls].
Qed.

Lemma failed_backup_stops_fix_witness :
  ∃ w',
    on_fix_clicked Yes faulty_world = (Ok BackupFailed, w')
    ∧ (∀ name, name ∈ markers →
               fs w' !! (game // name) = fs faulty_world !! (game // name))
    ∧ (∃ l, calls w' = calls faulty_world ++ l ∧ Forall not_rename l).
Proof.
  apply (failed_backup_stops_fix faulty_world game
           (create_backup game (backup_point faulty_world)).2).
  - decide_by_computing.
  - reflexivity.
  - vm_compute. reflexivity.
  - apply (run_eq (create_backup game) (backup_point faulty_world) (Ok None)).
    vm_compute. reflexivity.
Defined.

(** C2.  [create_backup] never raises, and it hands back a record only
    for a complete copy: the record is [Backups/MWC_Backup_<ts>], the
    source is a directory, below the destination the store holds exactly
    what the source tree held (every entry, nothing else), and no
    elementary call of the copy had failed.  It hands back no record
    when the source root does not exist, and none when the call for any
    entry of the source tree fails. *)
Theorem create_backup_all_or_nothing (g : path) (w : world)
    (r : res (option path)) (w' : world) :
  wf_world w →
  create_backup g w = (r, w') →
  ∃ record : option path,
    r = Ok record
    ∧ (∀ b, record = Some b →
         b = BACKUP_DIR // backup_name (clock w)
         ∧ fs w !! g = Some Dir
         ∧ (∀ rel, fs w' !! (resolve w b ++ rel) = fs w !! (g ++ rel))
         ∧ (∀ rel n c,
              fs w !! (g ++ rel) = Some n →
              c ∈ copy_calls g (resolve w b) rel n →
              io_fail w c = false))
    ∧ (fs w !! g = None → record = None)
    ∧ (∀ rel n c,
         fs w !! (g ++ rel) = Some n →
         c ∈ copy_calls g (resolve w (BACKUP_DIR // backup_name (clock w))) rel n →
         io_fail w c = true →
         record = None).
Proof.
  intros [Hwf Hcwd] Hrun.
  apply create_backup_inv in Hrun
    as [(Hg & -> & ->)
       |[Hg [(e & w1 & Hmk & -> & ->)
            |[(e & w1 & w2 & Hmk & Hcp & -> & ->)
             |(d & w1 & Hmk & Hcp & ->)]]]];
    [by exists None..|].
  set (dst := resolve w (BACKUP_DIR // backup_name (clock w))) in *.
  assert (dst = resolve w BACKUP_DIR // backup_name (clock w)) as Hdst
    by (unfold dst, resolve, child; by rewrite app_assoc).
  assert (dst ≠ []) as Hdst_ne
    by (rewrite Hdst; unfold child; by destruct (resolve w BACKUP_DIR)).
  destruct (os_makedirs_env _ _ _ _ _ Hmk) as (_ & _ & Hfail & _).
  assert (wf_fs (fs w1)
          ∧ ∀ p, fs w1 !! p = fs w !! p
                 ∨ (fs w !! p = None ∧ p = resolve w BACKUP_DIR))
    as [Hwf1 Hsame].
  { apply os_makedirs_inv in Hmk as [[-> _]|(_ & Hnone & Hfiles & ->)]; simpl.
    - split; [done|]. by left.
    - split; [by apply wf_fs_mkdir_all|]. intros p. rewrite lookup_mkdir_all.
      destruct (fs w !! p) as [n|] eqn:Hp; [by left|].
      case_bool_decide as Hin; [|by left].
      apply elem_of_prefixes_snoc in Hin as [Hin|Hin]; [|by right].
      apply (wf_prefixes_exist (fs w) (cwd w)) in Hin; [|done|by eauto].
      rewrite Hp in Hin. by destruct Hin. }
  apply (shutil_copytree_Ok _ _ (add_logfile _ w1)) in Hcp
    as (-> & Houtside & Hdir & Hmirror & Hsteps); [|done..].
  simpl in *.
  assert (∀ rel, fs w1 !! (g ++ rel) = fs w !! (g ++ rel)) as Hsource.
  { intros rel. destruct (Hsame (g ++ rel)) as [Heq|[_ Heq]]; [done|].
    rewrite Hdst, <- Heq in Houtside. unfold child in Houtside.
    by rewrite <- app_assoc, under_app in Houtside. }
  assert (∀ rel n c,
            fs w !! (g ++ rel) = Some n →
            c ∈ copy_calls g dst rel n → io_fail w c = false) as Hcalls.
  { intros rel n c Hrel Hc.
    specialize (Hsteps rel). rewrite Hsource, Hrel in Hsteps.
    specialize (Hsteps (mk_is_Some _ _ eq_refl)).
    unfold copy_step_ok in Hsteps. rewrite lookup_subtree, Hsource, Hrel in Hsteps.
    rewrite forallb_forall in Hsteps.
    apply list_elem_of_In, Hsteps, negb_true_iff in Hc. by rewrite <- Hfail. }
  exists (Some (BACKUP_DIR // backup_name (clock w))).
  split; [done|]. split; [|split].
  - intros b [= <-]. split; [done|]. split.
    + by rewrite <- (app_nil_r g), <- Hsource, app_nil_r.
    + split; [|exact Hcalls]. intros rel. by rewrite Hmirror, Hsource.
  - intros Hnone. rewrite Hnone in Hg. by destruct Hg.
  - intros rel n c Hrel Hc Hfails.
    by rewrite (Hcalls rel n c Hrel Hc) in Hfails.
Qed.

Lemma create_backup_all_or_nothing_witness :
  ∃ record : option path,
    (create_backup game primary_world).1 = Ok record
    ∧ (∀ b, record = Some b →
         b = BACKUP_DIR // backup_name (clock primary_world)
         ∧ fs primary_world !! game = Some Dir
         ∧ (∀ rel, fs (create_backup game primary_world).2
                     !! (resolve primary_world b ++ rel)
                   = fs primary_world !! (game ++ rel))
         ∧ (∀ rel n c,
              fs primary_world !! (game ++ rel) = Some n →
              c ∈ copy_calls game (resolve primary_world b) rel n →
              io_fail primary_world c = false))
    ∧ (fs primary_world !! game = None → record = None)
    ∧ (∀ rel n c,
         fs primary_world !! (game ++ rel) = Some n →
         c ∈ copy_calls game
               (resolve primary_world
                  (BACKUP_DIR // backup_name (clock primary_world))) rel n →
         io_fail primary_world c = true →
         record = None).
Proof.
  apply (create_backup_all_or_nothing game primary_world).
  - decide_by_computing.
  - apply surjective_pairing.
Defined.

(** On the example the backup is made, and it fails when one file
    cannot be copied. *)
Example create_backup_primary :
  (create_backup game primary_world).1
  = Ok (Some ["Backups"; "MWC_Backup_2024-01-01_10-00-00"]).
Proof. vm_compute. reflexivity. Qed.

Example create_backup_faulty : (create_backup game faulty_world).1 = Ok None.
Proof. vm_compute. reflexivity. Qed.

(** ** The revert action *)

Lemma rename_if_exists_frame src dst line w r w' :
  rename_if_exists src dst line w = (r, w') →
  (∃ l, calls w' = calls w ++ l ∧ Forall (λ c, c = Rename src dst) l)
  ∧ (∀ p, under src p = None → under dst p = None → fs w' !! p = fs w !! p).
Proof.
  intros [(_ & _ & ->)|[(_ & _ & _ & ->)|(_ & _ & ->)]]%rename_if_exists_inv;
    simpl.
  - split; [|done]. exists []. by rewrite app_nil_r.
  - split; [by eauto|]. intros p Hs Hd. by apply moved_elsewhere.
  - split; [by eauto|done].
Qed.

(** Whatever its result, the body of the revert calls nothing but its
    two renames and changes no entry outside the four markers. *)
Lemma revert_renames_frame g w r w' :
  revert_renames g w = (r, w') →
  (∃ l, calls w' = calls w ++ l
        ∧ Forall (λ c, c = Rename (g // "mysummercar.exe") (g // "mywintercar.exe")
                       ∨ c = Rename (g // "mysummercar_Data") (g // "mywintercar_Data"))
                 l)
  ∧ (∀ p, (∀ name, name ∈ markers → under (g // name) p = None) →
          fs w' !! p = fs w !! p).
Proof.
  rewrite revert_renames_pair. unfold rename_pair, mbind, M_bind.
  destruct (rename_if_exists (g // "mysummercar.exe") _ _ w) as [r1 w1] eqn:H1.
  apply rename_if_exists_frame in H1 as [(l1 & Hl1 & Hall1) Hfs1].
  assert (∀ p, (∀ name, name ∈ markers → under (g // name) p = None) →
               fs w1 !! p = fs w !! p) as Hkeep1.
  { intros p Hp. apply Hfs1; apply Hp; unfold markers; set_solver. }
  destruct r1 as [[]|e].
  - intros H2. apply rename_if_exists_frame in H2 as [(l2 & Hl2 & Hall2) Hfs2].
    split.
    + exists (l1 ++ l2). rewrite Hl2, Hl1, <- app_assoc. split; [done|].
      apply Forall_app. split; eapply Forall_impl; eauto.
    + intros p Hp. rewrite <- Hkeep1 by done.
      apply Hfs2; apply Hp; unfold markers; set_solver.
  - intros [= <- <-]. split; [|done].
    exists l1. split; [done|]. eapply Forall_impl; eauto.
Qed.

Lemma revert_transform_inv g w r w' :
  revert_transform g w = (r, w') →
  ∃ rb wb,
    revert_renames g w = (rb, wb)
    ∧ fs w' = fs wb ∧ calls w' = calls wb
    ∧ (r = Ok true ∨ r = Ok false).
Proof.
  unfold revert_transform, try_except, mbind, M_bind, mret, M_ret.
  destruct (revert_renames g w) as [[[]|e] wb].
  - intros [= <- <-]. eauto 10.
  - unfold log_msg, message_box, write_log_line, modify, mbind, M_bind. simpl.
    intros [= <- <-]. eauto 10.
Qed.

(** Two paths with a common extension: one lies inside the other. *)
Lemma under_comparable (p q rel rel' : path) :
  p ++ rel = q ++ rel' → is_Some (under p q) ∨ is_Some (under q p).
Proof.
  intros [(k & -> & _)|(k & -> & _)]%app_eq_inv.
  - right. rewrite under_app. by eauto.
  - left. rewrite under_app. by eauto.
Qed.

(** C10, as the code has it.  A revert checks nothing about backups and
    makes none: it leaves by "cancelled", "rename failed" or
    "completed", every call it issues is one of its two renames (no
    directory is made, nothing is copied), and it changes no entry of
    the store outside the four marker entries of the selected folder.
    So the backup area is untouched whenever the markers of the selected
    folder and the backup area do not lie inside one another. *)
Theorem revert_only_renames_its_markers (w : world) (g : path) (answer : button)
    (r : res outcome) (w' : world) :
  game_path w = Some g →
  on_revert_clicked answer w = (r, w') →
  (r = Ok Cancelled ∨ r = Ok RenameFailed ∨ r = Ok Completed)
  ∧ (∃ l, calls w' = calls w ++ l
          ∧ Forall (λ c, c = Rename (g // "mysummercar.exe") (g // "mywintercar.exe")
                         ∨ c = Rename (g // "mysummercar_Data") (g // "mywintercar_Data"))
                   l)
  ∧ (∀ p, (∀ name, name ∈ markers → under (g // name) p = None) →
          fs w' !! p = fs w !! p)
  ∧ ((∀ name, name ∈ markers →
              under (resolve w BACKUP_DIR) (g // name) = None
              ∧ under (g // name) (resolve w BACKUP_DIR) = None) →
     ∀ rel, fs w' !! (resolve w BACKUP_DIR ++ rel)
            = fs w !! (resolve w BACKUP_DIR ++ rel)).
Proof.
  intros Hselected Hrun.
  assert ((r = Ok Cancelled ∨ r = Ok RenameFailed ∨ r = Ok Completed)
          ∧ (∃ l, calls w' = calls w ++ l
                  ∧ Forall (λ c, c = Rename (g // "mysummercar.exe")
                                            (g // "mywintercar.exe")
                                 ∨ c = Rename (g // "mysummercar_Data")
                                              (g // "mywintercar_Data")) l)
          ∧ (∀ p, (∀ name, name ∈ markers → under (g // name) p = None) →
                  fs w' !! p = fs w !! p)) as (Hout & Hcalls & Hframe).
  { revert Hrun. unfold on_revert_clicked, mbind, M_bind, gets.
    rewrite Hselected. simpl.
    destruct answer; simpl.
    2: { intros [= <- <-]. simpl. split; [by left|]. split; [|done].
         exists []. by rewrite app_nil_r. }
    destruct (revert_transform g _) as [rt wt] eqn:Ht.
    apply revert_transform_inv in Ht as (rb & wb & Hbody & Hfs & Hc & Hrt).
    apply revert_renames_frame in Hbody as [Hcalls Hframe]. simpl in *.
    destruct Hrt as [-> | ->]; simpl; intros [= <- <-]; simpl;
      rewrite ?Hfs, ?Hc; eauto. }
  do 3 (split; [done|]).
  intros Hapart rel. apply Hframe. intros name Hname.
  destruct (Hapart name Hname) as [Hout1 Hout2].
  destruct (under (g // name) (resolve w BACKUP_DIR ++ rel)) as [rel'|] eqn:Hu;
    [|done].
  apply under_Some in Hu.
  apply under_comparable in Hu as [Hu|Hu].
  - rewrite Hout1 in Hu. by destruct Hu.
  - rewrite Hout2 in Hu. by destruct Hu.
Qed.

Lemma revert_only_renames_its_markers_witness :
  ((on_revert_clicked Yes fixed_game_world).1 = Ok Cancelled
   ∨ (on_revert_clicked Yes fixed_game_world).1 = Ok RenameFailed
   ∨ (on_revert_clicked Yes fixed_game_world).1 = Ok Completed)
  ∧ (∃ l, calls (on_revert_clicked Yes fixed_game_world).2
          = calls fixed_game_world ++ l
          ∧ Forall (λ c, c = Rename (game // "mysummercar.exe")
                                    (game // "mywintercar.exe")
                         ∨ c = Rename (game // "mysummercar_Data")
                                      (game // "mywintercar_Data")) l)
  ∧ (∀ p, (∀ name, name ∈ markers → under (game // name) p = None) →
          fs (on_revert_clicked Yes fixed_game_world).2 !! p
          = fs fixed_game_world !! p)
  ∧ ((∀ name, name ∈ markers →
              under (resolve fixed_game_world BACKUP_DIR) (game // name) = None
              ∧ under (game // name) (resolve fixed_game_world BACKUP_DIR) = None) →
     ∀ rel, fs (on_revert_clicked Yes fixed_game_world).2
              !! (resolve fixed_game_world BACKUP_DIR ++ rel)
            = fs fixed_game_world !! (resolve fixed_game_world BACKUP_DIR ++ rel)).
Proof.
  apply (revert_only_renames_its_markers fixed_game_world game Yes).
  - reflexivity.
  - apply surjective_pairing.
Defined.

(** On the example the revert completes, with exactly its two renames,
    in a world where the folder and the backup area are apart. *)
Example revert_fixed_game :
  (on_revert_clicked Yes fixed_game_world).1 = Ok Completed
  ∧ calls (on_revert_clicked Yes fixed_game_world).2
    = [ Rename (game // "mysummercar.exe") (game // "mywintercar.exe");
        Rename (game // "mysummercar_Data") (game // "mywintercar_Data") ]
  ∧ Forall (λ name,
              under (resolve fixed_game_world BACKUP_DIR) (game // name) = None
              ∧ under (game // name) (resolve fixed_game_world BACKUP_DIR) = None)
           markers.
Proof.
  split; [by vm_compute|]. split; [by vm_compute|].
  unfold markers. repeat constructor.
Qed.

(** C10, as the claim states it: the backup area would be unchanged by
    the revert of every selected folder.  When the selected folder is
    itself a backup copy, the revert renames the entries of that copy,
    inside the backup area. *)
Theorem revert_of_a_backup_copy_changes_the_backup_area :
  ¬ (∀ (w : world) (answer : button) (r : res outcome) (w' : world),
       on_revert_clicked answer w = (r, w') →
       ∀ rel, fs w' !! (resolve w BACKUP_DIR ++ rel)
              = fs w !! (resolve w BACKUP_DIR ++ rel)).
Proof.
  intros Hclaim.
  specialize (Hclaim backup_selected_world Yes _ _
                (surjective_pairing _)
                ["MWC_Backup_2023-12-31_09-00-00"; "mysummercar.exe"]).
  vm_compute in Hclaim. discriminate Hclaim.
Qed.

(** ** The overlay copy *)

Lemma elem_of_prefixes_app (q p d : path) :
  q ∈ prefixes (p ++ d) ↔ q ∈ prefixes p ∨ ∃ d', d' ∈ prefixes d ∧ q = p ++ d'.
Proof.
  induction d as [|x d IH] using rev_ind.
  - rewrite app_nil_r. split; [by left|].
    intros [?|(d' & Hd' & _)]; [done|].
    apply elem_of_prefixes in Hd' as [Hne [rel Heq]].
    symmetry in Heq. apply app_eq_nil in Heq. by destruct Heq.
  - rewrite app_assoc. fold (child (p ++ d) x). rewrite elem_of_prefixes_snoc, IH.
    split.
    + intros [[?|(d' & Hd' & ->)]| ->].
      * by left.
      * right. exists d'. split; [|done].
        fold (child d x). apply elem_of_prefixes_snoc. by left.
      * right. exists (d ++ [x]). split; [|by unfold child; rewrite app_assoc].
        fold (child d x). apply elem_of_prefixes_snoc. by right.
    + intros [?|(d' & Hd' & ->)]; [by left; left|].
      fold (child d x) in Hd'. apply elem_of_prefixes_snoc in Hd' as [Hd'| ->].
      * left; right. eauto.
      * right. unfold child. by rewrite app_assoc.
Qed.

Lemma elem_of_children (m : gmap path node) (p : path) (name : string) (n : node) :
  (name, n) ∈ children m p ↔ m !! (p // name) = Some n.
Proof.
  unfold children. rewrite list_elem_of_omap. split.
  - intros ([q n'] & Hin & Hsome). apply elem_of_map_to_list in Hin. simpl in *.
    destruct (under p q) as [[|x [|y rel]]|] eqn:Hu; try done.
    injection Hsome as <- <-. apply under_Some in Hu. by subst q.
  - intros Hn. exists (p // name, n). split; [by apply elem_of_map_to_list|].
    simpl. unfold child. by rewrite under_app.
Qed.

Lemma elem_of_files_in (m : gmap path node) (p : path) (f : string) :
  f ∈ files_in m p ↔ ∃ data, m !! (p // f) = Some (File data).
Proof.
  unfold files_in. rewrite list_elem_of_omap. split.
  - intros ([name n] & Hin & Hsome). apply elem_of_children in Hin. simpl in *.
    destruct n as [data|]; [|done]. injection Hsome as <-. eauto.
  - intros [data Hf]. exists (f, File data). split; [|done].
    by apply elem_of_children.
Qed.

(** The directories [os.walk] visits are the directories of the tree
    that can be reached and listed. *)
Lemma elem_of_os_walk (base : path) (w : world) (d : path) (files : list string) :
  (d, files) ∈ match (os_walk base w).1 with Ok visits => visits | Raise _ => [] end
  ↔ walk_visits (io_fail w) base (subtree (fs w) base) d = true
    ∧ files = files_in (fs w) (base ++ d).
Proof.
  unfold os_walk. simpl. rewrite list_elem_of_fmap. split.
  - intros (rel & [= -> ->] & Hin).
    rewrite merge_sort_Permutation in Hin.
    apply list_elem_of_In, filter_In in Hin as [_ Hvisit]. done.
  - intros [Hvisit ->]. exists d. split; [done|].
    rewrite merge_sort_Permutation.
    apply list_elem_of_In, filter_In. split; [|done].
    apply list_elem_of_In, list_elem_of_fmap.
    unfold walk_visits in Hvisit. rewrite forallb_app in Hvisit. simpl in Hvisit.
    apply andb_true_iff in Hvisit as [_ Hd].
    destruct (subtree (fs w) base !! d) as [n|] eqn:Hn; [|done].
    exists (d, n). split; [done|]. by apply elem_of_map_to_list.
Qed.

Lemma walk_visits_dir (fail : oscall → bool) (base : path) (t : gmap path node)
    (d : path) :
  walk_visits fail base t d = true → t !! d = Some Dir.
Proof.
  unfold walk_visits. rewrite forallb_app. simpl.
  intros [_ Hd]%andb_true_iff.
  by destruct (t !! d) as [[]|].
Qed.

Section merge.
(** The overlay [base] of the world [w0] is copied onto the existing
    folder [g]; the two lie apart, and where the overlay has a file the
    folder has no directory. *)
Context (w0 : world) (base g : path).
Hypothesis Hwf : wf_fs (fs w0).
Hypothesis Hg : fs w0 !! g = Some Dir.
Hypothesis Hapart : under base g = None ∧ under g base = None.
Hypothesis Hkinds :
  ∀ rel data, fs w0 !! (base ++ rel) = Some (File data) →
              fs w0 !! (g ++ rel) ≠ Some Dir.

Lemma merge_inv_start : merge_inv w0 base g w0.
Proof. split; [done|]. intros p. by left. Qed.

Lemma merge_inv_overlay cur rel :
  merge_inv w0 base g cur → fs cur !! (base ++ rel) = fs w0 !! (base ++ rel).
Proof.
  intros [_ Hinv]. destruct (Hinv (base ++ rel)) as [?|(rel' & Heq & _)]; [done|].
  destruct Hapart as [H1 H2].
  apply under_comparable in Heq as [Hu|Hu].
  - rewrite H1 in Hu. by destruct Hu.
  - rewrite H2 in Hu. by destruct Hu.
Qed.

Lemma merge_inv_exists cur p :
  merge_inv w0 base g cur → is_Some (fs w0 !! p) → is_Some (fs cur !! p).
Proof.
  intros [_ Hinv] Hp. destruct (Hinv p) as [->|(rel & _ & Hrel & ->)]; done.
Qed.

Lemma merge_inv_not_dir cur rel data :
  merge_inv w0 base g cur →
  fs w0 !! (base ++ rel) = Some (File data) →
  is_dir (fs cur !! (g ++ rel)) = false.
Proof.
  intros [_ Hinv] Hfile.
  destruct (Hinv (g ++ rel)) as [->|(rel' & Heq & _ & ->)].
  - specialize (Hkinds rel data Hfile).
    by destruct (fs w0 !! (g ++ rel)) as [[]|].
  - apply app_inv_head in Heq as <-. by rewrite Hfile.
Qed.

Lemma merge_inv_same_fs cur w1 :
  merge_inv w0 base g cur → fs w1 = fs cur → io_fail w1 = io_fail cur →
  merge_inv w0 base g w1.
Proof. intros [Hio Hinv] Hfs Hfail. split; [congruence|]. by rewrite Hfs. Qed.

Lemma overlay_dir_above d d' :
  fs w0 !! (base ++ d) = Some Dir → d' ∈ prefixes d →
  fs w0 !! (base ++ d') = Some Dir.
Proof.
  intros Hd (Hne & rest & ->)%elem_of_prefixes.
  destruct rest as [|x rest]; [by rewrite app_nil_r in Hd|].
  apply (wf_fs_above (fs w0) (base ++ d') (x :: rest)); [done| |done|].
  - intros Hnil. apply app_eq_nil in Hnil. by destruct Hnil.
  - rewrite <- app_assoc. by rewrite Hd.
Qed.

(** Making the directory of the folder that mirrors the overlay
    directory [d]. *)
Lemma merge_makedirs cur d r w1 :
  merge_inv w0 base g cur →
  fs w0 !! (base ++ d) = Some Dir →
  os_makedirs (g ++ d) true cur = (r, w1) →
  merge_inv w0 base g w1
  ∧ (∀ p n, fs cur !! p = Some n → fs w1 !! p = Some n)
  ∧ (r = Ok tt → fs w1 !! (g ++ d) = Some Dir).
Proof.
  intros Hinv Hd [[-> Hdir]|(-> & Hnone & _ & ->)]%os_makedirs_inv.
  - split; [by apply (merge_inv_same_fs cur)|]. split; [done|]. exact Hdir.
  - simpl. split; [|split].
    + split; [by destruct Hinv|]. intros p. simpl. rewrite lookup_mkdir_all.
      pose proof Hinv as [_ Hall].
      destruct (fs cur !! p) as [n|] eqn:Hp.
      { rewrite <- Hp. apply Hall. }
      case_bool_decide as Hin.
      2: { rewrite <- Hp. apply Hall. }
      apply elem_of_prefixes_app in Hin as [Hin|(d' & Hd' & ->)].
      * apply (wf_prefixes_exist (fs w0) g) in Hin; [|done|by eauto].
        apply (merge_inv_exists cur) in Hin; [|done].
        rewrite Hp in Hin. by destruct Hin.
      * right. exists d'. rewrite (overlay_dir_above d d') by done. by eauto.
    + intros p n Hp. by apply mkdir_all_keeps.
    + intros _. rewrite lookup_mkdir_all, Hnone.
      rewrite bool_decide_eq_true_2; [done|].
      apply elem_of_prefixes. split; [|by exists []; rewrite app_nil_r].
      intros Hnil. apply app_eq_nil in Hnil as [Hg0 Hd0].
      rewrite Hd0, app_nil_r in Hnone.
      assert (is_Some (fs cur !! g)) as Hsome
        by (apply merge_inv_exists; [done|by eauto]).
      rewrite Hnone in Hsome. by destruct Hsome.
Qed.

(** Copying the overlay file [rel] to its place in the folder. *)
Lemma merge_copy2 cur rel data r w1 :
  merge_inv w0 base g cur →
  fs w0 !! (base ++ rel) = Some (File data) →
  shutil_copy2 (base ++ rel) (g ++ rel) cur = (r, w1) →
  io_fail w1 = io_fail cur
  ∧ (fs w1 = fs cur ∨ fs w1 = <[g ++ rel := File data]> (fs cur))
  ∧ (parent_ok (fs cur) (g ++ rel) = true →
     io_fail w0 (CopyFile (base ++ rel) (g ++ rel)) = false →
     fs w1 = <[g ++ rel := File data]> (fs cur)).
Proof.
  intros Hinv Hfile. unfold shutil_copy2. simpl.
  rewrite (merge_inv_overlay cur rel Hinv), Hfile.
  rewrite (merge_inv_not_dir cur rel data Hinv Hfile).
  rewrite (merge_inv_not_dir cur rel data Hinv Hfile).
  destruct Hinv as [Hio _]. rewrite Hio.
  destruct (parent_ok (fs cur) (g ++ rel)); simpl.
  - destruct (io_fail w0 _); intros [= <- <-]; simpl.
    + split; [done|]. split; [by left|]. done.
    + split; [done|]. split; [by right|]. done.
  - intros [= <- <-]. simpl. split; [done|]. split; [by left|]. done.
Qed.

Lemma merge_inv_insert cur w1 rel data :
  merge_inv w0 base g cur →
  fs w0 !! (base ++ rel) = Some (File data) →
  io_fail w1 = io_fail cur →
  fs w1 = <[g ++ rel := File data]> (fs cur) →
  merge_inv w0 base g w1.
Proof.
  intros [Hio Hinv] Hfile Hfail Hfs. split; [congruence|].
  intros p. rewrite Hfs.
  destruct (decide (p = g ++ rel)) as [->|Hne].
  - right. exists rel. rewrite lookup_insert_eq, Hfile. by eauto.
  - rewrite lookup_insert_ne by done. apply Hinv.
Qed.

Lemma mirrored_insert cur w1 rel rel' data :
  fs w0 !! (base ++ rel') = Some (File data) →
  fs w1 = <[g ++ rel' := File data]> (fs cur) →
  mirrored w0 base g rel cur → mirrored w0 base g rel w1.
Proof.
  intros Hfile Hfs [Hsome Hm]. split; [done|]. rewrite Hfs.
  destruct (decide (rel' = rel)) as [->|Hne].
  - by rewrite lookup_insert_eq, Hfile.
  - rewrite lookup_insert_ne; [done|]. intros Heq. by apply app_inv_head in Heq.
Qed.

Lemma mirrored_kept cur w1 rel :
  (∀ p n, fs cur !! p = Some n → fs w1 !! p = Some n) →
  mirrored w0 base g rel cur → mirrored w0 base g rel w1.
Proof.
  intros Hkeep [[n Hn] Hm]. split; [by eauto|].
  rewrite Hn in *. by apply Hkeep.
Qed.
(** One file of the overlay directory [d]: the copy may fail and is
    then skipped; when its call does not fail the file is in place. *)
Lemma merge_file cur d f data n r w1 :
  merge_inv w0 base g cur →
  fs w0 !! (base ++ (d ++ [f])) = Some (File data) →
  fs cur !! (g ++ d) = Some Dir →
  copy_fmf_file (base ++ d) (g ++ d) n f cur = (r, w1) →
  merge_inv w0 base g w1
  ∧ fs w1 !! (g ++ d) = Some Dir
  ∧ (∃ n', r = Ok n')
  ∧ (∀ rel, mirrored w0 base g rel cur → mirrored w0 base g rel w1)
  ∧ (io_fail w0 (CopyFile ((base ++ d) // f) ((g ++ d) // f)) = false →
     mirrored w0 base g (d ++ [f]) w1).
Proof.
  intros Hinv Hfile Hdir.
  unfold copy_fmf_file, try_except, mbind, M_bind, mret, M_ret, child.
  rewrite <- !app_assoc.
  destruct (shutil_copy2 _ _ cur) as [r2 w2] eqn:Hcopy.
  destruct (merge_copy2 cur _ data r2 w2 Hinv Hfile Hcopy) as (Hio & Hfs & Hgood).
  assert (parent_ok (fs cur) (g ++ d ++ [f]) = true) as Hparent.
  { unfold parent_ok, parent. rewrite app_assoc, removelast_last, Hdir.
    apply orb_true_r. }
  specialize (Hgood Hparent).
  assert (fs w1 = fs w2 ∧ io_fail w1 = io_fail w2 ∧ (∃ n', r = Ok n') →
          merge_inv w0 base g w1
          ∧ fs w1 !! (g ++ d) = Some Dir
          ∧ (∃ n', r = Ok n')
          ∧ (∀ rel, mirrored w0 base g rel cur → mirrored w0 base g rel w1)
          ∧ (io_fail w0 (CopyFile (base ++ d ++ [f]) (g ++ d ++ [f])) = false →
             mirrored w0 base g (d ++ [f]) w1)) as Hfinish.
  { intros (Hfs1 & Hio1 & Hr).
    destruct Hfs as [Hfs|Hfs].
    - split; [apply (merge_inv_same_fs cur); congruence|].
      split; [by rewrite Hfs1, Hfs|]. split; [done|]. split.
      + intros rel [? Hm]. split; [done|]. by rewrite Hfs1, Hfs.
      + intros Hok. specialize (Hgood Hok). split; [by rewrite Hfile|].
        by rewrite Hfs1, Hgood, lookup_insert_eq.
    - split; [apply (merge_inv_insert cur _ (d ++ [f]) data); congruence|].
      split.
      { rewrite Hfs1, Hfs, lookup_insert_ne; [done|].
        rewrite <- (app_nil_r (g ++ d)), <- !app_assoc.
        intros Heq. by do 2 apply app_inv_head in Heq. }
      split; [done|]. split.
      + intros rel Hm.
        destruct (mirrored_insert cur w2 rel (d ++ [f]) data Hfile Hfs Hm)
          as [? Hm2].
        split; [done|]. by rewrite Hfs1.
      + intros _. split; [by rewrite Hfile|].
        by rewrite Hfs1, Hfs, lookup_insert_eq. }
  destruct r2 as [[]|e]; simpl.
  - intros [= <- <-]. apply Hfinish. eauto.
  - unfold write_log_line, modify. intros [= <- <-]. apply Hfinish. simpl. eauto.
Qed.

(** The files of one overlay directory. *)
Lemma merge_files cur d files n r w1 :
  merge_inv w0 base g cur →
  Forall (λ f, ∃ data, fs w0 !! (base ++ (d ++ [f])) = Some (File data)) files →
  fs cur !! (g ++ d) = Some Dir →
  for_each files (copy_fmf_file (base ++ d) (g ++ d)) n cur = (r, w1) →
  merge_inv w0 base g w1
  ∧ fs w1 !! (g ++ d) = Some Dir
  ∧ (∃ n', r = Ok n')
  ∧ (∀ rel, mirrored w0 base g rel cur → mirrored w0 base g rel w1)
  ∧ (∀ f, f ∈ files →
          io_fail w0 (CopyFile ((base ++ d) // f) ((g ++ d) // f)) = false →
          mirrored w0 base g (d ++ [f]) w1).
Proof.
  intros Hinv Hfiles. revert cur n Hinv.
  induction Hfiles as [|f files [data Hf] _ IH]; intros cur n Hinv Hdir; simpl.
  - intros [= <- <-]. do 2 (split; [done|]). split; [by eauto|].
    split; [done|]. by intros f []%elem_of_nil.
  - unfold mbind, M_bind.
    destruct (copy_fmf_file _ _ n f cur) as [r1 w2] eqn:Hstep.
    destruct (merge_file cur d f data n r1 w2 Hinv Hf Hdir Hstep)
      as (Hinv2 & Hdir2 & [n' ->] & Hkeep2 & Hdone2).
    intros Hrest.
    destruct (IH w2 n' Hinv2 Hdir2 Hrest) as (Hinv1 & Hdir1 & Hr & Hkeep1 & Hdone1).
    do 3 (split; [done|]). split; [by auto|].
    intros f' [->|Hin]%elem_of_cons Hok; [by auto|by apply Hdone1].
Qed.

(** One directory of the walk. *)
Lemma merge_dir cur counts d files r w1 :
  merge_inv w0 base g cur →
  fs w0 !! (base ++ d) = Some Dir →
  Forall (λ f, ∃ data, fs w0 !! (base ++ (d ++ [f])) = Some (File data)) files →
  copy_fmf_dir base g counts (d, files) cur = (r, w1) →
  merge_inv w0 base g w1
  ∧ (∀ rel, mirrored w0 base g rel cur → mirrored w0 base g rel w1)
  ∧ (∀ c, r = Ok c →
          mirrored w0 base g d w1
          ∧ ∀ f, f ∈ files →
                 io_fail w0 (CopyFile ((base ++ d) // f) ((g ++ d) // f)) = false →
                 mirrored w0 base g (d ++ [f]) w1).
Proof.
  intros Hinv Hd Hfiles. destruct counts as [copied_files copied_dirs].
  unfold copy_fmf_dir, mbind, M_bind, mret, M_ret. simpl.
  destruct (os_makedirs (g ++ d) true cur) as [r1 w2] eqn:Hmk.
  destruct (merge_makedirs cur d r1 w2 Hinv Hd Hmk) as (Hinv2 & Hkeep2 & Hdir2).
  destruct r1 as [[]|e].
  2: { intros [= <- <-]. split; [done|].
       split; [intros rel; by apply mirrored_kept|]. by intros c [=]. }
  specialize (Hdir2 eq_refl).
  destruct (for_each files _ copied_files w2) as [r3 w3] eqn:Hloop.
  destruct (merge_files w2 d files copied_files r3 w3 Hinv2 Hfiles Hdir2 Hloop)
    as (Hinv3 & Hdir3 & [n' ->] & Hkeep3 & Hdone3).
  intros [= <- <-]. split; [done|]. split.
  - intros rel Hm. by apply Hkeep3, (mirrored_kept cur).
  - intros c _. split; [|done].
    split; [by rewrite Hd|]. by rewrite Hdir3, Hd.
Qed.

(** The whole walk. *)
Lemma merge_dirs cur counts visits r w1 :
  merge_inv w0 base g cur →
  Forall (λ visit : path * list string,
            fs w0 !! (base ++ visit.1) = Some Dir
            ∧ Forall (λ f, ∃ data,
                        fs w0 !! (base ++ (visit.1 ++ [f])) = Some (File data))
                     visit.2) visits →
  for_each visits (copy_fmf_dir base g) counts cur = (r, w1) →
  merge_inv w0 base g w1
  ∧ (∀ rel, mirrored w0 base g rel cur → mirrored w0 base g rel w1)
  ∧ (∀ c, r = Ok c →
          ∀ d files, (d, files) ∈ visits →
            mirrored w0 base g d w1
            ∧ ∀ f, f ∈ files →
                   io_fail w0 (CopyFile ((base ++ d) // f) ((g ++ d) // f)) = false →
                   mirrored w0 base g (d ++ [f]) w1).
Proof.
  intros Hinv Hvisits. revert cur counts Hinv.
  induction Hvisits as [|[d files] visits [Hd Hfiles] _ IH];
    intros cur counts Hinv; simpl.
  - intros [= <- <-]. do 2 (split; [done|]).
    by intros c _ d files []%elem_of_nil.
  - unfold mbind, M_bind.
    destruct (copy_fmf_dir base g counts (d, files) cur) as [r1 w2] eqn:Hstep.
    destruct (merge_dir cur counts d files r1 w2 Hinv Hd Hfiles Hstep)
      as (Hinv2 & Hkeep2 & Hdone2).
    destruct r1 as [counts'|e].
    2: { intros [= <- <-]. do 2 (split; [done|]). by intros c [=]. }
    intros Hrest.
    destruct (IH w2 counts' Hinv2 Hrest) as (Hinv1 & Hkeep1 & Hdone1).
    split; [done|]. split; [by auto|].
    intros c Hc d' files' [[= -> ->]|Hin]%elem_of_cons.
    + destruct (Hdone2 counts' eq_refl) as [Hmd Hmf].
      split; [by auto|]. intros f Hf Hok. by auto.
    + by apply (Hdone1 c Hc).
Qed.
End merge.

Lemma elem_of_above (q d : path) : q ∈ above d → ∃ rest, d = q ++ rest.
Proof.
  unfold above. intros (n & -> & _)%list_elem_of_fmap.
  exists (drop n d). by rewrite take_drop.
Qed.

(** Without a fault on the way the walk visits every overlay
    directory. *)
Lemma walk_visits_true (m : gmap path node) (fail : oscall → bool) (base d : path) :
  wf_fs m → base ≠ [] →
  m !! (base ++ d) = Some Dir →
  (∀ q rest, d = q ++ rest → fail (Scandir (base ++ q)) = false) →
  walk_visits fail base (subtree m base) d = true.
Proof.
  intros Hwf Hbase Hd Hlist. unfold walk_visits. apply forallb_forall.
  intros q Hq. apply list_elem_of_In in Hq.
  assert (∃ rest, d = q ++ rest) as [rest Hrest].
  { apply elem_of_app in Hq as [Hq|Hq%list_elem_of_singleton].
    - by apply elem_of_above.
    - exists []. by rewrite app_nil_r. }
  rewrite (Hlist q rest Hrest), lookup_subtree. simpl.
  rewrite andb_true_r.
  destruct rest as [|x rest].
  - rewrite app_nil_r in Hrest. subst q. by rewrite Hd.
  - rewrite (wf_fs_above m (base ++ q) (x :: rest)); [done..| |done|].
    + intros Hnil. apply app_eq_nil in Hnil. by destruct Hnil.
    + rewrite <- app_assoc, <- Hrest, Hd. by eauto.
Qed.

(** C9, as the code has it.  The overlay [fmf] exists and is copied
    onto an existing folder that lies apart from it and has no
    directory where the overlay has a file; the copy returns.  Then

    - every overlay file whose directory could be listed and whose copy
      call did not fail is found under the folder at its relative path,
      with the content of the overlay file, whatever was there before;
    - every overlay directory that could be listed exists under the
      folder at its relative path;
    - every entry of the store is what it was before, or it is at a
      relative path of the overlay under the folder and holds the
      overlay's entry: no other path is introduced or changed.

    An overlay file whose copy call fails is not promised to arrive: the
    code logs the error and goes on. *)
Theorem overlay_copy_mirrors_what_it_copies (w : world) (g : path)
    (counts : nat * nat) (w' : world) :
  wf_fs (fs w) →
  fs w !! resolve w FMF = Some Dir →
  fs w !! g = Some Dir →
  under (resolve w FMF) g = None ∧ under g (resolve w FMF) = None →
  (∀ rel data, fs w !! (resolve w FMF ++ rel) = Some (File data) →
               fs w !! (g ++ rel) ≠ Some Dir) →
  copy_fmf_to_game g w = (Ok counts, w') →
  (∀ d f data,
     fs w !! (resolve w FMF ++ (d ++ [f])) = Some (File data) →
     (∀ q rest, d = q ++ rest → io_fail w (Scandir (resolve w FMF ++ q)) = false) →
     io_fail w (CopyFile (resolve w FMF ++ (d ++ [f])) (g ++ (d ++ [f]))) = false →
     fs w' !! (g ++ (d ++ [f])) = Some (File data))
  ∧ (∀ d,
       fs w !! (resolve w FMF ++ d) = Some Dir →
       (∀ q rest, d = q ++ rest → io_fail w (Scandir (resolve w FMF ++ q)) = false) →
       fs w' !! (g ++ d) = Some Dir)
  ∧ (∀ p, fs w' !! p = fs w !! p
          ∨ ∃ rel, p = g ++ rel
                   ∧ is_Some (fs w !! (resolve w FMF ++ rel))
                   ∧ fs w' !! p = fs w !! (resolve w FMF ++ rel)).
Proof.
  intros Hwf Hbase Hg Hapart Hkinds.
  set (base := resolve w FMF) in *.
  assert (base ≠ []) as Hbase_ne
    by (unfold base, resolve, FMF; by destruct (cwd w)).
  unfold copy_fmf_to_game, mbind, M_bind, gets. fold base.
  unfold path_exists. rewrite Hbase. simpl.
  destruct (for_each _ (copy_fmf_dir base g) (0, 0) w) as [r1 w1] eqn:Hloop.
  assert (∀ d files,
            (d, files) ∈ (λ rel, (rel, files_in (fs w) (base ++ rel)))
              <$> merge_sort (λ p q, path_leb p q)
                    (List.filter (walk_visits (io_fail w) base (subtree (fs w) base))
                                 (map_to_list (subtree (fs w) base)).*1)
            ↔ walk_visits (io_fail w) base (subtree (fs w) base) d = true
              ∧ files = files_in (fs w) (base ++ d)) as Hvisits
    by (intros d files; apply (elem_of_os_walk base w d files)).
  apply (merge_dirs w base g Hwf Hg Hapart Hkinds) in Hloop
    as (Hinv & _ & Hdone); [|apply merge_inv_start|].
  2: { apply Forall_forall. intros [d files] [Hvisit ->]%Hvisits. simpl. split.
       - apply walk_visits_dir in Hvisit. by rewrite lookup_subtree in Hvisit.
       - apply Forall_forall. intros f [data Hf]%elem_of_files_in.
         exists data. unfold child in Hf. by rewrite <- app_assoc in Hf. }
  destruct r1 as [counts'|e]; [|by intros [=]].
  unfold write_log_line, modify. simpl. intros [= <- <-]. simpl.
  specialize (Hdone counts' eq_refl).
  split; [|split].
  - intros d f data Hf Hlist Hcopy.
    assert (fs w !! (base ++ d) = Some Dir) as Hd.
    { apply (wf_fs_parent (fs w) (base ++ d) f Hwf).
      - intros Hnil. apply app_eq_nil in Hnil. by destruct Hnil.
      - unfold child. rewrite <- app_assoc, Hf. by eauto. }
    destruct (Hdone d (files_in (fs w) (base ++ d))) as [_ Hfiles].
    { apply Hvisits. split; [|done]. by apply walk_visits_true. }
    destruct (Hfiles f) as [_ Hm].
    + apply elem_of_files_in. exists data. unfold child. by rewrite <- app_assoc.
    + unfold child. by rewrite <- !app_assoc.
    + by rewrite Hm.
  - intros d Hd Hlist.
    destruct (Hdone d (files_in (fs w) (base ++ d))) as [[_ Hm] _].
    { apply Hvisits. split; [|done]. by apply walk_visits_true. }
    by rewrite Hm.
  - by destruct Hinv.
Qed.

Lemma primary_world_no_clash (rel : path) (data : string) :
  fs primary_world !! (resolve primary_world FMF ++ rel) = Some (File data) →
  fs primary_world !! (game ++ rel) ≠ Some Dir.
Proof.
  intros Hfile Hdir. apply elem_of_map_to_list in Hdir.
  vm_compute map_to_list in Hdir. unfold game in Hdir. cbn [app] in Hdir.
  repeat (apply elem_of_cons in Hdir as [Hdir|Hdir];
          [try discriminate Hdir;
           injection Hdir as ->; vm_compute in Hfile; discriminate Hfile|]).
  by apply elem_of_nil in Hdir.
Qed.

Lemma overlay_copy_mirrors_what_it_copies_witness :
  (∀ d f data,
     fs primary_world !! (resolve primary_world FMF ++ (d ++ [f])) = Some (File data) →
     (∀ q rest, d = q ++ rest →
                io_fail primary_world (Scandir (resolve primary_world FMF ++ q)) = false) →
     io_fail primary_world
       (CopyFile (resolve primary_world FMF ++ (d ++ [f])) (game ++ (d ++ [f]))) = false →
     fs (copy_fmf_to_game game primary_world).2 !! (game ++ (d ++ [f]))
     = Some (File data))
  ∧ (∀ d,
       fs primary_world !! (resolve primary_world FMF ++ d) = Some Dir →
       (∀ q rest, d = q ++ rest →
                  io_fail primary_world (Scandir (resolve primary_world FMF ++ q)) = false) →
       fs (copy_fmf_to_game game primary_world).2 !! (game ++ d) = Some Dir)
  ∧ (∀ p, fs (copy_fmf_to_game game primary_world).2 !! p = fs primary_world !! p
          ∨ ∃ rel, p = game ++ rel
                   ∧ is_Some (fs primary_world !! (resolve primary_world FMF ++ rel))
                   ∧ fs (copy_fmf_to_game game primary_world).2 !! p
                     = fs primary_world !! (resolve primary_world FMF ++ rel)).
Proof.
  apply (overlay_copy_mirrors_what_it_copies primary_world game (2, 2)).
  - decide_by_computing.
  - vm_compute. reflexivity.
  - vm_compute. reflexivity.
  - split; vm_compute; reflexivity.
  - exact primary_world_no_clash.
  - apply (run_eq (copy_fmf_to_game game) primary_world (Ok (2, 2))).
    vm_compute. reflexivity.
Defined.

(** The example of the claim: an overlay with [a/readme.txt] and
    [a/b/c.dll] gives these two files, and the two directories that hold
    them, under the game folder. *)
Example overlay_copy_primary :
  let w' := (copy_fmf_to_game game primary_world).2 in
  (copy_fmf_to_game game primary_world).1 = Ok (2, 2)
  ∧ fs w' !! (game ++ ["a"; "readme.txt"]) = Some (File "FMF FOLDER")
  ∧ fs w' !! (game ++ ["a"; "b"; "c.dll"]) = Some (File "dll")
  ∧ fs w' !! (game ++ ["a"]) = Some Dir
  ∧ fs w' !! (game ++ ["a"; "b"]) = Some Dir.
Proof. vm_compute. repeat split. Qed.

(** C9, as the claim states it: every file of an existing overlay would
    end up at its relative path under the destination, and nothing but
    the relative paths of the overlay would change.  In the example whose
    copy of [a/readme.txt] is refused the merge logs the error, goes on
    and returns: the file is not under the game folder. *)
Theorem overlay_file_whose_copy_fails_is_skipped :
  ¬ (∀ (w : world) (g : path) (r : res (nat * nat)) (w' : world),
       fs w !! resolve w FMF = Some Dir →
       copy_fmf_to_game g w = (r, w') →
       (∀ rel data,
          fs w !! (resolve w FMF ++ rel) = Some (File data) →
          fs w' !! (g ++ rel) = Some (File data))
       ∧ (∀ p, fs w' !! p ≠ fs w !! p →
               ∃ rel, p = g ++ rel ∧ is_Some (fs w !! (resolve w FMF ++ rel)))).
Proof.
  intros Hclaim.
  assert (fs locked_world !! resolve locked_world FMF = Some Dir) as Hbase
    by (vm_compute; reflexivity).
  destruct (Hclaim locked_world game _ _ Hbase (surjective_pairing _))
    as [Hfiles _].
  assert (fs locked_world !! (resolve locked_world FMF ++ ["a"; "readme.txt"])
          = Some (File "FMF FOLDER")) as Hfile by (vm_compute; reflexivity).
  apply Hfiles in Hfile.
  vm_compute in Hfile. discriminate Hfile.
Qed.

(** The case the statement above leaves out: where the overlay has a
    file and the folder a directory of the same name, [copy2] puts the
    file inside that directory, at a path the overlay does not have. *)
Example overlay_file_onto_directory :
  let w' := (copy_fmf_to_game game clash_world).2 in
  (copy_fmf_to_game game clash_world).1 = Ok (1, 0)
  ∧ fs w' !! (game ++ ["plugin"]) = Some Dir
  ∧ fs w' !! (game ++ ["plugin"; "plugin"]) = Some (File "dll")
  ∧ fs clash_world !! (resolve clash_world FMF ++ ["plugin"; "plugin"]) = None.
Proof. vm_compute. repeat split. Qed.

(** ** The fix action followed by the revert action *)

Lemma keeps_refl w : keeps w w.
Proof. by intros p. Qed.

Lemma keeps_trans w1 w2 w3 : keeps w1 w2 → keeps w2 w3 → keeps w1 w3.
Proof. intros H12 H23 p Hp. by apply H23, H12. Qed.

Lemma keeps_same_fs w w' : fs w' = fs w → keeps w w'.
Proof. intros Hfs p. by rewrite Hfs. Qed.

Lemma os_makedirs_keeps p exist_ok w r w' :
  os_makedirs p exist_ok w = (r, w') → keeps w w'.
Proof.
  intros [[-> _]|(_ & _ & _ & ->)]%os_makedirs_inv q [n Hq]; simpl.
  - by eauto.
  - rewrite (mkdir_all_keeps _ _ _ n); by eauto.
Qed.

Lemma shutil_copy2_keeps src dst w r w' :
  shutil_copy2 src dst w = (r, w') → keeps w w'.
Proof.
  unfold shutil_copy2. simpl.
  destruct (fs w !! src) as [[data|]|]; try (intros [= <- <-]; by intros q).
  set (target := if is_dir (fs w !! dst) then dst // List.last src "" else dst).
  destruct (is_dir (fs w !! target)); [intros [= <- <-]; by intros q|].
  destruct (negb (parent_ok (fs w) target)); [intros [= <- <-]; by intros q|].
  destruct (io_fail w (CopyFile src dst)); intros [= <- <-]; [by intros q|].
  intros q Hq. simpl.
  destruct (decide (q = target)) as [->|Hne].
  - rewrite lookup_insert_eq. by eauto.
  - by rewrite lookup_insert_ne.
Qed.

Lemma for_each_keeps {A S} (body : S → A → M S) (l : list A) (s : S)
    (w : world) (r : res S) (w' : world) :
  (∀ s x (w : world) (r : res S) (w' : world),
     body s x w = (r, w') → keeps w w') →
  for_each l body s w = (r, w') → keeps w w'.
Proof.
  intros Hbody. revert s w. induction l as [|x l IH]; intros s w; simpl.
  - intros [= <- <-]. apply keeps_refl.
  - unfold mbind, M_bind. destruct (body s x w) as [[s'|e] w1] eqn:Hstep.
    + intros Hrest. eapply keeps_trans; [by eapply Hbody|by eapply IH].
    + intros [= <- <-]. by eapply Hbody.
Qed.

Lemma copy_fmf_file_keeps root_path dest_dir n f w r w' :
  copy_fmf_file root_path dest_dir n f w = (r, w') → keeps w w'.
Proof.
  unfold copy_fmf_file, try_except, mbind, M_bind, mret, M_ret.
  destruct (shutil_copy2 _ _ w) as [[[]|e] w1] eqn:Hcopy;
    apply shutil_copy2_keeps in Hcopy.
  - by intros [= <- <-].
  - unfold write_log_line, modify. intros [= <- <-]. exact Hcopy.
Qed.

Lemma copy_fmf_dir_keeps base g counts visit w r w' :
  copy_fmf_dir base g counts visit w = (r, w') → keeps w w'.
Proof.
  destruct counts as [copied_files copied_dirs].
  unfold copy_fmf_dir, mbind, M_bind, mret, M_ret.
  destruct (os_makedirs _ true w) as [[[]|e] w1] eqn:Hmk;
    apply os_makedirs_keeps in Hmk; [|by intros [= <- <-]].
  destruct (for_each _ _ copied_files w1) as [[n|e] w2] eqn:Hloop;
    apply for_each_keeps in Hloop;
    try (intros; by eapply copy_fmf_file_keeps);
    intros [= <- <-]; by eapply keeps_trans.
Qed.

(** The overlay copy removes nothing. *)
Lemma copy_fmf_to_game_keeps g w r w' :
  copy_fmf_to_game g w = (r, w') → keeps w w'.
Proof.
  unfold copy_fmf_to_game, mbind, M_bind, gets, mret, M_ret.
  destruct (path_exists _ _); simpl.
  2: { unfold write_log_line, modify. intros [= <- <-]. by apply keeps_same_fs. }
  destruct (for_each _ _ (0, 0) w) as [[counts|e] w1] eqn:Hloop;
    apply for_each_keeps in Hloop;
    try (intros; by eapply copy_fmf_dir_keeps).
  - unfold write_log_line, modify. intros [= <- <-]. exact Hloop.
  - by intros [= <- <-].
Qed.

(** A fix action that completed has taken the backup, then run the
    renames, then copied the overlay. *)
Lemma on_fix_clicked_completed w g w1 :
  game_path w = Some g →
  on_fix_clicked Yes w = (Ok Completed, w1) →
  ∃ backup_folder wb wr wf,
    create_backup g (backup_point w) = (Ok (Some backup_folder), wb)
    ∧ fs wr = fs wb
    ∧ (∃ wt, fix_transform g wr = (Ok true, wt) ∧ fs wf = fs wt)
    ∧ (∃ counts wc, copy_fmf_to_game g wf = (Ok counts, wc) ∧ fs w1 = fs wc).
Proof.
  intros Hselected.
  unfold on_fix_clicked, mbind, M_bind, gets. rewrite Hselected. simpl.
  destruct (looks_like_mwc_folder (fs w) g); simpl; [|by intros [=]].
  unfold backup_point, mbind, M_bind. simpl.
  destruct (create_backup g _) as [[[b|]|e] wb] eqn:Hbackup; simpl;
    [|by intros [=]..].
  destruct (fix_transform g _) as [[[]|e] wt] eqn:Hfix; simpl;
    [|by intros [=]..].
  unfold create_shortcut, mbind, M_bind, gets. simpl.
  destruct (shortcut_error wt) as [err|]; simpl.
  - destruct (copy_fmf_to_game g _) as [[counts|e] wc] eqn:Hcopy; simpl;
      [|by intros [=]].
    destruct (0 <? counts.1)%nat; simpl; intros [= <-]; simpl;
      lazymatch type of Hfix with
      | fix_transform g ?wr = _ =>
          lazymatch type of Hcopy with
          | copy_fmf_to_game g ?wf = _ => exists b, wb, wr, wf
          end
      end; eauto 10.
  - destruct (copy_fmf_to_game g _) as [[counts|e] wc] eqn:Hcopy; simpl;
      [|by intros [=]].
    destruct (0 <? counts.1)%nat; simpl; intros [= <-]; simpl;
      lazymatch type of Hfix with
      | fix_transform g ?wr = _ =>
          lazymatch type of Hcopy with
          | copy_fmf_to_game g ?wf = _ => exists b, wb, wr, wf
          end
      end; eauto 10.
Qed.

Lemma on_revert_clicked_completed w g w2 :
  game_path w = Some g →
  on_revert_clicked Yes w = (Ok Completed, w2) →
  ∃ wr wt, fs wr = fs w ∧ revert_transform g wr = (Ok true, wt) ∧ fs w2 = fs wt.
Proof.
  intros Hselected.
  unfold on_revert_clicked, mbind, M_bind, gets. rewrite Hselected. simpl.
  destruct (revert_transform g _) as [[[]|e] wt] eqn:Hrev; simpl;
    [|by intros [=]..].
  intros [= <-]. simpl.
  lazymatch type of Hrev with
  | revert_transform g ?wr = _ => exists wr, wt
  end. eauto.
Qed.

(** X22.  The round trip for the two actions of the window, backup and
    overlay copy included: on a folder with both primary markers, a fix
    action that completes followed by a revert action that completes on
    the same folder leaves both primary markers and no alternate
    marker. *)
Theorem fix_action_then_revert_action (w w1 w2 : world) (g : path) :
  wf_world w →
  game_path w = Some g →
  game_path w1 = Some g →
  is_Some (fs w !! (g // "mywintercar.exe")) →
  is_Some (fs w !! (g // "mywintercar_Data")) →
  on_fix_clicked Yes w = (Ok Completed, w1) →
  on_revert_clicked Yes w1 = (Ok Completed, w2) →
  is_Some (fs w2 !! (g // "mywintercar.exe"))
  ∧ is_Some (fs w2 !! (g // "mywintercar_Data"))
  ∧ fs w2 !! (g // "mysummercar.exe") = None
  ∧ fs w2 !! (g // "mysummercar_Data") = None.
Proof.
  intros Hwf Hsel Hsel1 Hexe Hdata Hfix Hrev.
  apply (on_fix_clicked_completed w g w1 Hsel) in Hfix
    as (b & wb & wr & wf & Hbackup & Hwr & (wt & Htransform & Hwf')
        & counts & wc & Hcopy & Hw1).
  apply create_backup_frame in Hbackup as [Hmarkers _].
  2: { destruct Hwf as [? ?]. by split. }
  simpl in Hmarkers.
  assert (is_Some (fs wr !! (g // "mywintercar.exe"))
          ∧ is_Some (fs wr !! (g // "mywintercar_Data"))) as [[exe He] [data Hd]].
  { rewrite Hwr, !Hmarkers; [done|unfold markers; set_solver..]. }
  apply fix_transform_true in Htransform. rewrite fix_renames_pair in Htransform.
  apply rename_pair_Ok in Htransform as (_ & _ & He' & Hd'); [|done..].
  rewrite He in He'. rewrite Hd in Hd'.
  apply copy_fmf_to_game_keeps in Hcopy.
  assert (is_Some (fs w1 !! (g // "mysummercar.exe"))
          ∧ is_Some (fs w1 !! (g // "mysummercar_Data"))) as [[exe1 He1] [data1 Hd1]].
  { rewrite Hw1. split; apply Hcopy; rewrite Hwf'; by eauto. }
  apply (on_revert_clicked_completed w1 g w2 Hsel1) in Hrev
    as (wr' & wt' & Hwr' & Hrevert & Hw2).
  apply revert_transform_true in Hrevert. rewrite revert_renames_pair in Hrevert.
  apply rename_pair_Ok in Hrevert as (He2' & Hd2' & He2 & Hd2); [|done..].
  rewrite Hw2, He2, Hd2, He2', Hd2', Hwr', He1, Hd1. by eauto.
Qed.

(** On the first example both actions complete. *)
Example fix_action_then_revert_action_primary :
  let run1 := on_fix_clicked Yes primary_world in
  let run2 := on_revert_clicked Yes run1.2 in
  run1.1 = Ok Completed ∧ run2.1 = Ok Completed
  ∧ game_path run1.2 = Some game
  ∧ looks_like_mwc_folder (fs run2.2) game = true.
Proof. vm_compute. repeat split. Qed.

(** One marker of each kind is what the rename step leaves; the overlay
    copy that the fix action runs after it can bring a marker name back: with an
    overlay file named like the primary executable, the completed action
    leaves both executable markers. *)
Example overlay_can_bring_back_a_marker :
  let run := on_fix_clicked Yes patched_world in
  run.1 = Ok Completed
  ∧ fs run.2 !! (game // "mywintercar.exe") = Some (File "patched")
  ∧ fs run.2 !! (game // "mysummercar.exe") = Some (File "MZ").
Proof. vm_compute. repeat split. Qed.

(** ** The scan for installations *)

Lemma looks_like_has_exe m p :
  looks_like_mwc_folder m p = true →
  path_exists m (p // "mywintercar.exe") || path_exists m (p // "mysummercar.exe") = true.
Proof.
  unfold looks_like_mwc_folder.
  destruct (path_exists m (p // "mywintercar.exe")),
           (path_exists m (p // "mysummercar.exe")); done.
Qed.

Lemma os_scandir_inv p w r w' :
  os_scandir p w = (r, w') →
  w' = w
  ∧ ((r = Ok (children (fs w) p)
      ∧ fs w !! p = Some Dir ∧ io_fail w (Scandir p) = false)
     ∨ ((∃ e, r = Raise e)
        ∧ (fs w !! p = Some Dir → io_fail w (Scandir p) = true))).
Proof.
  unfold os_scandir.
  destruct (fs w !! p) as [[data|]|];
    try (intros [= <- <-]; split; [done|]; right; split; [by eauto|done]).
  destruct (io_fail w (Scandir p)); intros [= <- <-]; (split; [done|]).
  - right. by eauto.
  - by left.
Qed.

Lemma scan_entries_Some m p entries q :
  scan_entries m p entries = Some q →
  ∃ name, (name, Dir) ∈ entries ∧ q = p // name ∧ lower name ∉ BAD_DIRS
          ∧ looks_like_mwc_folder m q = true.
Proof.
  induction entries as [|[name n] rest IH]; simpl; [done|].
  assert (∀ q, (∃ name, (name, Dir) ∈ rest ∧ q = p // name ∧ lower name ∉ BAD_DIRS
                        ∧ looks_like_mwc_folder m q = true) →
               ∃ name0, (name0, Dir) ∈ (name, n) :: rest ∧ q = p // name0
                        ∧ lower name0 ∉ BAD_DIRS
                        ∧ looks_like_mwc_folder m q = true) as Hmore.
  { intros q' (name0 & Hin & ?). exists name0. split; [apply elem_of_cons; by right|done]. }
  destruct n as [data|]; simpl; [intros H; by apply Hmore, IH|].
  case_bool_decide as Hbad; [intros H; by apply Hmore, IH|].
  destruct (_ && _) eqn:Hhit; [|intros H; by apply Hmore, IH].
  intros [= <-]. apply andb_true_iff in Hhit as [_ Hlooks].
  exists name. split; [apply elem_of_cons; by left|done].
Qed.

Lemma scan_entries_None m p entries name :
  scan_entries m p entries = None →
  (name, Dir) ∈ entries → lower name ∉ BAD_DIRS →
  looks_like_mwc_folder m (p // name) = false.
Proof.
  induction entries as [|[name0 n] rest IH]; simpl.
  - by intros _ ?%elem_of_nil.
  - intros Hscan Hin Hok. apply elem_of_cons in Hin as [[= <- <-]|Hin].
    + simpl in Hscan. rewrite bool_decide_eq_false_2 in Hscan by done.
      destruct (looks_like_mwc_folder m (p // name)) eqn:Hlooks; [|done].
      by rewrite (looks_like_has_exe _ _ Hlooks) in Hscan.
    + apply IH; [|done..]. simpl in Hscan.
      destruct n; simpl in Hscan; [done|].
      destruct (bool_decide _); [done|].
      by destruct (_ && _).
Qed.

(** One task of the scan: it changes nothing and does not raise; what
    it returns looks like an installation; and a folder that was not
    checked before and holds an installation one level down returns
    something. *)
Lemma fast_check_spec checked p w :
  ∃ res,
    fast_check checked p w
    = (Ok (res, if bool_decide (p ∈ checked) then checked else checked ∪ {[ p ]}), w)
    ∧ (∀ q, res = Some q → found_by (fs w) p q)
    ∧ (p ∉ checked →
       fs w !! p = Some Dir → io_fail w (Scandir p) = false →
       ∀ b, fs w !! (p // b) = Some Dir → lower b ∉ BAD_DIRS →
            looks_like_mwc_folder (fs w) (p // b) = true →
            is_Some res).
Proof.
  unfold fast_check. case_bool_decide as Hchecked.
  { exists None. split; [done|]. split; [by intros q [=]|done]. }
  unfold mbind, M_bind, try_except, gets, mret, M_ret.
  destruct (existsb _ TARGET_NAMES && looks_like_mwc_folder (fs w) p) eqn:Hhit.
  { exists (Some p). split; [done|]. split; [|by eauto].
    intros q [= <-]. apply andb_true_iff in Hhit as [Hname Hlooks].
    split; [done|]. by left. }
  destruct (os_scandir p w) as [[entries|e] w1] eqn:Hscan;
    apply os_scandir_inv in Hscan as [-> Hscan].
  - destruct Hscan as [([= ->] & Hdir & Hfail)|[[e [=]] _]].
    exists (scan_entries (fs w) p (children (fs w) p)). split; [done|]. split.
    + intros q (name & Hin & -> & Hok & Hlooks)%scan_entries_Some.
      split; [done|]. right. exists name. by apply elem_of_children in Hin.
    + intros _ _ _ b Hb Hok Hlooks.
      destruct (scan_entries _ _ _) as [q|] eqn:Hnone; [by eauto|].
      apply (scan_entries_None _ _ _ b) in Hnone; [congruence| |done].
      by apply elem_of_children.
  - exists None. split; [done|]. split; [by intros q [=]|].
    intros _ Hdir Hfail. destruct Hscan as [(? & _)|[_ Hraise]]; [done|].
    rewrite Hraise in Hfail; done.
Qed.

(** A computation that returned is followed by its continuation. *)
Lemma bind_Ok {A B} (c : M A) (k : A → M B) (w w1 : world) (a : A) :
  c w = (Ok a, w1) → (c ≫= k) w = k a w1.
Proof. unfold mbind, M_bind. by intros ->. Qed.

Lemma bind_Raise {A B} (c : M A) (k : A → M B) (w w1 : world) (e : exn) :
  c w = (Raise e, w1) → (c ≫= k) w = (Raise e, w1).
Proof. unfold mbind, M_bind. by intros ->. Qed.

(** The tasks of one root are its directories. *)
Lemma submit_root_spec root w :
  ∃ l, submit_root root w = (Ok l, w)
       ∧ (∀ t, t ∈ l → ∃ a, t = root // a ∧ fs w !! t = Some Dir)
       ∧ (fs w !! root = Some Dir → io_fail w (Scandir root) = false →
          ∀ a, fs w !! (root // a) = Some Dir → root // a ∈ l).
Proof.
  unfold submit_root, try_except, mbind, M_bind, mret, M_ret.
  destruct (os_scandir root w) as [[entries|e] w1] eqn:Hscan;
    apply os_scandir_inv in Hscan as [-> Hscan].
  - destruct Hscan as [([= ->] & Hdir & Hfail)|[[e [=]] _]].
    eexists. split; [done|]. split.
    + intros t ([a n] & Hin & Ht)%list_elem_of_omap. simpl in Ht.
      destruct n as [data|]; simplify_eq/=. exists a.
      by apply elem_of_children in Hin.
    + intros _ _ a Ha. apply list_elem_of_omap. exists (a, Dir).
      split; [by apply elem_of_children|done].
  - exists []. split; [done|]. split; [by intros t ?%elem_of_nil|].
    intros Hdir Hfail. destruct Hscan as [(? & _)|[_ Hraise]]; [done|].
    rewrite Hraise in Hfail; done.
Qed.

Lemma submit_roots_spec roots w acc :
  ∃ l,
    for_each roots (λ futures root,
                      submitted ← submit_root root;
                      mret (futures ++ submitted)) acc w
    = (Ok (acc ++ l), w)
    ∧ (∀ t, t ∈ l → ∃ root a, root ∈ roots ∧ t = root // a ∧ fs w !! t = Some Dir)
    ∧ (∀ root a, root ∈ roots →
                 fs w !! root = Some Dir → io_fail w (Scandir root) = false →
                 fs w !! (root // a) = Some Dir → root // a ∈ l).
Proof.
  revert acc. induction roots as [|root roots IH]; intros acc; simpl.
  - exists []. rewrite app_nil_r. split; [done|].
    split; [by intros t ?%elem_of_nil|by intros root a ?%elem_of_nil].
  - destruct (submit_root_spec root w) as (l1 & Hrun & Hsound & Hcomplete).
    destruct (IH (acc ++ l1)) as (l2 & Hrest & Hsound2 & Hcomplete2).
    exists (l1 ++ l2).
    erewrite bind_Ok; [|erewrite bind_Ok by exact Hrun; reflexivity].
    rewrite Hrest, <- app_assoc. split; [done|]. split.
    + intros t [Ht|Ht]%elem_of_app.
      * destruct (Hsound t Ht) as (a & -> & Hdir). exists root, a.
        split; [apply elem_of_cons; by left|done].
      * destruct (Hsound2 t Ht) as (root' & a & Hin & -> & Hdir). exists root', a.
        split; [apply elem_of_cons; by right|done].
    + intros root' a [->|Hin]%elem_of_cons Hdir Hfail Ha; apply elem_of_app.
      * left. by apply Hcomplete.
      * right. by apply Hcomplete2.
Qed.

(** The tasks run one after the other: none changes the world or
    raises; each result was found by its task; and a task that holds an
    installation one level down has a result. *)
Lemma check_tasks_spec tasks w acc checked :
  ∃ rs checked',
    for_each tasks
      (λ (acc : list (option path) * gset path) p,
         '(res, checked) ← fast_check acc.2 p;
         mret (acc.1 ++ [res], checked))
      (acc, checked) w
    = (Ok (acc ++ rs, checked'), w)
    ∧ (∀ q, Some q ∈ rs → ∃ t, t ∈ tasks ∧ found_by (fs w) t q)
    ∧ (∀ t b, t ∈ tasks → t ∉ checked →
              fs w !! t = Some Dir → io_fail w (Scandir t) = false →
              fs w !! (t // b) = Some Dir → lower b ∉ BAD_DIRS →
              looks_like_mwc_folder (fs w) (t // b) = true →
              ∃ q, Some q ∈ rs ∧ found_by (fs w) t q).
Proof.
  revert acc checked. induction tasks as [|p tasks IH]; intros acc checked; simpl.
  - exists [], checked. rewrite app_nil_r. split; [done|].
    split; [by intros q ?%elem_of_nil|by intros t b ?%elem_of_nil].
  - destruct (fast_check_spec checked p w) as (res & Hrun & Hsound & Hcomplete).
    set (checked1 := if bool_decide (p ∈ checked) then checked else checked ∪ {[ p ]})
      in Hrun.
    destruct (IH (acc ++ [res]) checked1) as (rs & checked' & Hrest & Hsound2 & Hcomplete2).
    exists (res :: rs), checked'.
    erewrite bind_Ok; [|erewrite bind_Ok by exact Hrun; reflexivity].
    simpl. rewrite Hrest, <- app_assoc. split; [done|]. split.
    + intros q [Hq|Hq]%elem_of_cons.
      * exists p. split; [apply elem_of_cons; by left|]. by apply Hsound.
      * destruct (Hsound2 q Hq) as (t & Hin & Hfound). exists t.
        split; [apply elem_of_cons; by right|done].
    + intros t b Hin Hfresh Hdir Hfail Hb Hok Hlooks.
      destruct (decide (t = p)) as [->|Hne].
      * destruct (Hcomplete Hfresh Hdir Hfail b Hb Hok Hlooks) as [q ->].
        exists q. split; [apply elem_of_cons; by left|]. by apply Hsound.
      * apply elem_of_cons in Hin as [?|Hin]; [done|].
        destruct (Hcomplete2 t b) as (q & Hq & Hfound); try done.
        { unfold checked1. case_bool_decide; set_solver. }
        exists q. split; [apply elem_of_cons; by right|done].
Qed.

(** The last loop of the scan keeps the first occurrence of each
    result. *)
Lemma collect_spec (results : list (option path)) (acc : list path) :
  let l := foldl (λ candidates res,
                    match res with
                    | Some p => if bool_decide (p ∈ candidates) then candidates
                                else candidates ++ [p]
                    | None => candidates
                    end) acc results in
  (NoDup acc → NoDup l) ∧ ∀ c, c ∈ l ↔ c ∈ acc ∨ Some c ∈ results.
Proof.
  simpl. revert acc. induction results as [|[p|] results IH]; intros acc; simpl.
  - split; [done|]. intros c. rewrite elem_of_nil. tauto.
  - case_bool_decide as Hp.
    + destruct (IH acc) as [Hnodup Hin]. split; [done|].
      intros c. rewrite Hin, elem_of_cons. split; [tauto|].
      intros [?|[[= ->]|?]]; tauto.
    + destruct (IH (acc ++ [p])) as [Hnodup Hin]. split.
      * intros Hacc. apply Hnodup. apply NoDup_app. split; [done|].
        split; [|apply NoDup_singleton].
        intros x Hx Hxp%list_elem_of_singleton. by subst x.
      * intros c. rewrite Hin, elem_of_app, list_elem_of_singleton, elem_of_cons.
        split; [intros [[?| ->]|?]; tauto|intros [?|[[= ->]|?]]; tauto].
  - destruct (IH acc) as [Hnodup Hin]. split; [done|].
    intros c. rewrite Hin, elem_of_cons. split; [tauto|].
    intros [?|[[=]|?]]; tauto.
Qed.

Lemma elem_of_scan_roots (m : gmap path node) (root : path) :
  root ∈ scan_roots m ↔ path_exists m root = true ∧ root ∈ scan_places.
Proof.
  unfold scan_roots, scan_places.
  set (drives := (λ letter, [letter +:+ ":"]) <$> drive_letters).
  assert (∀ l acc,
            root ∈ foldl (λ drives p,
                            if path_exists m p && negb (bool_decide (p ∈ drives))
                            then drives ++ [p] else drives) acc l
            ↔ root ∈ acc ∨ (path_exists m root = true ∧ root ∈ l)) as Hfold.
  { induction l as [|p l IH]; intros acc; simpl.
    - rewrite elem_of_nil. tauto.
    - rewrite IH, elem_of_cons. destruct (path_exists m p) eqn:Hp; simpl.
      + case_bool_decide as Hin; simpl.
        * split; [tauto|]. intros [?|[? [ ->|?]]]; tauto.
        * rewrite elem_of_app, list_elem_of_singleton.
          split; [intros [[?| ->]|?]; tauto|intros [?|[? [ ->|?]]]; tauto].
      + split; [tauto|]. intros [?|[? [ ->|?]]]; [tauto|congruence|tauto]. }
  assert (root ∈ List.filter (path_exists m) drives
          ↔ path_exists m root = true ∧ root ∈ drives) as Hfilter.
  { rewrite !list_elem_of_In, filter_In. tauto. }
  rewrite Hfold, elem_of_app, Hfilter. tauto.
Qed.

(** The scan as a whole. *)
Lemma find_mwc_candidates_spec w :
  ∃ l,
    find_mwc_candidates w = (Ok l, w)
    ∧ NoDup l
    ∧ (∀ c, c ∈ l →
            ∃ root a, root ∈ scan_roots (fs w)
                      ∧ fs w !! (root // a) = Some Dir
                      ∧ found_by (fs w) (root // a) c)
    ∧ (∀ root a b,
         root ∈ scan_roots (fs w) →
         fs w !! root = Some Dir → io_fail w (Scandir root) = false →
         fs w !! (root // a) = Some Dir → io_fail w (Scandir (root // a)) = false →
         fs w !! (root // a // b) = Some Dir → lower b ∉ BAD_DIRS →
         looks_like_mwc_folder (fs w) (root // a // b) = true →
         ∃ c, c ∈ l ∧ found_by (fs w) (root // a) c).
Proof.
  unfold find_mwc_candidates.
  destruct (submit_roots_spec (scan_roots (fs w)) w []) as (tasks & Htasks & Hsub & Hall).
  destruct (check_tasks_spec tasks w [] ∅) as (rs & checked' & Hrun & Hsound & Hcomplete).
  simpl in Htasks, Hrun.
  erewrite bind_Ok by reflexivity.
  erewrite bind_Ok by exact Htasks.
  erewrite bind_Ok by exact Hrun.
  eexists. split; [reflexivity|].
  destruct (collect_spec rs []) as [Hnodup Hin]. simpl in Hnodup, Hin.
  split; [apply Hnodup, NoDup_nil_2|]. split.
  - intros c [[]%elem_of_nil|Hc]%Hin.
    destruct (Hsound c Hc) as (t & Ht & Hfound).
    destruct (Hsub t Ht) as (root & a & Hroot & -> & Hdir). by eauto.
  - intros root a b Hroot Hdir Hfail Ha Hfail_a Hb Hok Hlooks.
    destruct (Hcomplete (root // a) b) as (q & Hq & Hfound); try done.
    { by apply Hall. }
    exists q. split; [|done]. apply Hin. by right.
Qed.


(** X2.  Every candidate the scan returns passes
    [looks_like_mwc_folder]: it holds a complete marker pair. *)
Theorem candidates_look_like_installations (w w' : world) (l : list path) (c : path) :
  find_mwc_candidates w = (Ok l, w') →
  c ∈ l →
  looks_like_mwc_folder (fs w) c = true.
Proof.
  destruct (find_mwc_candidates_spec w) as (l' & Hrun & _ & Hsound & _).
  rewrite Hrun. intros [= <- <-] Hc.
  by destruct (Hsound c Hc) as (root & a & _ & _ & Hlooks & _).
Qed.

Lemma candidates_look_like_installations_witness :
  looks_like_mwc_folder (fs denied_world) ["C:"; "Temp"; "MyGame"] = true.
Proof.
  apply (candidates_look_like_installations
           denied_world (find_mwc_candidates denied_world).2
           [["C:"; "Temp"; "MyGame"]]).
  - apply (run_eq find_mwc_candidates denied_world (Ok [["C:"; "Temp"; "MyGame"]])).
    vm_compute. reflexivity.
  - apply elem_of_cons. left. reflexivity.
Defined.

(** X3.  The list of candidates has no duplicates: a result is appended
    only when it is not in the list yet. *)
Theorem candidates_are_distinct (w w' : world) (l : list path) :
  find_mwc_candidates w = (Ok l, w') → NoDup l.
Proof.
  destruct (find_mwc_candidates_spec w) as (l' & Hrun & Hnodup & _).
  rewrite Hrun. by intros [= <- <-].
Qed.

Lemma candidates_are_distinct_witness : NoDup [["C:"; "Temp"; "MyGame"]].
Proof.
  apply (candidates_are_distinct denied_world (find_mwc_candidates denied_world).2).
  apply (run_eq find_mwc_candidates denied_world (Ok [["C:"; "Temp"; "MyGame"]])).
  vm_compute. reflexivity.
Defined.

(** X4.  The scan is two levels deep.  A candidate is either a
    directory [root\a] directly inside a scan root (an existing drive
    [C:] to [Z:] or an existing library folder of [fast_paths]) whose
    lower-cased name holds one of [TARGET_NAMES], or a directory
    [root\a\b] one level further down whose lower-cased name [b] is not
    in [BAD_DIRS].  Nothing deeper and no scan root itself is ever
    returned. *)
Theorem candidates_lie_within_two_levels (w w' : world) (l : list path) (c : path) :
  find_mwc_candidates w = (Ok l, w') →
  c ∈ l →
  ∃ root a,
    root ∈ scan_places
    ∧ path_exists (fs w) root = true
    ∧ fs w !! (root // a) = Some Dir
    ∧ ((c = root // a
        ∧ existsb (λ x, contains x (lower a)) TARGET_NAMES = true)
       ∨ ∃ b, c = root // a // b ∧ lower b ∉ BAD_DIRS ∧ fs w !! c = Some Dir).
Proof.
  destruct (find_mwc_candidates_spec w) as (l' & Hrun & _ & Hsound & _).
  rewrite Hrun. intros [= <- <-] Hc.
  destruct (Hsound c Hc) as (root & a & [Hexists Hplace]%elem_of_scan_roots
                             & Hdir & _ & Hshape).
  exists root, a. do 3 (split; [done|]).
  destruct Hshape as [[-> Hname]|(b & -> & Hok & Hb)].
  - left. split; [done|]. unfold name_of, child in Hname. by rewrite last_last in Hname.
  - right. by eauto.
Qed.

Lemma candidates_lie_within_two_levels_witness :
  ∃ root a,
    root ∈ scan_places
    ∧ path_exists (fs denied_world) root = true
    ∧ fs denied_world !! (root // a) = Some Dir
    ∧ ((["C:"; "Temp"; "MyGame"] = root // a
        ∧ existsb (λ x, contains x (lower a)) TARGET_NAMES = true)
       ∨ ∃ b, ["C:"; "Temp"; "MyGame"] = root // a // b ∧ lower b ∉ BAD_DIRS
              ∧ fs denied_world !! ["C:"; "Temp"; "MyGame"] = Some Dir).
Proof.
  apply (candidates_lie_within_two_levels
           denied_world (find_mwc_candidates denied_world).2
           [["C:"; "Temp"; "MyGame"]]).
  - apply (run_eq find_mwc_candidates denied_world (Ok [["C:"; "Temp"; "MyGame"]])).
    vm_compute. reflexivity.
  - apply elem_of_cons. left. reflexivity.
Defined.



(** X6.  Only a directory can look like an installation: in a
    well-formed store, a path that does not exist, or that is a regular
    file, is answered [False], since the markers are looked up as
    entries inside it. *)
Theorem only_a_directory_looks_like_an_installation (m : gmap path node) (p : path) :
  wf_fs m → p ≠ [] →
  m !! p ≠ Some Dir →
  looks_like_mwc_folder m p = false.
Proof.
  intros Hwf Hp Hnot.
  destruct (looks_like_mwc_folder m p) eqn:Hlooks; [|done].
  apply looks_like_has_exe in Hlooks.
  apply orb_true_iff in Hlooks as [Hexe|Hexe]; apply path_exists_true in Hexe;
    by apply (wf_fs_parent m p _ Hwf Hp) in Hexe.
Qed.

Lemma only_a_directory_looks_like_an_installation_witness :
  looks_like_mwc_folder primary_fs (game // "mywintercar.exe") = false.
Proof.
  apply (only_a_directory_looks_like_an_installation primary_fs
           (game // "mywintercar.exe")).
  - decide_by_computing.
  - discriminate.
  - vm_compute. discriminate.
Defined.

(** ** More on the backup *)

Lemma resolve_backup_folder w ts :
  resolve w (BACKUP_DIR // ts) = resolve w BACKUP_DIR // ts.
Proof. unfold resolve, child. by rewrite app_assoc. Qed.

(** Making the backup directory adds at most that directory. *)
Lemma backup_dir_made w r1 w1 :
  wf_world w →
  os_makedirs (resolve w BACKUP_DIR) true w = (r1, w1) →
  (∀ p, fs w1 !! p = fs w !! p ∨ (fs w !! p = None ∧ p = resolve w BACKUP_DIR))
  ∧ (r1 = Ok tt →
     wf_fs (fs w1)
     ∧ fs w1 !! resolve w BACKUP_DIR = Some Dir
     ∧ ∀ q, q ∈ prefixes (resolve w BACKUP_DIR) → is_Some (fs w1 !! q)).
Proof.
  intros [Hwf Hcwd].
  assert (∀ q, q ∈ prefixes (cwd w) → is_Some (fs w !! q)) as Hway.
  { intros q Hq. apply (wf_prefixes_exist (fs w) (cwd w)); by eauto. }
  intros [[-> Hdir]|(-> & Hnone & Hfiles & ->)]%os_makedirs_inv; simpl.
  - split; [by left|]. intros Hok. split; [done|]. split; [by apply Hdir|].
    intros q [Hq| ->]%elem_of_prefixes_snoc; [by apply Hway|].
    exists Dir. apply (Hdir Hok).
  - split.
    + intros p. rewrite lookup_mkdir_all.
      destruct (fs w !! p) as [n|] eqn:Hp; [by left|].
      case_bool_decide as Hin; [|by left].
      apply elem_of_prefixes_snoc in Hin as [Hin|Hin]; [|by right].
      apply Hway in Hin. rewrite Hp in Hin. by destruct Hin.
    + intros _. split; [by apply wf_fs_mkdir_all|]. split.
      * rewrite lookup_mkdir_all, Hnone. rewrite bool_decide_eq_true_2; [done|].
        apply elem_of_prefixes_snoc. by right.
      * intros q Hq. rewrite lookup_mkdir_all.
        destruct (fs w !! q); [by eauto|].
        rewrite bool_decide_eq_true_2; by eauto.
Qed.

(** The copy of the backup writes below its destination only, and
    there only where nothing was. *)
Lemma backup_copy_made src backups name w1 r2 w2 :
  wf_fs (fs w1) →
  (∀ q, q ∈ prefixes backups → is_Some (fs w1 !! q)) →
  shutil_copytree src (backups // name) w1 = (r2, w2) →
  (∀ p n, fs w1 !! p = Some n → fs w2 !! p = Some n)
  ∧ (∀ p, under (backups // name) p = None → fs w2 !! p = fs w1 !! p).
Proof.
  intros Hwf1 Hway1 [[_ ->]|(_ & Hdst & _ & -> & _)]%shutil_copytree_inv; [done|].
  simpl.
  assert (backups // name ≠ []) as Hne by (unfold child; by destruct backups).
  assert (∀ p, under (backups // name) p = None →
               mkdir_all (prefixes (backups // name)) (fs w1) !! p = fs w1 !! p)
    as Hmk.
  { intros p Hp. rewrite lookup_mkdir_all.
    destruct (fs w1 !! p) as [n|] eqn:Hq; [done|].
    rewrite bool_decide_eq_false_2; [done|].
    intros [Hin| ->]%elem_of_prefixes_snoc.
    - apply Hway1 in Hin. rewrite Hq in Hin. by destruct Hin.
    - by rewrite under_refl in Hp. }
  split.
  - intros p n Hp. rewrite lookup_graft.
    destruct (under (backups // name) p) as [rel|] eqn:Hu.
    + apply under_Some in Hu. subst p. destruct rel as [|x rel].
      * rewrite app_nil_r in Hp. congruence.
      * rewrite (wf_fs_above (fs w1) (backups // name) (x :: rel)) in Hdst;
          by eauto.
    + by rewrite Hmk, Hp.
  - intros p Hp. rewrite lookup_graft, Hp. by apply Hmk.
Qed.

(** What a run of [create_backup] does to the store. *)
Lemma create_backup_store g w r w' :
  wf_world w →
  create_backup g w = (r, w') →
  cwd w' = cwd w ∧ clock w' = clock w ∧ io_fail w' = io_fail w
  ∧ (∀ p n, fs w !! p = Some n → fs w' !! p = Some n)
  ∧ (∀ p, under (resolve w BACKUP_DIR) p = None → fs w' !! p = fs w !! p)
  ∧ (∀ b, r = Ok (Some b) →
       b = BACKUP_DIR // backup_name (clock w)
       ∧ fs w' !! resolve w BACKUP_DIR = Some Dir
       ∧ under g (resolve w b) = None
       ∧ fs w !! resolve w b = None
       ∧ ∀ rel, fs w' !! (resolve w b ++ rel) = fs w !! (g ++ rel)).
Proof.
  intros Hwf Hrun. pose proof Hwf as [Hwf0 Hcwd].
  apply create_backup_inv in Hrun as [(_ & -> & ->)|[Hg Hrun]].
  { do 5 (split; [done|]). by intros b [=]. }
  set (backups := resolve w BACKUP_DIR) in *.
  set (dst := resolve w (BACKUP_DIR // backup_name (clock w))) in *.
  assert (dst = backups // backup_name (clock w)) as Hdst
    by apply resolve_backup_folder.
  assert (∀ p, under backups p = None → under dst p = None) as Hunder.
  { intros p Hp. destruct (under dst p) as [rel|] eqn:Hu; [|done].
    apply under_Some in Hu. rewrite Hdst in Hu. unfold child in Hu.
    rewrite <- app_assoc in Hu. subst p. by rewrite under_app in Hp. }
  assert (∀ p, fs w !! p = None → p = backups → under backups p = None → False)
    as Hself.
  { intros p _ -> Hp. by rewrite under_refl in Hp. }
  destruct Hrun as [(e & w1 & Hmk & -> & ->)
                   |[(e & w1 & w2 & Hmk & Hcp & -> & ->)
                    |(d & w1 & Hmk & Hcp & ->)]].
  - destruct (backup_dir_made _ _ _ Hwf Hmk) as [Hsame _].
    destruct (os_makedirs_env _ _ _ _ _ Hmk) as (? & ? & ? & _).
    simpl. do 3 (split; [done|]). split; [|split; [|by intros b [=]]].
    + intros p n Hp. destruct (Hsame p) as [->|[Hnone _]]; congruence.
    + intros p Hp. destruct (Hsame p) as [->|[Hnone ->]]; [done|].
      by rewrite under_refl in Hp.
  - destruct (backup_dir_made _ _ _ Hwf Hmk) as [Hsame Hok].
    destruct (Hok eq_refl) as (Hwf1 & Hbackups & Hway1).
    destruct (os_makedirs_env _ _ _ _ _ Hmk) as (? & ? & ? & _).
    destruct (shutil_copytree_env _ _ _ _ _ Hcp) as (Hc & Hk & Hf & _).
    rewrite Hdst in Hcp.
    apply (backup_copy_made g backups _ (add_logfile _ w1)) in Hcp
      as [Hkeep Hframe]; [|done..].
    simpl in *. split; [congruence|]. split; [congruence|]. split; [congruence|].
    split; [|split; [|by intros b [=]]].
    + intros p n Hp. apply Hkeep. destruct (Hsame p) as [->|[Hnone _]]; congruence.
    + intros p Hp. rewrite Hframe by (rewrite <- Hdst; by apply Hunder).
      destruct (Hsame p) as [->|[Hnone ->]]; [done|].
      by rewrite under_refl in Hp.
  - destruct (backup_dir_made _ _ _ Hwf Hmk) as [Hsame Hok].
    destruct (Hok eq_refl) as (Hwf1 & Hbackups & Hway1).
    destruct (os_makedirs_env _ _ _ _ _ Hmk) as (? & ? & ? & _).
    destruct (shutil_copytree_env _ _ _ _ _ Hcp) as (Hc & Hk & Hf & _).
    pose proof Hcp as Hcp'. rewrite Hdst in Hcp'.
    apply (backup_copy_made g backups _ (add_logfile _ w1)) in Hcp'
      as [Hkeep Hframe]; [|done..].
    assert (dst ≠ []) as Hdst_ne
      by (rewrite Hdst; unfold child; by destruct backups).
    pose proof Hcp as Hinv.
    apply shutil_copytree_inv in Hinv as [[[e [=]] _]|(_ & Hfresh & _)].
    apply (shutil_copytree_Ok _ _ (add_logfile _ w1)) in Hcp
      as (_ & Houtside & Hdir & Hmirror & _); [|done..].
    simpl in *. split; [congruence|]. split; [congruence|]. split; [congruence|].
    split; [|split].
    + intros p n Hp. apply Hkeep. destruct (Hsame p) as [->|[Hnone _]]; congruence.
    + intros p Hp. rewrite Hframe by (rewrite <- Hdst; by apply Hunder).
      destruct (Hsame p) as [->|[Hnone ->]]; [done|].
      by rewrite under_refl in Hp.
    + intros b [= <-]. fold dst. split; [done|].
      assert (∀ rel, fs w1 !! (g ++ rel) = fs w !! (g ++ rel)) as Hsource.
      { intros rel. destruct (Hsame (g ++ rel)) as [Heq|[_ Heq]]; [done|].
        rewrite Hdst in Houtside. fold backups in Heq. rewrite <- Heq in Houtside.
        unfold child in Houtside.
        by rewrite <- app_assoc, under_app in Houtside. }
      split; [|split; [done|split]].
      * by apply Hkeep.
      * destruct (Hsame dst) as [Heq|[Hnone _]]; [|done]. by rewrite <- Heq.
      * intros rel. by rewrite Hmirror, Hsource.
Qed.

(** X7.  A backup only adds, and only inside [Backups]: whatever its
    result, every entry of the store is kept as it was, and every path
    outside the backup directory holds what it held before.  In
    particular a backup never alters the game folder it copies or an
    earlier backup. *)
Theorem backup_only_adds_inside_backups (g : path) (w : world)
    (r : res (option path)) (w' : world) :
  wf_world w →
  create_backup g w = (r, w') →
  (∀ p n, fs w !! p = Some n → fs w' !! p = Some n)
  ∧ (∀ p, under (resolve w BACKUP_DIR) p = None → fs w' !! p = fs w !! p).
Proof.
  intros Hwf Hrun.
  by destruct (create_backup_store _ _ _ _ Hwf Hrun) as (_ & _ & _ & ? & ? & _).
Qed.

Lemma backup_only_adds_inside_backups_witness :
  (∀ p n, fs primary_world !! p = Some n →
          fs (create_backup game primary_world).2 !! p = Some n)
  ∧ (∀ p, under (resolve primary_world BACKUP_DIR) p = None →
          fs (create_backup game primary_world).2 !! p = fs primary_world !! p).
Proof.
  apply (backup_only_adds_inside_backups game primary_world
           (Ok (Some ["Backups"; "MWC_Backup_2024-01-01_10-00-00"]))).
  - decide_by_computing.
  - apply (run_eq (create_backup game) primary_world
             (Ok (Some ["Backups"; "MWC_Backup_2024-01-01_10-00-00"]))).
    vm_compute. reflexivity.
Defined.

(** X8.  Backup names have the resolution of one second, and an
    existing destination is an error of [copytree]: after a backup that
    succeeded, a second backup of the same folder, started from the
    store the first one left while the clock still shows the same
    second, hands back no record and leaves the store as it is, the
    first backup included. *)
Theorem second_backup_in_the_same_second_fails (g : path) (w w1 : world)
    (b : path) (again : world) (r : res (option path)) (w2 : world) :
  wf_world w →
  create_backup g w = (Ok (Some b), w1) →
  fs again = fs w1 → cwd again = cwd w → clock again = clock w →
  create_backup g again = (r, w2) →
  r = Ok None ∧ fs w2 = fs w1.
Proof.
  intros Hwf Hfirst Hfs Hcwd Hclock Hsecond.
  pose proof Hfirst as Hg.
  apply create_backup_inv in Hg as [(_ & [=] & _)|[[n Hg] _]].
  destruct (create_backup_store _ _ _ _ Hwf Hfirst)
    as (_ & _ & _ & Hkeep & _ & Hdone).
  destruct (Hdone b eq_refl) as (-> & Hbackups & _ & _ & Hmirror).
  assert (is_Some (fs w1 !! resolve w (BACKUP_DIR // backup_name (clock w)))) as Hdst.
  { specialize (Hmirror []). rewrite !app_nil_r in Hmirror. rewrite Hmirror. by eauto. }
  apply create_backup_inv in Hsecond as [(Hnone & _)|[_ Hsecond]].
  { rewrite Hfs, (Hkeep g n Hg) in Hnone. done. }
  simpl in Hsecond. unfold resolve in Hsecond. rewrite Hcwd, Hclock in Hsecond.
  fold (resolve w BACKUP_DIR) in Hsecond.
  fold (resolve w (BACKUP_DIR // backup_name (clock w))) in Hsecond.
  assert (∀ r1 w3, os_makedirs (resolve w BACKUP_DIR) true again = (r1, w3) →
                   fs w3 = fs w1) as Hmk.
  { intros r1 w3 [[-> _]|(_ & Hnone & _)]%os_makedirs_inv; [done|].
    rewrite Hfs in Hnone. congruence. }
  destruct Hsecond as [(e & w3 & Hmk1 & -> & ->)
                      |[(e & w3 & w4 & Hmk1 & Hcp & -> & ->)
                       |(d & w3 & Hmk1 & Hcp & _)]].
  - split; [done|]. simpl. by apply (Hmk _ _ Hmk1).
  - split; [done|]. simpl.
    apply shutil_copytree_inv in Hcp as [[_ ->]|(_ & Hfresh & _)].
    + simpl. by apply (Hmk _ _ Hmk1).
    + simpl in Hfresh. rewrite (Hmk _ _ Hmk1) in Hfresh.
      rewrite Hfresh in Hdst. by destruct Hdst.
  - apply shutil_copytree_inv in Hcp as [[[e [=]] _]|(_ & Hfresh & _)].
    simpl in Hfresh. rewrite (Hmk _ _ Hmk1) in Hfresh.
    rewrite Hfresh in Hdst. by destruct Hdst.
Qed.

Lemma second_backup_in_the_same_second_fails_witness :
  (create_backup game (create_backup game primary_world).2).1 = Ok None
  ∧ fs (create_backup game (create_backup game primary_world).2).2
    = fs (create_backup game primary_world).2.
Proof.
  apply (second_backup_in_the_same_second_fails game primary_world
           (create_backup game primary_world).2
           ["Backups"; "MWC_Backup_2024-01-01_10-00-00"]
           (create_backup game primary_world).2).
  - decide_by_computing.
  - apply (run_eq (create_backup game) primary_world
             (Ok (Some ["Backups"; "MWC_Backup_2024-01-01_10-00-00"]))).
    vm_compute. reflexivity.
  - reflexivity.
  - vm_compute. reflexivity.
  - vm_compute. reflexivity.
  - apply surjective_pairing.
Defined.

(** ** More on the overlay copy *)

(** A loop keeps what each of its rounds keeps. *)
Lemma for_each_rel {A S} (R : world → world → Prop) (body : S → A → M S)
    (l : list A) (s : S) (w : world) (r : res S) (w' : world) :
  (∀ w, R w w) →
  (∀ w1 w2 w3, R w1 w2 → R w2 w3 → R w1 w3) →
  (∀ s x (w : world) (r : res S) (w' : world), body s x w = (r, w') → R w w') →
  for_each l body s w = (r, w') → R w w'.
Proof.
  intros Hrefl Htrans Hbody. revert s w. induction l as [|x l IH]; intros s w; simpl.
  - intros [= <- <-]. apply Hrefl.
  - unfold mbind, M_bind. destruct (body s x w) as [[s'|e] w1] eqn:Hstep.
    + intros Hrest. eapply Htrans; [by eapply Hbody|by eapply IH].
    + intros [= <- <-]. by eapply Hbody.
Qed.

(** The runs of [shutil_copy2]. *)
Lemma shutil_copy2_inv src dst w r w' :
  shutil_copy2 src dst w = (r, w') →
  ((∃ e, r = Raise e) ∧ w' = add_call (CopyFile src dst) w)
  ∨ (∃ data target,
       r = Ok tt
       ∧ (target = dst ∨ target = dst // List.last src "")
       ∧ is_dir (fs w !! target) = false
       ∧ w' = set_fs (<[target := File data]> (fs w)) (add_call (CopyFile src dst) w)).
Proof.
  unfold shutil_copy2. simpl.
  destruct (fs w !! src) as [[data|]|]; try (intros [= <- <-]; left; by eauto).
  set (target := if is_dir (fs w !! dst) then dst // List.last src "" else dst).
  assert (target = dst ∨ target = dst // List.last src "") as Htarget.
  { unfold target. destruct (is_dir (fs w !! dst)); by eauto. }
  destruct (is_dir (fs w !! target)) eqn:Hdir; [intros [= <- <-]; left; by eauto|].
  destruct (negb (parent_ok (fs w) target)); [intros [= <- <-]; left; by eauto|].
  destruct (io_fail w (CopyFile src dst)); intros [= <- <-]; [left; by eauto|].
  right. exists data, target. done.
Qed.

Lemma copy_fmf_file_inv root_path dest_dir n f w r w' :
  copy_fmf_file root_path dest_dir n f w = (r, w') →
  let c := CopyFile (root_path // f) (dest_dir // f) in
  (∃ e, r = Ok n
        ∧ w' = add_logfile ("FMF copy error " +:+ show_path (root_path // f)
                            +:+ " -> " +:+ show_path (dest_dir // f) +:+ ": "
                            +:+ show_exn e) (add_call c w))
  ∨ (∃ data target,
       r = Ok (n + 1)
       ∧ (target = dest_dir // f ∨ target = dest_dir // f // f)
       ∧ is_dir (fs w !! target) = false
       ∧ w' = set_fs (<[target := File data]> (fs w)) (add_call c w)).
Proof.
  unfold copy_fmf_file, try_except, mbind, M_bind, mret, M_ret.
  destruct (shutil_copy2 _ _ w) as [[[]|e] w1] eqn:Hcopy;
    apply shutil_copy2_inv in Hcopy
      as [[[e' He] ->]|(data & target & Hr & Htarget & Hdir & ->)];
    try done.
  - intros [= <- <-]. right. exists data, target. split; [done|]. split; [|done].
    unfold child in *. by rewrite last_last in Htarget.
  - unfold write_log_line, modify. intros [= <- <-]. left. by exists e.
Qed.

(** *** What the copy keeps *)

Lemma keeps_kinds_refl w : keeps_kinds w w.
Proof. by intros p. Qed.

Lemma keeps_kinds_trans w1 w2 w3 :
  keeps_kinds w1 w2 → keeps_kinds w2 w3 → keeps_kinds w1 w3.
Proof.
  intros H12 H23 p. destruct (H12 p) as [? ?], (H23 p) as [? ?]. split; by eauto.
Qed.

Lemma os_makedirs_keeps_kinds p exist_ok w r w' :
  os_makedirs p exist_ok w = (r, w') → keeps_kinds w w'.
Proof.
  intros [[-> _]|(_ & _ & _ & ->)]%os_makedirs_inv q; simpl; [done|].
  rewrite lookup_mkdir_all. by destruct (fs w !! q) as [[data|]|].
Qed.

Lemma copy_fmf_file_keeps_kinds root_path dest_dir n f w r w' :
  copy_fmf_file root_path dest_dir n f w = (r, w') → keeps_kinds w w'.
Proof.
  intros [(e & _ & ->)|(data & target & _ & _ & Hdir & ->)]%copy_fmf_file_inv q;
    simpl; [done|].
  destruct (decide (q = target)) as [->|Hne].
  - rewrite lookup_insert_eq, Hdir. done.
  - by rewrite lookup_insert_ne.
Qed.

Lemma copy_fmf_dir_keeps_kinds base g counts visit w r w' :
  copy_fmf_dir base g counts visit w = (r, w') → keeps_kinds w w'.
Proof.
  destruct counts as [copied_files copied_dirs].
  unfold copy_fmf_dir, mbind, M_bind, mret, M_ret.
  destruct (os_makedirs _ true w) as [[[]|e] w1] eqn:Hmk;
    apply os_makedirs_keeps_kinds in Hmk; [|by intros [= <- <-]].
  destruct (for_each _ _ copied_files w1) as [[n|e] w2] eqn:Hloop;
    apply (for_each_rel keeps_kinds) in Hloop;
    try (intros; by eauto using keeps_kinds_refl, keeps_kinds_trans,
                                copy_fmf_file_keeps_kinds);
    intros [= <- <-]; by eapply keeps_kinds_trans.
Qed.

(** The shape every run of [copy_fmf_to_game] has: nothing to copy, or
    the loop over the walk and then the summary line. *)
Lemma copy_fmf_to_game_inv g w r w' :
  copy_fmf_to_game g w = (r, w') →
  (fs w !! resolve w FMF = None ∧ r = Ok (0, 0)
   ∧ w' = add_logfile "FMF folder not found, nothing to copy." w)
  ∨ (∃ visits rl wl,
       os_walk (resolve w FMF) w = (Ok visits, w)
       ∧ for_each visits (copy_fmf_dir (resolve w FMF) g) (0, 0) w = (rl, wl)
       ∧ ((∃ e, rl = Raise e ∧ r = Raise e ∧ w' = wl)
          ∨ (∃ counts, rl = Ok counts ∧ r = Ok counts
                       ∧ w' = add_logfile
                                ("FMF copied: " +:+ pretty counts.1 +:+ " files, "
                                 +:+ pretty counts.2 +:+ " folders into "
                                 +:+ show_path g) wl))).
Proof.
  unfold copy_fmf_to_game, mbind, M_bind, gets, mret, M_ret.
  destruct (path_exists _ _) eqn:Hfound; simpl.
  2: { unfold write_log_line, modify. intros [= <- <-]. left.
       by apply path_exists_false in Hfound. }
  destruct (for_each _ _ (0, 0) w) as [[counts|e] wl] eqn:Hloop.
  - unfold write_log_line, modify. intros [= <- <-]. right.
    eexists _, _, _. split; [reflexivity|]. split; [exact Hloop|]. right. by eauto.
  - intros [= <- <-]. right.
    eexists _, _, _. split; [reflexivity|]. split; [exact Hloop|]. left. by eauto.
Qed.

Lemma copy_fmf_to_game_keeps_kinds g w r w' :
  copy_fmf_to_game g w = (r, w') → keeps_kinds w w'.
Proof.
  intros [(_ & _ & ->)|(visits & rl & wl & _ & Hloop & Hend)]%copy_fmf_to_game_inv;
    [done|].
  apply (for_each_rel keeps_kinds) in Hloop;
    try (intros; by eauto using keeps_kinds_refl, keeps_kinds_trans,
                                copy_fmf_dir_keeps_kinds).
  by destruct Hend as [(e & _ & _ & ->)|(counts & _ & _ & ->)].
Qed.

(** *** Where the copy writes *)

Lemma writes_below_refl g w : writes_below g w w.
Proof. split; [apply keeps_refl|done]. Qed.

Lemma writes_below_trans g w1 w2 w3 :
  writes_below g w1 w2 → writes_below g w2 w3 → writes_below g w1 w3.
Proof.
  intros [Hk12 Hf12] [Hk23 Hf23]. split; [by eapply keeps_trans|].
  intros Hway p Hp. rewrite Hf23; [by apply Hf12|..|done].
  intros q Hq. by apply Hk12, Hway.
Qed.

Lemma writes_below_same_fs g w w1 w2 :
  writes_below g w w1 → fs w2 = fs w1 → writes_below g w w2.
Proof.
  intros [Hk Hf] Hfs. split.
  - intros p Hp. rewrite Hfs. by apply Hk.
  - intros Hway p Hp. rewrite Hfs. by apply Hf.
Qed.

Lemma os_makedirs_writes_below g d w r w' :
  os_makedirs (g ++ d) true w = (r, w') → writes_below g w w'.
Proof.
  intros Hrun. split; [by eapply os_makedirs_keeps|].
  apply os_makedirs_inv in Hrun as [[-> _]|(_ & _ & _ & ->)]; [done|].
  intros Hway p Hp. simpl. rewrite lookup_mkdir_all.
  destruct (fs w !! p) as [n|] eqn:Hq; [done|].
  rewrite bool_decide_eq_false_2; [done|].
  intros [Hin|(d' & _ & ->)]%elem_of_prefixes_app.
  - apply Hway in Hin. rewrite Hq in Hin. by destruct Hin.
  - by rewrite under_app in Hp.
Qed.

Lemma copy_fmf_file_writes_below g d n f root_path w r w' :
  copy_fmf_file root_path (g ++ d) n f w = (r, w') → writes_below g w w'.
Proof.
  intros Hrun. split; [by eapply copy_fmf_file_keeps|].
  apply copy_fmf_file_inv in Hrun
    as [(e & _ & ->)|(data & target & _ & Htarget & _ & ->)]; [done|].
  intros _ p Hp. simpl. rewrite lookup_insert_ne; [done|].
  intros <-. unfold child in Htarget.
  destruct Htarget as [->| ->]; rewrite <- ?app_assoc in Hp;
    by rewrite under_app in Hp.
Qed.

Lemma copy_fmf_dir_writes_below base g counts visit w r w' :
  copy_fmf_dir base g counts visit w = (r, w') → writes_below g w w'.
Proof.
  destruct counts as [copied_files copied_dirs].
  unfold copy_fmf_dir, mbind, M_bind, mret, M_ret.
  destruct (os_makedirs _ true w) as [[[]|e] w1] eqn:Hmk;
    apply os_makedirs_writes_below in Hmk; [|by intros [= <- <-]].
  destruct (for_each _ _ copied_files w1) as [[n|e] w2] eqn:Hloop;
    apply (for_each_rel (writes_below g)) in Hloop;
    try (intros; by eauto using writes_below_refl, writes_below_trans,
                                copy_fmf_file_writes_below);
    intros [= <- <-]; by eapply writes_below_trans.
Qed.

(** The overlay copy writes below the game folder only. *)
Lemma copy_fmf_to_game_writes_below g w r w' :
  copy_fmf_to_game g w = (r, w') → writes_below g w w'.
Proof.
  intros [(_ & _ & ->)|(visits & rl & wl & _ & Hloop & Hend)]%copy_fmf_to_game_inv;
    [by apply (writes_below_same_fs g w w); [apply writes_below_refl|]|].
  apply (for_each_rel (writes_below g)) in Hloop;
    try (intros; by eauto using writes_below_refl, writes_below_trans,
                                copy_fmf_dir_writes_below).
  destruct Hend as [(e & _ & _ & ->)|(counts & _ & _ & ->)]; [done|].
  by apply (writes_below_same_fs g w wl).
Qed.

(** *** What the copy calls and logs *)

Lemma calls_added_refl P w : calls_added P w w.
Proof. exists []. by rewrite app_nil_r. Qed.

Lemma calls_added_trans P w1 w2 w3 :
  calls_added P w1 w2 → calls_added P w2 w3 → calls_added P w1 w3.
Proof.
  intros (l1 & H1 & Hl1) (l2 & H2 & Hl2). exists (l1 ++ l2).
  rewrite H2, H1, <- app_assoc. split; [done|]. by apply Forall_app.
Qed.

Lemma calls_added_one (P : oscall → Prop) c w w' :
  P c → calls w' = calls w ++ [c] → calls_added P w w'.
Proof. intros Hc Hcalls. exists [c]. split; [done|]. by constructor. Qed.

Lemma copy_fmf_file_calls root_path dest_dir n f w r w' :
  copy_fmf_file root_path dest_dir n f w = (r, w') → calls_added not_rename w w'.
Proof.
  intros [(e' & _ & ->)|(data & target & _ & _ & _ & ->)]%copy_fmf_file_inv;
    by apply (calls_added_one not_rename
                (CopyFile (root_path // f) (dest_dir // f))).
Qed.

Lemma copy_fmf_dir_calls base g counts visit w r w' :
  copy_fmf_dir base g counts visit w = (r, w') → calls_added not_rename w w'.
Proof.
  destruct counts as [copied_files copied_dirs].
  unfold copy_fmf_dir, mbind, M_bind, mret, M_ret.
  destruct (os_makedirs _ true w) as [[[]|e] w1] eqn:Hmk;
    apply os_makedirs_env in Hmk as (_ & _ & _ & Hmk & _);
    apply (calls_added_one not_rename) in Hmk; try done;
    [|by intros [= <- <-]].
  destruct (for_each _ _ copied_files w1) as [[n|e] w2] eqn:Hloop;
    apply (for_each_rel (calls_added not_rename)) in Hloop;
    try (intros; by eauto using calls_added_refl, calls_added_trans,
                                copy_fmf_file_calls);
    intros [= <- <-]; by eapply calls_added_trans.
Qed.

(** The overlay copy makes directories and copies files; it renames
    nothing. *)
Lemma copy_fmf_to_game_calls g w r w' :
  copy_fmf_to_game g w = (r, w') → calls_added not_rename w w'.
Proof.
  intros [(_ & _ & ->)|(visits & rl & wl & _ & Hloop & Hend)]%copy_fmf_to_game_inv;
    [apply (calls_added_refl _ w)|].
  apply (for_each_rel (calls_added not_rename)) in Hloop;
    try (intros; by eauto using calls_added_refl, calls_added_trans,
                                copy_fmf_dir_calls).
  by destruct Hend as [(e & _ & _ & ->)|(counts & _ & _ & ->)].
Qed.

Lemma copy_error_line_intro (rest : string) :
  copy_error_line ("FMF copy error " +:+ rest).
Proof. unfold copy_error_line. by destruct rest. Qed.

(** The inner loop: each file is copied and counted, or its failure is
    logged. *)
Lemma copy_files_account root_path dest_dir files n w r w' :
  for_each files (copy_fmf_file root_path dest_dir) n w = (r, w') →
  ∃ n' l errors,
    r = Ok n'
    ∧ calls w' = calls w ++ l
    ∧ logfile w' = logfile w ++ errors
    ∧ Forall copy_error_line errors
    ∧ length (List.filter is_copy_file l) = length files
    ∧ n' + length errors = n + length files.
Proof.
  revert n w. induction files as [|f files IH]; intros n w; simpl.
  - intros [= <- <-]. exists n, [], []. rewrite !app_nil_r. by eauto 10.
  - unfold mbind, M_bind.
    destruct (copy_fmf_file root_path dest_dir n f w) as [[n1|e] w1] eqn:Hstep;
      apply copy_fmf_file_inv in Hstep
        as [(e' & Hr & ->)|(data & target & Hr & _ & _ & ->)];
      try done; injection Hr as ->.
    + intros (n' & l & errors & -> & Hcalls & Hlog & Herr & Hl & Hn)%IH.
      simpl in Hcalls, Hlog. eexists n', (_ :: l), (_ :: errors).
      split; [done|]. rewrite Hcalls, Hlog, <- !app_assoc.
      do 2 (split; [reflexivity|]).
      split; [constructor; [apply copy_error_line_intro|done]|].
      simpl. split; [by rewrite Hl|lia].
    + intros (n' & l & errors & -> & Hcalls & Hlog & Herr & Hl & Hn)%IH.
      simpl in Hcalls, Hlog. eexists n', (_ :: l), errors.
      split; [done|]. rewrite Hcalls, Hlog, <- !app_assoc.
      split; [reflexivity|]. do 2 (split; [done|]).
      simpl. split; [by rewrite Hl|lia].
Qed.

(** The outer loop. *)
Lemma copy_dirs_account base g visits counts w r w' :
  for_each visits (copy_fmf_dir base g) counts w = (r, w') →
  ∃ l errors,
    calls w' = calls w ++ l
    ∧ logfile w' = logfile w ++ errors
    ∧ Forall copy_error_line errors
    ∧ ∀ counts', r = Ok counts' →
        counts'.1 + length errors = counts.1 + length (List.filter is_copy_file l).
Proof.
  revert counts w. induction visits as [|visit visits IH]; intros counts w; simpl.
  - intros [= <- <-]. exists [], []. rewrite !app_nil_r.
    do 3 (split; [done|]). intros counts' [= <-]. simpl. lia.
  - destruct counts as [copied_files copied_dirs].
    unfold mbind, M_bind at 1. unfold copy_fmf_dir at 1.
    unfold mbind, M_bind at 1.
    destruct (os_makedirs _ true w) as [[[]|e] w1] eqn:Hmk;
      apply os_makedirs_env in Hmk as (_ & _ & _ & Hcalls1 & _ & _ & Hlog1).
    2: { intros [= <- <-]. eexists [_], []. rewrite app_nil_r.
         do 3 (split; [done|]). by intros counts' [=]. }
    unfold mbind, M_bind at 1.
    destruct (for_each visit.2 _ copied_files w1) as [[n|e] w2] eqn:Hfiles;
      apply copy_files_account in Hfiles
        as (n' & l2 & errors2 & Hr & Hcalls2 & Hlog2 & Herr2 & Hl2 & Hn2);
      [|done]. injection Hr as ->.
    unfold mret, M_ret at 1.
    intros (l3 & errors3 & Hcalls3 & Hlog3 & Herr3 & Hn3)%IH.
    exists (Makedirs (g ++ visit.1) :: l2 ++ l3), (errors2 ++ errors3).
    rewrite Hcalls3, Hcalls2, Hcalls1, Hlog3, Hlog2, Hlog1, <- !app_assoc.
    do 2 (split; [done|]). split; [by apply Forall_app|].
    intros counts' Hok. specialize (Hn3 counts' Hok). simpl in *.
    rewrite List.filter_app, !length_app. lia.
Qed.

(** A walk that does not start at a directory visits nothing. *)
Lemma os_walk_no_directory base w :
  fs w !! base ≠ Some Dir → os_walk base w = (Ok [], w).
Proof.
  intros Hbase. unfold os_walk.
  assert (∀ l, List.filter (walk_visits (io_fail w) base (subtree (fs w) base)) l = [])
    as ->; [|done].
  induction l as [|rel l IH]; [done|]. simpl. rewrite IH.
  assert (walk_visits (io_fail w) base (subtree (fs w) base) rel = false) as ->;
    [|done].
  unfold walk_visits.
  assert (is_dir (subtree (fs w) base !! []) = false) as Hroot.
  { rewrite lookup_subtree, app_nil_r. by destruct (fs w !! base) as [[data|]|]. }
  destruct rel as [|x rel]; simpl; by rewrite Hroot.
Qed.

(** X9.  With no overlay directory there is nothing to copy: when
    [fmf] does not exist, or is a file, [copy_fmf_to_game] reports zero
    files and zero folders, issues no call and leaves the store as it
    is. *)
Theorem overlay_that_is_no_directory_copies_nothing (g : path) (w : world) :
  fs w !! resolve w FMF ≠ Some Dir →
  ∃ w', copy_fmf_to_game g w = (Ok (0, 0), w')
        ∧ fs w' = fs w
        ∧ calls w' = calls w.
Proof.
  intros Hbase. unfold copy_fmf_to_game.
  erewrite bind_Ok by reflexivity. erewrite bind_Ok by reflexivity.
  destruct (path_exists (fs w) (resolve w FMF)); simpl.
  - erewrite bind_Ok by (by apply os_walk_no_directory).
    simpl. by eexists.
  - by eexists.
Qed.

Lemma overlay_that_is_no_directory_copies_nothing_witness :
  ∃ w', copy_fmf_to_game game half_done_world = (Ok (0, 0), w')
        ∧ fs w' = fs half_done_world
        ∧ calls w' = calls half_done_world.
Proof.
  apply (overlay_that_is_no_directory_copies_nothing game half_done_world).
  vm_compute. discriminate.
Defined.

(** X10.  The overlay copy destroys no entry, whatever its result,
    failures and exceptions included: a directory of the store is still
    a directory afterwards, and a file is still a file (its content may
    have been replaced by the overlay's). *)
Theorem overlay_copy_keeps_every_entry_and_its_kind (g : path) (w : world)
    (r : res (nat * nat)) (w' : world) :
  copy_fmf_to_game g w = (r, w') →
  ∀ p, (fs w !! p = Some Dir → fs w' !! p = Some Dir)
       ∧ (∀ data, fs w !! p = Some (File data) →
                  ∃ data', fs w' !! p = Some (File data')).
Proof.
  intros Hrun%copy_fmf_to_game_keeps_kinds p. destruct (Hrun p) as [Hdir Hfile].
  split.
  - intros Hp. rewrite Hp in Hdir. specialize (Hdir eq_refl).
    by destruct (fs w' !! p) as [[data|]|].
  - intros data Hp. rewrite Hp in Hfile. specialize (Hfile eq_refl).
    destruct (fs w' !! p) as [[data'|]|]; by eauto.
Qed.

Lemma overlay_copy_keeps_every_entry_and_its_kind_witness :
  (fs clash_world !! (game // "plugin") = Some Dir →
   fs (copy_fmf_to_game game clash_world).2 !! (game // "plugin") = Some Dir)
  ∧ (∀ data, fs clash_world !! (game // "plugin") = Some (File data) →
             ∃ data', fs (copy_fmf_to_game game clash_world).2 !! (game // "plugin")
                      = Some (File data')).
Proof.
  apply (overlay_copy_keeps_every_entry_and_its_kind game clash_world (Ok (1, 0))).
  apply (run_eq (copy_fmf_to_game game) clash_world (Ok (1, 0))).
  vm_compute. reflexivity.
Defined.

(** X11.  The overlay copy changes nothing outside the game folder it
    is given: in a well-formed store where that folder exists, every
    path that is not the folder or below it holds afterwards what it
    held before, whatever the result of the copy. *)
Theorem overlay_copy_writes_below_the_game_folder_only (g : path) (w : world)
    (r : res (nat * nat)) (w' : world) :
  wf_fs (fs w) →
  is_Some (fs w !! g) →
  copy_fmf_to_game g w = (r, w') →
  ∀ p, under g p = None → fs w' !! p = fs w !! p.
Proof.
  intros Hwf Hg [_ Hframe]%copy_fmf_to_game_writes_below. apply Hframe.
  intros q Hq. by apply (wf_prefixes_exist (fs w) g).
Qed.

Lemma overlay_copy_writes_below_the_game_folder_only_witness :
  fs (copy_fmf_to_game game primary_world).2 !! ["C:"; "Tools"; "fmf"; "a"; "readme.txt"]
  = fs primary_world !! ["C:"; "Tools"; "fmf"; "a"; "readme.txt"].
Proof.
  apply (overlay_copy_writes_below_the_game_folder_only game primary_world (Ok (2, 2))).
  - decide_by_computing.
  - vm_compute. eexists. reflexivity.
  - apply (run_eq (copy_fmf_to_game game) primary_world (Ok (2, 2))).
    vm_compute. reflexivity.
  - vm_compute. reflexivity.
Defined.

(** X12.  The file count that [copy_fmf_to_game] returns is the number
    of [copy2] calls that went through.  Every file of a visited
    directory is attempted once; an attempt either adds one to the count
    or logs one "FMF copy error" line, so the count plus the number of
    error lines is the number of [copy2] calls, and the log ends with
    the one summary line. *)
Theorem overlay_copy_counts_its_successes (g : path) (w : world)
    (counts : nat * nat) (w' : world) :
  copy_fmf_to_game g w = (Ok counts, w') →
  ∃ l errors summary,
    calls w' = calls w ++ l
    ∧ logfile w' = logfile w ++ errors ++ [summary]
    ∧ Forall copy_error_line errors
    ∧ counts.1 + length errors = length (List.filter is_copy_file l).
Proof.
  intros [(_ & [= ->] & ->)|(visits & rl & wl & _ & Hloop & Hend)]%copy_fmf_to_game_inv.
  { exists [], [], "FMF folder not found, nothing to copy.".
    rewrite app_nil_r. by eauto. }
  destruct Hend as [(e & _ & [=] & _)|(counts' & -> & [= ->] & ->)].
  apply copy_dirs_account in Hloop as (l & errors & Hcalls & Hlog & Herr & Hn).
  specialize (Hn counts' eq_refl). simpl in *.
  eexists l, errors, _. rewrite Hlog, <- app_assoc. by eauto.
Qed.

Lemma overlay_copy_counts_its_successes_witness :
  ∃ l errors summary,
    calls (copy_fmf_to_game game locked_world).2 = calls locked_world ++ l
    ∧ logfile (copy_fmf_to_game game locked_world).2
      = logfile locked_world ++ errors ++ [summary]
    ∧ Forall copy_error_line errors
    ∧ (1, 2).1 + length errors = length (List.filter is_copy_file l).
Proof.
  apply (overlay_copy_counts_its_successes game locked_world (1, 2)).
  apply (run_eq (copy_fmf_to_game game) locked_world (Ok (1, 2))).
  vm_compute. reflexivity.
Defined.

(** ** The actions of the window, step by step *)

Lemma only_reports_refl w : only_reports w w.
Proof. by repeat split. Qed.

Lemma same_setup_refl w : same_setup w w.
Proof. by repeat split. Qed.

Lemma same_setup_trans w1 w2 w3 :
  same_setup w1 w2 → same_setup w2 w3 → same_setup w1 w3.
Proof.
  unfold same_setup. intros (?&?&?&?&?&?) (?&?&?&?&?&?).
  split_and!; etrans; eassumption.
Qed.

Lemma only_reports_setup w w' : only_reports w w' → same_setup w w'.
Proof. intros (?&?&?&?&?&?&?&?). by repeat split. Qed.

Lemma os_makedirs_setup p exist_ok w r w' :
  os_makedirs p exist_ok w = (r, w') → same_setup w w'.
Proof. intros [[-> _]|(_ & _ & _ & ->)]%os_makedirs_inv; by repeat split. Qed.

Lemma shutil_copytree_setup src dst w r w' :
  shutil_copytree src dst w = (r, w') → same_setup w w'.
Proof.
  intros [[_ ->]|(_ & _ & _ & -> & _)]%shutil_copytree_inv; by repeat split.
Qed.

Lemma create_backup_setup g w r w' :
  create_backup g w = (r, w') → same_setup w w' ∧ ∃ record, r = Ok record.
Proof.
  intros [(_ & -> & ->)
         |[_ [(e & w1 & Hmk & -> & ->)
             |[(e & w1 & w2 & Hmk & Hcp & -> & ->)
              |(d & w1 & Hmk & Hcp & ->)]]]]%create_backup_inv;
    (split; [|by eauto]).
  - apply same_setup_refl.
  - apply os_makedirs_setup in Hmk. destruct Hmk as (?&?&?&?&?&?). by repeat split.
  - apply os_makedirs_setup in Hmk. apply shutil_copytree_setup in Hcp.
    destruct Hmk as (?&?&?&?&?&?), Hcp as (?&?&?&?&?&?).
    simpl in *. unfold same_setup. split_and!; etrans; eassumption.
  - apply os_makedirs_setup in Hmk. apply shutil_copytree_setup in Hcp.
    destruct Hmk as (?&?&?&?&?&?), Hcp as (?&?&?&?&?&?).
    simpl in *. unfold same_setup. split_and!; etrans; eassumption.
Qed.

Lemma rename_if_exists_setup src dst line w r w' :
  rename_if_exists src dst line w = (r, w') → same_setup w w'.
Proof.
  intros [(_ & _ & ->)|[(_ & _ & _ & ->)|(_ & _ & ->)]]%rename_if_exists_inv;
    by repeat split.
Qed.

Lemma rename_pair_setup g a b c d line1 line2 w r w' :
  rename_pair g a b c d line1 line2 w = (r, w') → same_setup w w'.
Proof.
  unfold rename_pair, mbind, M_bind.
  destruct (rename_if_exists (g // a) _ _ w) as [[[]|e] w1] eqn:H1;
    apply rename_if_exists_setup in H1.
  - intros H2%rename_if_exists_setup. by eapply same_setup_trans.
  - by intros [= <- <-].
Qed.

(** The [try] statement of the fix never raises; it only reports on top
    of what its body did. *)
Lemma fix_transform_inv g w r w' :
  fix_transform g w = (r, w') →
  ∃ rb wb,
    fix_renames g w = (rb, wb)
    ∧ only_reports wb w'
    ∧ ((rb = Ok tt ∧ r = Ok true ∧ w' = wb) ∨ ((∃ e, rb = Raise e) ∧ r = Ok false)).
Proof.
  unfold fix_transform, try_except, mbind, M_bind, mret, M_ret.
  destruct (fix_renames g w) as [[[]|e] wb].
  - intros [= <- <-]. eexists _, _. split; [done|].
    split; [apply only_reports_refl|]. by left.
  - unfold log_msg, message_box, write_log_line, modify, mbind, M_bind. simpl.
    intros [= <- <-]. eexists _, _. split; [done|].
    split; [by repeat split|]. right. by eauto.
Qed.

Lemma revert_transform_steps g w r w' :
  revert_transform g w = (r, w') →
  ∃ rb wb,
    revert_renames g w = (rb, wb)
    ∧ only_reports wb w'
    ∧ ((rb = Ok tt ∧ r = Ok true ∧ w' = wb) ∨ ((∃ e, rb = Raise e) ∧ r = Ok false)).
Proof.
  unfold revert_transform, try_except, mbind, M_bind, mret, M_ret.
  destruct (revert_renames g w) as [[[]|e] wb].
  - intros [= <- <-]. eexists _, _. split; [done|].
    split; [apply only_reports_refl|]. by left.
  - unfold log_msg, message_box, write_log_line, modify, mbind, M_bind. simpl.
    intros [= <- <-]. eexists _, _. split; [done|].
    split; [by repeat split|]. right. by eauto.
Qed.

(** Whatever its result, the body of the fix calls nothing but its two
    renames and changes no entry outside the four markers. *)
Lemma fix_renames_frame g w r w' :
  fix_renames g w = (r, w') →
  calls_added (fix_rename g) w w'
  ∧ (∀ p, (∀ name, name ∈ markers → under (g // name) p = None) →
          fs w' !! p = fs w !! p).
Proof.
  rewrite fix_renames_pair. unfold rename_pair, mbind, M_bind.
  destruct (rename_if_exists (g // "mywintercar.exe") _ _ w) as [r1 w1] eqn:H1.
  apply rename_if_exists_frame in H1 as [(l1 & Hl1 & Hall1) Hfs1].
  assert (∀ p, (∀ name, name ∈ markers → under (g // name) p = None) →
               fs w1 !! p = fs w !! p) as Hkeep1.
  { intros p Hp. apply Hfs1; apply Hp; unfold markers; set_solver. }
  destruct r1 as [[]|e].
  - intros H2. apply rename_if_exists_frame in H2 as [(l2 & Hl2 & Hall2) Hfs2].
    split.
    + exists (l1 ++ l2). rewrite Hl2, Hl1, <- app_assoc. split; [done|].
      apply Forall_app. split; eapply Forall_impl; eauto; intros c ->.
      * by left.
      * by right.
    + intros p Hp. rewrite <- Hkeep1 by done.
      apply Hfs2; apply Hp; unfold markers; set_solver.
  - intros [= <- <-]. split; [|done].
    exists l1. split; [done|]. eapply Forall_impl; eauto. intros c ->. by left.
Qed.

Lemma copy_fmf_file_setup root_path dest_dir n f w r w' :
  copy_fmf_file root_path dest_dir n f w = (r, w') → same_setup w w'.
Proof.
  intros [(e & _ & ->)|(data & target & _ & _ & _ & ->)]%copy_fmf_file_inv;
    by repeat split.
Qed.

Lemma copy_fmf_dir_setup base g counts visit w r w' :
  copy_fmf_dir base g counts visit w = (r, w') → same_setup w w'.
Proof.
  destruct counts as [copied_files copied_dirs].
  unfold copy_fmf_dir, mbind, M_bind, mret, M_ret.
  destruct (os_makedirs _ true w) as [[[]|e] w1] eqn:Hmk;
    apply os_makedirs_setup in Hmk; [|by intros [= <- <-]].
  destruct (for_each _ _ copied_files w1) as [[n|e] w2] eqn:Hloop;
    apply (for_each_rel same_setup) in Hloop;
    try (intros; by eauto using same_setup_refl, same_setup_trans,
                                copy_fmf_file_setup);
    intros [= <- <-]; by eapply same_setup_trans.
Qed.

Lemma copy_fmf_to_game_setup g w r w' :
  copy_fmf_to_game g w = (r, w') → same_setup w w'.
Proof.
  intros [(_ & _ & ->)|(visits & rl & wl & _ & Hloop & Hend)]%copy_fmf_to_game_inv;
    [by repeat split|].
  apply (for_each_rel same_setup) in Hloop;
    try (intros; by eauto using same_setup_refl, same_setup_trans,
                                copy_fmf_dir_setup).
  destruct Hend as [(e & _ & _ & ->)|(counts & _ & _ & ->)]; [done|].
  destruct Hloop as (?&?&?&?&?&?). by repeat split.
Qed.

(** The steps of a fix action on a folder that looks like an
    installation, once the user has agreed: the backup; then, with a
    record, the renames; then, when they went through, the overlay copy;
    and between the steps only log lines and message boxes. *)
Lemma on_fix_clicked_steps w g r w' :
  game_path w = Some g →
  looks_like_mwc_folder (fs w) g = true →
  on_fix_clicked Yes w = (r, w') →
  only_reports w (backup_point w)
  ∧ ∃ rb wb,
      create_backup g (backup_point w) = (Ok rb, wb)
      ∧ ((rb = None ∧ r = Ok BackupFailed ∧ only_reports wb w')
         ∨ ∃ b wr rt wt,
             rb = Some b
             ∧ only_reports wb wr
             ∧ fix_transform g wr = (Ok rt, wt)
             ∧ ((rt = false ∧ r = Ok RenameFailed ∧ w' = wt)
                ∨ (rt = true
                   ∧ ∃ wf rc wc,
                       only_reports wt wf
                       ∧ copy_fmf_to_game g wf = (rc, wc)
                       ∧ ((∃ e, rc = Raise e ∧ r = Raise e ∧ w' = wc)
                          ∨ (∃ counts,
                               rc = Ok counts ∧ r = Ok Completed
                               ∧ only_reports (set_last_action "FIXED" wc) w'))))).
Proof.
  intros Hselected Hvalid H. split; [by repeat split|].
  revert H. unfold on_fix_clicked, mbind, M_bind, gets. rewrite Hselected. simpl.
  rewrite Hvalid. simpl.
  unfold backup_point, mbind, M_bind. simpl.
  destruct (create_backup g _) as [rb0 wb] eqn:Hbackup.
  destruct (create_backup_setup _ _ _ _ Hbackup) as [_ [rb ->]].
  exists rb, wb. split; [done|].
  destruct rb as [b|]; simpl in *.
  2: { injection H as <- <-. left. by repeat split. }
  right.
  destruct (fix_transform g _) as [rt0 wt] eqn:Hfix.
  pose proof Hfix as Hrt. apply fix_transform_inv in Hrt
    as (rbody & wbody & _ & _ & [(_ & -> & _)|(_ & ->)]); simpl in *.
  2: { injection H as <- <-. eexists b, _, false, wt. split; [done|].
       split; [|split; [exact Hfix|by left]]. by repeat split. }
  eexists b, _, true, wt. split; [done|].
  split; [|split; [exact Hfix|right; split; [done|]]]; [by repeat split|].
  revert H. unfold create_shortcut, mbind, M_bind, gets. simpl.
  destruct (shortcut_error wt) as [err|]; simpl.
  - destruct (copy_fmf_to_game g _) as [[counts|e] wc] eqn:Hcopy; simpl.
    + intros H.
      assert (r = Ok Completed ∧ only_reports (set_last_action "FIXED" wc) w')
        as [-> Hend].
      { destruct (0 <? counts.1)%nat; simpl in H; injection H as <- <-;
          by repeat split. }
      eexists _, _, wc. split; [|split; [exact Hcopy|]]; [by repeat split|].
      right. by exists counts.
    + intros [= <- <-]. eexists _, _, wc.
      split; [|split; [exact Hcopy|]]; [by repeat split|]. left. by eauto.
  - destruct (copy_fmf_to_game g _) as [[counts|e] wc] eqn:Hcopy; simpl.
    + intros H.
      assert (r = Ok Completed ∧ only_reports (set_last_action "FIXED" wc) w')
        as [-> Hend].
      { destruct (0 <? counts.1)%nat; simpl in H; injection H as <- <-;
          by repeat split. }
      eexists _, _, wc. split; [|split; [exact Hcopy|]]; [by repeat split|].
      right. by exists counts.
    + intros [= <- <-]. eexists _, _, wc.
      split; [|split; [exact Hcopy|]]; [by repeat split|]. left. by eauto.
Qed.

(** The early returns of the fix. *)
Lemma on_fix_clicked_early (answer : button) (w : world) :
  answer = No
  ∨ game_path w = None
  ∨ (∃ g, game_path w = Some g ∧ looks_like_mwc_folder (fs w) g = false) →
  ((on_fix_clicked answer w).1 = Ok NoFolder
   ∨ (on_fix_clicked answer w).1 = Ok NotValid
   ∨ (on_fix_clicked answer w).1 = Ok Cancelled)
  ∧ only_reports w (on_fix_clicked answer w).2.
Proof.
  intros Hwhy. unfold on_fix_clicked, mbind, M_bind, gets. simpl.
  destruct (game_path w) as [g|] eqn:Hselected; simpl.
  2: { split; [by eauto|]. by repeat split. }
  destruct (looks_like_mwc_folder (fs w) g) eqn:Hvalid; simpl.
  2: { split; [by eauto|]. by repeat split. }
  destruct Hwhy as [->|[[=]|(g' & [= <-] & Hg')]]; [|congruence].
  simpl. split; [by eauto|]. by repeat split.
Qed.



(** X14.  The revert does nothing without a folder and the user's Yes:
    with no folder selected or with any answer other than Yes it ends by
    an early return and leaves the store, the calls and the recorded
    last action as they were.  Unlike the fix it does not look at the
    folder: a selected folder is accepted as it is. *)
Theorem revert_without_folder_or_consent_changes_nothing (answer : button) (w : world) :
  answer = No ∨ game_path w = None →
  let run := on_revert_clicked answer w in
  (run.1 = Ok NoFolder ∨ run.1 = Ok Cancelled)
  ∧ fs run.2 = fs w
  ∧ calls run.2 = calls w
  ∧ last_action run.2 = last_action w.
Proof.
  intros Hwhy. simpl. unfold on_revert_clicked, mbind, M_bind, gets. simpl.
  destruct (game_path w) as [g|] eqn:Hselected; simpl; [|by eauto 10].
  destruct Hwhy as [->|[=]]. simpl. by eauto 10.
Qed.

Lemma revert_without_folder_or_consent_changes_nothing_witness :
  let run := on_revert_clicked No fixed_game_world in
  (run.1 = Ok NoFolder ∨ run.1 = Ok Cancelled)
  ∧ fs run.2 = fs fixed_game_world
  ∧ calls run.2 = calls fixed_game_world
  ∧ last_action run.2 = last_action fixed_game_world.
Proof.
  apply (revert_without_folder_or_consent_changes_nothing No fixed_game_world).
  left. reflexivity.
Defined.

(** Two folders neither of which lies inside the other share no
    path. *)
Lemma apart_below (p q rel : path) :
  under p q = None → under q p = None → under p (q ++ rel) = None.
Proof.
  intros Hpq Hqp. destruct (under p (q ++ rel)) as [x|] eqn:Hu; [|done].
  apply under_Some in Hu.
  destruct (under_comparable q p rel x Hu) as [[y Hy]|[y Hy]]; congruence.
Qed.

Lemma apart_below_child (p q rel : path) (name : string) :
  under p q = None → under q p = None → under (p // name) (q ++ rel) = None.
Proof.
  intros Hpq Hqp. destruct (under (p // name) (q ++ rel)) as [x|] eqn:Hu; [|done].
  apply under_Some in Hu. unfold child in Hu. rewrite <- app_assoc in Hu.
  destruct (under_comparable q p rel _ Hu) as [[y Hy]|[y Hy]]; congruence.
Qed.

Lemma prefix_not_below_child (g q : path) (name : string) :
  q ∈ prefixes g → under (g // name) q = None.
Proof.
  intros (_ & rel & ->)%elem_of_prefixes.
  destruct (under ((q ++ rel) // name) q) as [x|] eqn:Hu; [|done].
  apply under_Some in Hu. unfold child in Hu.
  rewrite <- !app_assoc in Hu. rewrite <- (app_nil_r q) in Hu at 1.
  apply app_inv_head in Hu. by destruct rel.
Qed.

(** A folder that looks like an installation in a forest is a
    directory. *)
Lemma looks_like_is_dir m g :
  wf_fs m → g ≠ [] → looks_like_mwc_folder m g = true → m !! g = Some Dir.
Proof.
  intros Hwf Hg Hlooks%looks_like_has_exe.
  apply orb_true_iff in Hlooks as [Hexe|Hexe]; apply path_exists_true in Hexe;
    by apply (wf_fs_parent m g _ Hwf Hg) in Hexe.
Qed.

(** X15.  Whatever happens after the backup, the backup stays a
    faithful copy.  When a fix action got past its backup step (it ended
    with a failed rename, or completed, or was cut short by an exception
    of the overlay copy), then at the end of the action the backup
    folder [Backups\MWC_Backup_<ts>] holds, entry for entry, what the
    game folder held before the action: neither the renames nor the
    overlay copy reach into it. *)
Theorem fix_leaves_its_backup_intact (w : world) (g : path)
    (r : res outcome) (w' : world) :
  wf_world w →
  game_path w = Some g →
  on_fix_clicked Yes w = (r, w') →
  r = Ok RenameFailed ∨ r = Ok Completed ∨ (∃ e, r = Raise e) →
  ∀ rel, fs w' !! (resolve w (BACKUP_DIR // backup_name (clock w)) ++ rel)
         = fs w !! (g ++ rel).
Proof.
  intros Hwf Hselected Hrun Hr.
  destruct (looks_like_mwc_folder (fs w) g) eqn:Hvalid.
  2: { revert Hrun. unfold on_fix_clicked, mbind, M_bind, gets.
       rewrite Hselected. simpl. rewrite Hvalid. simpl. intros [= <- <-].
       by destruct Hr as [[=]|[[=]|[e [=]]]]. }
  destruct (on_fix_clicked_steps w g r w' Hselected Hvalid Hrun)
    as (_ & rb & wb & Hbackup & Hsteps).
  assert (wf_world (backup_point w)) as Hwf_point by exact Hwf.
  destruct (create_backup_store _ _ _ _ Hwf_point Hbackup)
    as (_ & _ & _ & Hkeep & _ & Hdone).
  destruct Hsteps as [(-> & -> & _)|(b & wr & rt & wt & -> & Hwr & Hfix & Hrest)].
  { by destruct Hr as [[=]|[[=]|[e [=]]]]. }
  destruct (Hdone b eq_refl) as (-> & _ & Houtside & Hfresh & Hmirror).
  change (resolve (backup_point w)) with (resolve w) in *.
  change (clock (backup_point w)) with (clock w) in *.
  change (fs (backup_point w)) with (fs w) in *.
  set (dst := resolve w (BACKUP_DIR // backup_name (clock w))) in *.
  destruct Hwf as [Hwf Hcwd].
  assert (g ≠ []) as Hg_ne by (by intros ->).
  assert (fs w !! g = Some Dir) as Hg by by apply looks_like_is_dir.
  assert (dst ≠ []) as Hdst_ne.
  { unfold dst. rewrite resolve_backup_folder. unfold child.
    by destruct (resolve w BACKUP_DIR). }
  assert (under dst g = None) as Hinside.
  { destruct (under dst g) as [x|] eqn:Hu; [|done].
    apply under_Some in Hu. destruct x as [|y x].
    - rewrite app_nil_r in Hu. congruence.
    - rewrite Hu in Hg.
      rewrite (wf_fs_above (fs w) dst (y :: x)) in Hfresh; by eauto. }
  (* the renames *)
  apply fix_transform_inv in Hfix as (rbody & wbody & Hbody & Hwt & Hrt).
  apply fix_renames_frame in Hbody as [_ Hframe].
  assert (∀ p, (∀ name, name ∈ markers → under (g // name) p = None) →
               fs wt !! p = fs wb !! p) as Hrenamed.
  { intros p Hp. destruct Hwt as (-> & _), Hwr as (<- & _). by apply Hframe. }
  assert (∀ rel, fs wt !! (dst ++ rel) = fs w !! (g ++ rel)) as Hafter.
  { intros rel. rewrite Hrenamed; [apply Hmirror|].
    intros name _. by apply apart_below_child. }
  destruct Hrest as [(_ & _ & ->)|(_ & wf & rc & wc & Hwf' & Hcopy & Hend)];
    [done|].
  (* the overlay copy *)
  apply copy_fmf_to_game_writes_below in Hcopy as [_ Hbelow].
  assert (∀ rel, fs wc !! (dst ++ rel) = fs w !! (g ++ rel)) as Hcopied.
  { intros rel. rewrite Hbelow.
    - destruct Hwf' as (-> & _). apply Hafter.
    - intros q Hq. destruct Hwf' as (-> & _).
      rewrite Hrenamed by (intros name _; by apply prefix_not_below_child).
      destruct (wf_prefixes_exist (fs w) g q Hwf) as [n Hn]; [by eauto|done|].
      rewrite (Hkeep q n Hn). by eauto.
    - by apply apart_below. }
  destruct Hend as [(e & _ & _ & ->)|(counts & _ & _ & (-> & _))]; done.
Qed.

Lemma fix_leaves_its_backup_intact_witness :
  fs (on_fix_clicked Yes patched_world).2
    !! (resolve patched_world (BACKUP_DIR // backup_name (clock patched_world))
        ++ ["mywintercar_Data"; "level0"])
  = fs patched_world !! (game ++ ["mywintercar_Data"; "level0"]).
Proof.
  apply (fix_leaves_its_backup_intact patched_world game (Ok Completed)).
  - decide_by_computing.
  - reflexivity.
  - apply (run_eq (on_fix_clicked Yes) patched_world (Ok Completed)).
    vm_compute. reflexivity.
  - right. left. reflexivity.
Defined.

Lemma calls_added_impl (P Q : oscall → Prop) w w' :
  (∀ c, P c → Q c) → calls_added P w w' → calls_added Q w w'.
Proof.
  intros HPQ (l & Hl & Hall). exists l. split; [done|]. by eapply Forall_impl.
Qed.

Lemma calls_added_same_calls P w w1 w2 :
  calls_added P w w1 → calls w2 = calls w1 → calls_added P w w2.
Proof. intros (l & Hl & Hall) Hcalls. exists l. by rewrite Hcalls. Qed.

(** X16.  The only renames a fix action ever issues are its own two:
    every call it adds is a directory creation, a tree or file copy, or
    the rename of [mywintercar.exe] or of [mywintercar_Data] of the
    selected folder to its alternate name.  On a folder that has neither
    primary name (an installation that is already fixed) it issues no
    rename at all, though it still takes its backup. *)
Theorem fix_renames_only_its_markers (w : world) (g : path) (answer : button)
    (r : res outcome) (w' : world) :
  wf_world w →
  game_path w = Some g →
  on_fix_clicked answer w = (r, w') →
  calls_added (λ c, not_rename c ∨ fix_rename g c) w w'
  ∧ (fs w !! (g // "mywintercar.exe") = None →
     fs w !! (g // "mywintercar_Data") = None →
     calls_added not_rename w w').
Proof.
  intros Hwf Hselected Hrun.
  assert (answer = No ∨ looks_like_mwc_folder (fs w) g = false
          ∨ (answer = Yes ∧ looks_like_mwc_folder (fs w) g = true)) as Hcase.
  { destruct answer, (looks_like_mwc_folder (fs w) g); by eauto. }
  destruct Hcase as [Hearly|[Hearly|[-> Hvalid]]].
  1,2: destruct (on_fix_clicked_early answer w) as [_ (_ & Hsame & _)];
         [by eauto 10|];
       rewrite Hrun in Hsame; simpl in Hsame;
       split; [|intros _ _]; exists []; by rewrite app_nil_r.
  destruct (on_fix_clicked_steps w g r w' Hselected Hvalid Hrun)
    as (_ & rb & wb & Hbackup & Hsteps).
  assert (wf_world (backup_point w)) as Hwf_point by exact Hwf.
  destruct (create_backup_frame _ _ _ _ Hwf_point Hbackup)
    as (Hmarkers & Hcalls_b & _).
  change (calls (backup_point w)) with (calls w) in Hcalls_b.
  change (fs (backup_point w)) with (fs w) in Hmarkers.
  assert (calls_added not_rename w wb) as Hb by exact Hcalls_b.
  destruct Hsteps as [(-> & -> & (_ & Hc & _))
                     |(b & wr & rt & wt & -> & Hwr & Hfix & Hrest)].
  { split; [|intros _ _]; [|by eapply calls_added_same_calls].
    eapply calls_added_impl; [|by eapply calls_added_same_calls]. by left. }
  apply fix_transform_inv in Hfix as (rbody & wbody & Hbody & Hwt & Hrt).
  assert (calls_added not_rename w wr) as Hr.
  { destruct Hwr as (_ & Hc & _). by eapply calls_added_same_calls. }
  (* what the rest of the action adds after the renames *)
  assert (calls_added not_rename wt w') as Htail.
  { destruct Hrest as [(_ & _ & ->)|(_ & wf & rc & wc & Hwf' & Hcopy & Hend)].
    - apply calls_added_refl.
    - apply copy_fmf_to_game_calls in Hcopy. destruct Hwf' as (_ & Hc & _).
      destruct Hcopy as (l & Hl & Hall). rewrite Hc in Hl.
      destruct Hend as [(e & _ & _ & ->)|(counts & _ & _ & (_ & Hc' & _))].
      + by exists l.
      + exists l. by rewrite Hc'. }
  split.
  - apply fix_renames_frame in Hbody as [Hcalls _].
    eapply calls_added_trans;
      [eapply calls_added_impl; [|exact Hr]; by left|].
    eapply calls_added_trans;
      [eapply calls_added_impl; [|exact Hcalls]; by right|].
    eapply calls_added_trans;
      [|eapply calls_added_impl; [|exact Htail]; by left].
    destruct Hwt as (_ & Hc & _). exists []. by rewrite app_nil_r.
  - intros Hexe Hdata.
    assert (fix_renames g wr = (Ok tt, wr)) as Hskip.
    { rewrite fix_renames_pair. apply rename_pair_skip.
      - destruct Hwr as (-> & _). rewrite Hmarkers; [done|].
        unfold markers. set_solver.
      - destruct Hwr as (-> & _). rewrite Hmarkers; [done|].
        unfold markers. set_solver. }
    rewrite Hskip in Hbody. injection Hbody as <- <-.
    eapply calls_added_trans; [exact Hr|].
    eapply calls_added_trans; [|exact Htail].
    destruct Hwt as (_ & Hc & _). exists []. by rewrite app_nil_r.
Qed.

Lemma fix_renames_only_its_markers_witness :
  calls_added (λ c, not_rename c ∨ fix_rename game c)
              alternate_world (on_fix_clicked Yes alternate_world).2
  ∧ (fs alternate_world !! (game // "mywintercar.exe") = None →
     fs alternate_world !! (game // "mywintercar_Data") = None →
     calls_added not_rename alternate_world (on_fix_clicked Yes alternate_world).2).
Proof.
  apply (fix_renames_only_its_markers alternate_world game Yes (Ok Completed)).
  - decide_by_computing.
  - reflexivity.
  - apply (run_eq (on_fix_clicked Yes) alternate_world (Ok Completed)).
    vm_compute. reflexivity.
Defined.

(** The steps of a revert action once the user has agreed. *)
Lemma on_revert_clicked_steps w g r w' :
  game_path w = Some g →
  on_revert_clicked Yes w = (r, w') →
  ∃ wq rt wt,
    only_reports w wq
    ∧ revert_transform g wq = (Ok rt, wt)
    ∧ ((rt = false ∧ r = Ok RenameFailed ∧ w' = wt)
       ∨ (rt = true ∧ r = Ok Completed
          ∧ only_reports (set_last_action "REVERTED" wt) w')).
Proof.
  intros Hselected.
  unfold on_revert_clicked, mbind, M_bind, gets. rewrite Hselected. simpl.
  destruct (revert_transform g _) as [rt0 wt] eqn:Hrev.
  pose proof Hrev as Hrt. apply revert_transform_steps in Hrt
    as (rbody & wbody & _ & _ & [(_ & -> & _)|(_ & ->)]); simpl.
  - intros [= <- <-]. eexists _, true, wt. split; [|split; [exact Hrev|]].
    + by repeat split.
    + right. do 2 (split; [done|]). by repeat split.
  - intros [= <- <-]. eexists _, false, wt. split; [|split; [exact Hrev|]].
    + by repeat split.
    + by left.
Qed.

Lemma fix_transform_setup g w r w' :
  fix_transform g w = (r, w') → same_setup w w'.
Proof.
  intros (rbody & wbody & Hbody & Hreports & _)%fix_transform_inv.
  rewrite fix_renames_pair in Hbody. apply rename_pair_setup in Hbody.
  eapply same_setup_trans; [exact Hbody|]. by apply only_reports_setup.
Qed.

Lemma revert_transform_setup g w r w' :
  revert_transform g w = (r, w') → same_setup w w'.
Proof.
  intros (rbody & wbody & Hbody & Hreports & _)%revert_transform_steps.
  rewrite revert_renames_pair in Hbody. apply rename_pair_setup in Hbody.
  eapply same_setup_trans; [exact Hbody|]. by apply only_reports_setup.
Qed.

Lemma same_setup_last_action w w' : same_setup w w' → last_action w' = last_action w.
Proof. by intros (_&_&_&_&_&?). Qed.

Lemma same_setup_game_path w w' : same_setup w w' → game_path w' = game_path w.
Proof. by intros (_&_&_&_&?&_). Qed.

(** X17.  The recorded last action follows the actions that completed,
    and only those.  A fix action that completes records "FIXED", a
    revert action that completes records "REVERTED"; an action that
    ends in any other way (an early return, a failed backup, a failed
    rename, an exception of the overlay copy) leaves the record as it
    was.  Neither action changes the selected folder. *)
Theorem last_action_records_completed_actions (answer : button) (w : world) :
  let fixed := on_fix_clicked answer w in
  let reverted := on_revert_clicked answer w in
  (fixed.1 = Ok Completed → last_action fixed.2 = "FIXED")
  ∧ (fixed.1 ≠ Ok Completed → last_action fixed.2 = last_action w)
  ∧ (reverted.1 = Ok Completed → last_action reverted.2 = "REVERTED")
  ∧ (reverted.1 ≠ Ok Completed → last_action reverted.2 = last_action w)
  ∧ game_path fixed.2 = game_path w
  ∧ game_path reverted.2 = game_path w.
Proof.
  simpl.
  assert ((on_fix_clicked answer w).1 = Ok Completed
            ∧ last_action (on_fix_clicked answer w).2 = "FIXED"
            ∧ game_path (on_fix_clicked answer w).2 = game_path w
          ∨ (on_fix_clicked answer w).1 ≠ Ok Completed
            ∧ same_setup w (on_fix_clicked answer w).2) as Hfix.
  { assert (answer = No ∨ game_path w = None
            ∨ (∃ g, game_path w = Some g ∧ looks_like_mwc_folder (fs w) g = false)
            ∨ (∃ g, answer = Yes ∧ game_path w = Some g
                    ∧ looks_like_mwc_folder (fs w) g = true)) as Hcase.
    { destruct answer; [|by eauto]. destruct (game_path w) as [g|]; [|by eauto].
      destruct (looks_like_mwc_folder (fs w) g) eqn:?; by eauto 10. }
    destruct Hcase as [Hearly|[Hearly|[Hearly|(g & -> & Hselected & Hvalid)]]].
    1,2,3: destruct (on_fix_clicked_early answer w) as [Hr Hreports];
             [by eauto|]; right; split; [|by apply only_reports_setup];
             destruct Hr as [->|[->| ->]]; done.
    destruct (on_fix_clicked Yes w) as [r w'] eqn:Hrun. simpl.
    destruct (on_fix_clicked_steps w g r w' Hselected Hvalid Hrun)
      as (Hpoint & rb & wb & Hbackup & Hsteps).
    apply only_reports_setup in Hpoint.
    apply create_backup_setup in Hbackup as [Hbackup _].
    pose proof (same_setup_trans _ _ _ Hpoint Hbackup) as Hwb.
    destruct Hsteps as [(_ & -> & Hend%only_reports_setup)
                       |(b & wr & rt & wt & _ & Hwr%only_reports_setup & Hfix & Hrest)].
    { right. split; [done|]. by eapply same_setup_trans. }
    apply fix_transform_setup in Hfix.
    pose proof (same_setup_trans _ _ _ (same_setup_trans _ _ _ Hwb Hwr) Hfix) as Hwt.
    destruct Hrest as [(_ & -> & ->)
                      |(_ & wf & rc & wc & Hwf%only_reports_setup & Hcopy & Hend)].
    { right. by split. }
    apply copy_fmf_to_game_setup in Hcopy.
    pose proof (same_setup_trans _ _ _ (same_setup_trans _ _ _ Hwt Hwf) Hcopy) as Hwc.
    destruct Hend as [(e & _ & -> & ->)|(counts & _ & -> & Hend)].
    { right. by split. }
    left. split; [done|]. destruct Hend as (_ & _ & _ & _ & _ & _ & Hpath & Hlast).
    split; [done|]. simpl in Hpath. rewrite Hpath. by apply same_setup_game_path. }
  assert ((on_revert_clicked answer w).1 = Ok Completed
            ∧ last_action (on_revert_clicked answer w).2 = "REVERTED"
            ∧ game_path (on_revert_clicked answer w).2 = game_path w
          ∨ (on_revert_clicked answer w).1 ≠ Ok Completed
            ∧ same_setup w (on_revert_clicked answer w).2) as Hrevert.
  { destruct (game_path w) as [g|] eqn:Hselected.
    2: { right. unfold on_revert_clicked, mbind, M_bind, gets.
         rewrite Hselected. simpl. split; [done|]. by repeat split. }
    destruct answer.
    2: { right. unfold on_revert_clicked, mbind, M_bind, gets.
         rewrite Hselected. simpl. split; [done|]. by repeat split. }
    destruct (on_revert_clicked Yes w) as [r w'] eqn:Hrun. simpl.
    destruct (on_revert_clicked_steps w g r w' Hselected Hrun)
      as (wq & rt & wt & Hwq%only_reports_setup & Hrev & Hend).
    apply revert_transform_setup in Hrev.
    pose proof (same_setup_trans _ _ _ Hwq Hrev) as Hwt.
    destruct Hend as [(_ & -> & ->)|(_ & -> & Hend)].
    { right. by split. }
    left. split; [done|]. destruct Hend as (_ & _ & _ & _ & _ & _ & Hpath & Hlast).
    split; [done|]. simpl in Hpath. rewrite Hpath, <- Hselected.
    by apply same_setup_game_path. }
  destruct Hfix as [(Hr & Hlast & Hpath)|[Hr Hsetup]],
           Hrevert as [(Hr' & Hlast' & Hpath')|[Hr' Hsetup']];
    repeat split;
    try done; try (intros; by apply same_setup_last_action);
    try (by apply same_setup_game_path).
Qed.

(** ** When the renames go through *)

Lemma under_child_parent (g : path) (a : string) : under (g // a) g = None.
Proof.
  destruct (under (g // a) g) as [x|] eqn:Hu; [|done].
  apply under_Some in Hu. unfold child in Hu. rewrite <- app_assoc in Hu.
  rewrite <- (app_nil_r g) in Hu at 1. by apply app_inv_head in Hu.
Qed.

Lemma under_sibling_below (g : path) (a b : string) (rel : path) :
  a ≠ b → under (g // a) (g // b ++ rel) = None.
Proof.
  intros Hab. destruct (under (g // a) (g // b ++ rel)) as [x|] eqn:Hu; [|done].
  apply under_Some in Hu. unfold child in Hu. rewrite <- !app_assoc in Hu.
  apply app_inv_head in Hu. simpl in Hu. congruence.
Qed.

(** A rename whose source exists, whose target is free and whose
    folder is a directory goes through unless the environment refuses
    it. *)
Lemma os_rename_goes_through g a b n w :
  a ≠ b →
  fs w !! g = Some Dir →
  fs w !! (g // a) = Some n →
  fs w !! (g // b) = None →
  io_fail w (Rename (g // a) (g // b)) = false →
  os_rename (g // a) (g // b) w
  = (Ok tt, set_fs (moved (g // a) (g // b) (fs w))
                   (add_call (Rename (g // a) (g // b)) w)).
Proof.
  intros Hab Hg Ha Hb Hfail. unfold os_rename, path_exists, parent_ok. simpl.
  rewrite Ha, Hb, parent_child, Hg, Hfail. simpl.
  rewrite bool_decide_eq_false_2; [by rewrite orb_true_r|].
  rewrite under_sibling by done. by intros [? [=]].
Qed.

Lemma rename_if_exists_goes_through g a b n line w :
  a ≠ b →
  fs w !! g = Some Dir →
  fs w !! (g // a) = Some n →
  fs w !! (g // b) = None →
  io_fail w (Rename (g // a) (g // b)) = false →
  rename_if_exists (g // a) (g // b) line w
  = (Ok tt, add_logfile line
              (add_ui_log line false
                 (set_fs (moved (g // a) (g // b) (fs w))
                         (add_call (Rename (g // a) (g // b)) w)))).
Proof.
  intros Hab Hg Ha Hb Hfail.
  unfold rename_if_exists, mbind, M_bind, gets, path_exists. rewrite Ha.
  by rewrite (os_rename_goes_through g a b n w).
Qed.

Section renames_go_through.
(** Both renames of a pair, on a folder that holds both source names
    and neither target name. *)
Context (g : path) (a b c d : string) (line1 line2 : string).
Hypothesis Hab : a ≠ b.
Hypothesis Hcd : c ≠ d.
Hypothesis Hac : a ≠ c.
Hypothesis Had : a ≠ d.
Hypothesis Hbc : b ≠ c.
Hypothesis Hbd : b ≠ d.

Lemma rename_pair_goes_through (w : world) (na nc : node) :
  fs w !! g = Some Dir →
  fs w !! (g // a) = Some na →
  fs w !! (g // c) = Some nc →
  fs w !! (g // b) = None →
  fs w !! (g // d) = None →
  io_fail w (Rename (g // a) (g // b)) = false →
  io_fail w (Rename (g // c) (g // d)) = false →
  ∃ w1,
    rename_pair g a b c d line1 line2 w = (Ok tt, w1)
    ∧ calls w1 = calls w ++ [Rename (g // a) (g // b); Rename (g // c) (g // d)]
    ∧ fs w1 !! (g // a) = None
    ∧ fs w1 !! (g // c) = None
    ∧ (∀ rel n, fs w !! (g // a ++ rel) = Some n → fs w1 !! (g // b ++ rel) = Some n)
    ∧ (∀ rel n, fs w !! (g // c ++ rel) = Some n → fs w1 !! (g // d ++ rel) = Some n).
Proof.
  intros Hg Ha Hc Hb Hd Hfail1 Hfail2.
  unfold rename_pair.
  erewrite bind_Ok by (by eapply rename_if_exists_goes_through).
  set (w1 := add_logfile line1 _).
  assert (fs w1 = moved (g // a) (g // b) (fs w)) as Hfs1 by done.
  assert (∀ p, under (g // a) p = None → under (g // b) p = None →
               fs w1 !! p = fs w !! p) as Hsame.
  { intros p ? ?. rewrite Hfs1. by apply moved_elsewhere. }
  assert (fs w1 !! g = Some Dir) as Hg1
    by (rewrite Hsame; auto using under_child_parent).
  assert (fs w1 !! (g // c) = Some nc) as Hc1
    by (rewrite Hsame; auto using under_sibling).
  assert (fs w1 !! (g // d) = None) as Hd1
    by (rewrite Hsame; auto using under_sibling).
  rewrite (rename_if_exists_goes_through g c d nc line2 w1) by done.
  eexists. split; [reflexivity|]. simpl.
  split; [by rewrite <- app_assoc|].
  assert (∀ rel, fs w1 !! (g // a ++ rel) = None) as Hgone.
  { intros rel. rewrite Hfs1, lookup_moved, under_sibling_below by done.
    by rewrite lookup_prune, under_app. }
  split; [|split; [|split]].
  - rewrite moved_elsewhere; auto using under_sibling.
    specialize (Hgone []). by rewrite app_nil_r in Hgone.
  - by apply moved_source_gone.
  - intros rel n Hrel.
    rewrite moved_elsewhere; auto using under_sibling_below.
    by rewrite lookup_moved, under_app, Hrel.
  - intros rel n Hrel. rewrite lookup_moved, under_app.
    change (moved (g // a) (g // b) (fs w)) with (fs w1).
    rewrite Hsame; auto using under_sibling_below. by rewrite Hrel.
Qed.
End renames_go_through.

(** X18.  The renames of the fix go through on a clean primary
    installation.  When the game folder is a directory that holds both
    primary markers and neither alternate one, and the environment does
    not refuse the two renames, the [try] statement of the fix succeeds
    with exactly the two renames, in order; afterwards the primary names
    are gone and everything that was at or below a primary marker is
    found at the same place below the alternate one (the executable, the
    data folder and all it contains). *)
Theorem fix_renames_go_through (w : world) (g : path) (exe data : node) :
  fs w !! g = Some Dir →
  fs w !! (g // "mywintercar.exe") = Some exe →
  fs w !! (g // "mywintercar_Data") = Some data →
  fs w !! (g // "mysummercar.exe") = None →
  fs w !! (g // "mysummercar_Data") = None →
  io_fail w (Rename (g // "mywintercar.exe") (g // "mysummercar.exe")) = false →
  io_fail w (Rename (g // "mywintercar_Data") (g // "mysummercar_Data")) = false →
  ∃ w1,
    fix_transform g w = (Ok true, w1)
    ∧ calls w1 = calls w ++ [ Rename (g // "mywintercar.exe") (g // "mysummercar.exe");
                              Rename (g // "mywintercar_Data") (g // "mysummercar_Data") ]
    ∧ fs w1 !! (g // "mywintercar.exe") = None
    ∧ fs w1 !! (g // "mywintercar_Data") = None
    ∧ (∀ rel n, fs w !! (g // "mywintercar.exe" ++ rel) = Some n →
                fs w1 !! (g // "mysummercar.exe" ++ rel) = Some n)
    ∧ (∀ rel n, fs w !! (g // "mywintercar_Data" ++ rel) = Some n →
                fs w1 !! (g // "mysummercar_Data" ++ rel) = Some n).
Proof.
  intros Hg Hexe Hdata Hexe' Hdata' Hfail1 Hfail2.
  destruct (rename_pair_goes_through g
              "mywintercar.exe" "mysummercar.exe" "mywintercar_Data" "mysummercar_Data"
              "Renamed mywintercar.exe -> mysummercar.exe"
              "Renamed mywintercar_Data -> mysummercar_Data"
              ltac:(done) ltac:(done) ltac:(done) ltac:(done) ltac:(done)
              ltac:(done) w exe data)
    as (w1 & Hrun & Hrest); try done.
  exists w1. split; [|done]. apply fix_transform_true. by rewrite fix_renames_pair.
Qed.

Lemma fix_renames_go_through_witness :
  ∃ w1,
    fix_transform game primary_world = (Ok true, w1)
    ∧ calls w1
      = calls primary_world
        ++ [ Rename (game // "mywintercar.exe") (game // "mysummercar.exe");
             Rename (game // "mywintercar_Data") (game // "mysummercar_Data") ]
    ∧ fs w1 !! (game // "mywintercar.exe") = None
    ∧ fs w1 !! (game // "mywintercar_Data") = None
    ∧ (∀ rel n, fs primary_world !! (game // "mywintercar.exe" ++ rel) = Some n →
                fs w1 !! (game // "mysummercar.exe" ++ rel) = Some n)
    ∧ (∀ rel n, fs primary_world !! (game // "mywintercar_Data" ++ rel) = Some n →
                fs w1 !! (game // "mysummercar_Data" ++ rel) = Some n).
Proof.
  apply (fix_renames_go_through primary_world game (File "MZ") Dir).
  - vm_compute. reflexivity.
  - vm_compute. reflexivity.
  - vm_compute. reflexivity.
  - vm_compute. reflexivity.
  - vm_compute. reflexivity.
  - reflexivity.
  - reflexivity.
Defined.

(** X19.  The renames of the revert go through on a clean
    alternate-named folder, in the same way: with both alternate markers
    present, both primary names free and no refusal of the environment,
    the [try] statement of the revert succeeds with exactly its two
    renames, and what was at or below an alternate marker is found below
    the primary one. *)
Theorem revert_renames_go_through (w : world) (g : path) (exe data : node) :
  fs w !! g = Some Dir →
  fs w !! (g // "mysummercar.exe") = Some exe →
  fs w !! (g // "mysummercar_Data") = Some data →
  fs w !! (g // "mywintercar.exe") = None →
  fs w !! (g // "mywintercar_Data") = None →
  io_fail w (Rename (g // "mysummercar.exe") (g // "mywintercar.exe")) = false →
  io_fail w (Rename (g // "mysummercar_Data") (g // "mywintercar_Data")) = false →
  ∃ w1,
    revert_transform g w = (Ok true, w1)
    ∧ calls w1 = calls w ++ [ Rename (g // "mysummercar.exe") (g // "mywintercar.exe");
                              Rename (g // "mysummercar_Data") (g // "mywintercar_Data") ]
    ∧ fs w1 !! (g // "mysummercar.exe") = None
    ∧ fs w1 !! (g // "mysummercar_Data") = None
    ∧ (∀ rel n, fs w !! (g // "mysummercar.exe" ++ rel) = Some n →
                fs w1 !! (g // "mywintercar.exe" ++ rel) = Some n)
    ∧ (∀ rel n, fs w !! (g // "mysummercar_Data" ++ rel) = Some n →
                fs w1 !! (g // "mywintercar_Data" ++ rel) = Some n).
Proof.
  intros Hg Hexe Hdata Hexe' Hdata' Hfail1 Hfail2.
  destruct (rename_pair_goes_through g
              "mysummercar.exe" "mywintercar.exe" "mysummercar_Data" "mywintercar_Data"
              "Renamed mysummmercar.exe -> mywintercar.exe"
              "Renamed mysummmercar_Data -> mywintercar_Data"
              ltac:(done) ltac:(done) ltac:(done) ltac:(done) ltac:(done)
              ltac:(done) w exe data)
    as (w1 & Hrun & Hrest); try done.
  exists w1. split; [|done]. apply revert_transform_true.
  by rewrite revert_renames_pair.
Qed.

Lemma revert_renames_go_through_witness :
  ∃ w1,
    revert_transform game alternate_world = (Ok true, w1)
    ∧ calls w1
      = calls alternate_world
        ++ [ Rename (game // "mysummercar.exe") (game // "mywintercar.exe");
             Rename (game // "mysummercar_Data") (game // "mywintercar_Data") ]
    ∧ fs w1 !! (game // "mysummercar.exe") = None
    ∧ fs w1 !! (game // "mysummercar_Data") = None
    ∧ (∀ rel n, fs alternate_world !! (game // "mysummercar.exe" ++ rel) = Some n →
                fs w1 !! (game // "mywintercar.exe" ++ rel) = Some n)
    ∧ (∀ rel n, fs alternate_world !! (game // "mysummercar_Data" ++ rel) = Some n →
                fs w1 !! (game // "mywintercar_Data" ++ rel) = Some n).
Proof.
  apply (revert_renames_go_through alternate_world game (File "MZ") Dir).
  - vm_compute. reflexivity.
  - vm_compute. reflexivity.
  - vm_compute. reflexivity.
  - vm_compute. reflexivity.
  - vm_compute. reflexivity.
  - reflexivity.
  - reflexivity.
Defined.

(** ** Fix and revert, back and forth *)

(** What a rename that went through, or was skipped, does to every
    path, when nothing is in the way at the target. *)
Lemma rename_if_exists_lookup src dst line w w' :
  under src dst = None → under dst src = None →
  (∀ rel, fs w !! (dst ++ rel) = None) →
  (fs w !! src = None → ∀ rel, fs w !! (src ++ rel) = None) →
  rename_if_exists src dst line w = (Ok tt, w') →
  ∀ p, fs w' !! p = match under dst p with
                    | Some rel => fs w !! (src ++ rel)
                    | None => match under src p with
                              | Some _ => None
                              | None => fs w !! p
                              end
                    end.
Proof.
  intros Hsd Hds Hfree Hgone
    [(_ & Hsrc & ->)|[(_ & _ & _ & ->)|([k [=]] & _)]]%rename_if_exists_inv p.
  - destruct (under dst p) as [rel|] eqn:Hd.
    + apply under_Some in Hd. subst p. by rewrite Hfree, Hgone.
    + destruct (under src p) as [rel|] eqn:Hs; [|done].
      apply under_Some in Hs. subst p. by apply Hgone.
  - simpl. rewrite lookup_moved, lookup_prune.
    destruct (under dst p) as [rel|] eqn:Hd; [|done].
    destruct (fs w !! (src ++ rel)) as [n|]; [done|].
    apply under_Some in Hd. subst p.
    destruct (under src (dst ++ rel)); [done|apply Hfree].
Qed.

Lemma rename_pair_Ok_inv g a b c d line1 line2 w w1 :
  rename_pair g a b c d line1 line2 w = (Ok tt, w1) →
  ∃ wm, rename_if_exists (g // a) (g // b) line1 w = (Ok tt, wm)
        ∧ rename_if_exists (g // c) (g // d) line2 wm = (Ok tt, w1).
Proof.
  unfold rename_pair, mbind, M_bind.
  destruct (rename_if_exists (g // a) _ _ w) as [[[]|e] wm]; [|done].
  intros H2. by exists wm.
Qed.

Section back_and_forth.
(** The renames [a] to [b] and [c] to [d], then [b] to [a] and [d] to
    [c], in a folder where nothing is at [b] or [d] to begin with. *)
Context (g : path) (a b c d : string) (line1 line2 line3 line4 : string).
Hypothesis Hab : a ≠ b.
Hypothesis Hcd : c ≠ d.
Hypothesis Hac : a ≠ c.
Hypothesis Had : a ≠ d.
Hypothesis Hbc : b ≠ c.
Hypothesis Hbd : b ≠ d.

Lemma rename_pair_back_and_forth (w w1 w2 : world) :
  (∀ rel, fs w !! (g // b ++ rel) = None) →
  (∀ rel, fs w !! (g // d ++ rel) = None) →
  (fs w !! (g // a) = None → ∀ rel, fs w !! (g // a ++ rel) = None) →
  (fs w !! (g // c) = None → ∀ rel, fs w !! (g // c ++ rel) = None) →
  rename_pair g a b c d line1 line2 w = (Ok tt, w1) →
  rename_pair g b a d c line3 line4 w1 = (Ok tt, w2) →
  fs w2 = fs w.
Proof.
  intros Hb Hd Ha Hc (wm & H1 & H2)%rename_pair_Ok_inv
         (wn & H3 & H4)%rename_pair_Ok_inv.
  assert (∀ x y rel, x ≠ y → under (g // x) (g // y ++ rel) = None) as Hapart
    by (intros; by apply under_sibling_below).
  pose proof (rename_if_exists_lookup _ _ _ _ _
                (under_sibling g a b Hab) (under_sibling g b a (not_eq_sym Hab))
                Hb Ha H1) as L1.
  assert (∀ rel, fs wm !! (g // a ++ rel) = None) as Ha_m.
  { intros rel. by rewrite L1, Hapart, under_app. }
  assert (∀ rel, fs wm !! (g // b ++ rel) = fs w !! (g // a ++ rel)) as Hb_m.
  { intros rel. by rewrite L1, under_app. }
  assert (∀ x rel, x ≠ a → x ≠ b → fs wm !! (g // x ++ rel) = fs w !! (g // x ++ rel))
    as Hx_m.
  { intros x rel ? ?. by rewrite L1, !Hapart. }
  assert (fs wm !! (g // c) = None → ∀ rel, fs wm !! (g // c ++ rel) = None) as Hc_m.
  { intros Hnone rel. rewrite Hx_m by done. apply Hc.
    rewrite <- (app_nil_r (g // c)), <- Hx_m, app_nil_r; done. }
  assert (∀ rel, fs wm !! (g // d ++ rel) = None) as Hd_m.
  { intros rel. rewrite Hx_m; auto. }
  pose proof (rename_if_exists_lookup _ _ _ _ _
                (under_sibling g c d Hcd) (under_sibling g d c (not_eq_sym Hcd))
                Hd_m Hc_m H2) as L2.
  assert (∀ rel, fs w1 !! (g // a ++ rel) = None) as Ha_1.
  { intros rel. rewrite L2, !Hapart; auto. }
  assert (∀ rel, fs w1 !! (g // b ++ rel) = fs w !! (g // a ++ rel)) as Hb_1.
  { intros rel. rewrite L2, !Hapart; auto. }
  assert (∀ rel, fs w1 !! (g // c ++ rel) = None) as Hc_1.
  { intros rel. by rewrite L2, Hapart, under_app. }
  assert (∀ rel, fs w1 !! (g // d ++ rel) = fs w !! (g // c ++ rel)) as Hd_1.
  { intros rel. rewrite L2, under_app. auto. }
  assert (fs w1 !! (g // b) = None → ∀ rel, fs w1 !! (g // b ++ rel) = None) as Hb_1'.
  { intros Hnone rel. rewrite Hb_1. apply Ha.
    rewrite <- (app_nil_r (g // a)), <- Hb_1, app_nil_r; done. }
  pose proof (rename_if_exists_lookup _ _ _ _ _
                (under_sibling g b a (not_eq_sym Hab)) (under_sibling g a b Hab)
                Ha_1 Hb_1' H3) as L3.
  assert (∀ rel, fs wn !! (g // c ++ rel) = None) as Hc_n.
  { intros rel. rewrite L3, !Hapart; auto. }
  assert (∀ rel, fs wn !! (g // d ++ rel) = fs w !! (g // c ++ rel)) as Hd_n.
  { intros rel. rewrite L3, !Hapart; auto. }
  assert (fs wn !! (g // d) = None → ∀ rel, fs wn !! (g // d ++ rel) = None) as Hd_n'.
  { intros Hnone rel. rewrite Hd_n. apply Hc.
    rewrite <- (app_nil_r (g // c)), <- Hd_n, app_nil_r; done. }
  pose proof (rename_if_exists_lookup _ _ _ _ _
                (under_sibling g d c (not_eq_sym Hcd)) (under_sibling g c d Hcd)
                Hc_n Hd_n' H4) as L4.
  apply map_eq. intros p. rewrite L4.
  destruct (under (g // c) p) as [rel|] eqn:Hpc.
  { apply under_Some in Hpc. subst p. apply Hd_n. }
  destruct (under (g // d) p) as [rel|] eqn:Hpd.
  { apply under_Some in Hpd. subst p. by rewrite Hd. }
  rewrite L3.
  destruct (under (g // a) p) as [rel|] eqn:Hpa.
  { apply under_Some in Hpa. subst p. apply Hb_1. }
  destruct (under (g // b) p) as [rel|] eqn:Hpb.
  { apply under_Some in Hpb. subst p. by rewrite Hb. }
  by rewrite L2, Hpd, Hpc, L1, Hpb, Hpa.
Qed.
End back_and_forth.

(** In a forest nothing lies below a path that does not exist. *)
Lemma wf_fs_nothing_below m p :
  wf_fs m → p ≠ [] → m !! p = None → ∀ rel, m !! (p ++ rel) = None.
Proof.
  intros Hwf Hp Hnone [|x rel]; [by rewrite app_nil_r|].
  destruct (m !! (p ++ x :: rel)) eqn:Hbelow; [|done].
  rewrite (wf_fs_above m p (x :: rel)) in Hnone; by eauto.
Qed.

(** X20.  A fix followed by a revert restores the whole store, not
    only the four marker names.  In a well-formed store where the folder
    has no alternate marker, when both [try] statements go through, the
    store after the revert is entry for entry the store before the fix:
    the executable, the data folder with everything inside it, and every
    other path. *)
Theorem fix_then_revert_restores_the_store (g : path) (w w1 w2 : world) :
  wf_fs (fs w) →
  fs w !! (g // "mysummercar.exe") = None →
  fs w !! (g // "mysummercar_Data") = None →
  fix_transform g w = (Ok true, w1) →
  revert_transform g w1 = (Ok true, w2) →
  fs w2 = fs w.
Proof.
  intros Hwf Hexe Hdata Hfix Hrev.
  apply fix_transform_true in Hfix. rewrite fix_renames_pair in Hfix.
  apply revert_transform_true in Hrev. rewrite revert_renames_pair in Hrev.
  assert (∀ name, g // name ≠ []) as Hne by (intros name; unfold child; by destruct g).
  eapply (rename_pair_back_and_forth g
            "mywintercar.exe" "mysummercar.exe" "mywintercar_Data" "mysummercar_Data");
    [done..| | | | |exact Hfix|exact Hrev];
    try (by apply wf_fs_nothing_below); intros Hnone; by apply wf_fs_nothing_below.
Qed.

Lemma fix_then_revert_restores_the_store_witness :
  fs reverted_world = fs primary_world.
Proof.
  apply (fix_then_revert_restores_the_store game primary_world fixed_world
           reverted_world).
  - decide_by_computing.
  - vm_compute. reflexivity.
  - vm_compute. reflexivity.
  - apply (run_eq (fix_transform game) primary_world (Ok true)).
    vm_compute. reflexivity.
  - apply (run_eq (revert_transform game) fixed_world (Ok true)).
    vm_compute. reflexivity.
Defined.

(** X21.  A revert followed by a fix does the same from the other
    side: in a well-formed store where the folder has no primary marker,
    when both [try] statements go through, the store after the fix is
    the store before the revert. *)
Theorem revert_then_fix_restores_the_store (g : path) (w w1 w2 : world) :
  wf_fs (fs w) →
  fs w !! (g // "mywintercar.exe") = None →
  fs w !! (g // "mywintercar_Data") = None →
  revert_transform g w = (Ok true, w1) →
  fix_transform g w1 = (Ok true, w2) →
  fs w2 = fs w.
Proof.
  intros Hwf Hexe Hdata Hrev Hfix.
  apply fix_transform_true in Hfix. rewrite fix_renames_pair in Hfix.
  apply revert_transform_true in Hrev. rewrite revert_renames_pair in Hrev.
  assert (∀ name, g // name ≠ []) as Hne by (intros name; unfold child; by destruct g).
  eapply (rename_pair_back_and_forth g
            "mysummercar.exe" "mywintercar.exe" "mysummercar_Data" "mywintercar_Data");
    [done..| | | | |exact Hrev|exact Hfix];
    try (by apply wf_fs_nothing_below); intros Hnone; by apply wf_fs_nothing_below.
Qed.

Lemma revert_then_fix_restores_the_store_witness :
  fs (fix_transform game (revert_transform game alternate_world).2).2
  = fs alternate_world.
Proof.
  apply (revert_then_fix_restores_the_store game alternate_world
           (revert_transform game alternate_world).2).
  - decide_by_computing.
  - vm_compute. reflexivity.
  - vm_compute. reflexivity.
  - apply (run_eq (revert_transform game) alternate_world (Ok true)).
    vm_compute. reflexivity.
  - apply (run_eq (fix_transform game) (revert_transform game alternate_world).2
             (Ok true)).
    vm_compute. reflexivity.
Defined.

Lemma fix_action_then_revert_action_witness :
  is_Some (fs (on_revert_clicked Yes (on_fix_clicked Yes primary_world).2).2
             !! (game // "mywintercar.exe"))
  ∧ is_Some (fs (on_revert_clicked Yes (on_fix_clicked Yes primary_world).2).2
               !! (game // "mywintercar_Data"))
  ∧ fs (on_revert_clicked Yes (on_fix_clicked Yes primary_world).2).2
      !! (game // "mysummercar.exe") = None
  ∧ fs (on_revert_clicked Yes (on_fix_clicked Yes primary_world).2).2
      !! (game // "mysummercar_Data") = None.
Proof.
  apply (fix_action_then_revert_action primary_world
           (on_fix_clicked Yes primary_world).2
           (on_revert_clicked Yes (on_fix_clicked Yes primary_world).2).2 game).
  - decide_by_computing.
  - reflexivity.
  - vm_compute. reflexivity.
  - vm_compute. eexists. reflexivity.
  - vm_compute. eexists. reflexivity.
  - apply (run_eq (on_fix_clicked Yes) primary_world (Ok Completed)).
    vm_compute. reflexivity.
  - apply (run_eq (on_revert_clicked Yes) (on_fix_clicked Yes primary_world).2
             (Ok Completed)).
    vm_compute. reflexivity.
Defined.

(** ** Exceptions that leave the fix *)







(** ** Selecting the game folder *)




(** ** Probes that the system refuses *)

Lemma Path_exists_answered refused m p :
  refused p = false → Path_exists refused m p = Answered (path_exists m p).
Proof. unfold Path_exists. by intros ->. Qed.

Lemma Path_exists_inv refused m p r :
  Path_exists refused m p = r →
  (refused p = false ∧ r = Answered (path_exists m p))
  ∨ (refused p = true ∧ r = PermissionError p).
Proof. unfold Path_exists. destruct (refused p); intros <-; by eauto. Qed.

(** When the probes of the four markers are answered, the function
    answers, and its answer is that of [looks_like_mwc_folder]. *)
Lemma looks_like_mwc_folder_probed_answered refused m p :
  (∀ name, name ∈ markers → refused (p // name) = false) →
  looks_like_mwc_folder_probed refused m p = Answered (looks_like_mwc_folder m p).
Proof.
  intros Hfree. unfold looks_like_mwc_folder_probed, looks_like_mwc_folder.
  rewrite !Path_exists_answered by (apply Hfree; unfold markers; set_solver).
  unfold mbind, probed_bind, mret, probed_ret.
  destruct (path_exists m (p // "mywintercar.exe")),
           (path_exists m (p // "mywintercar_Data")),
           (path_exists m (p // "mysummercar.exe")),
           (path_exists m (p // "mysummercar_Data")); done.
Qed.

(** Whatever is refused: an answer is the answer of
    [looks_like_mwc_folder], and an exception is the refusal of the probe
    of one of the four markers. *)
Lemma looks_like_mwc_folder_probed_inv refused m p :
  looks_like_mwc_folder_probed refused m p = Answered (looks_like_mwc_folder m p)
  ∨ ∃ name, name ∈ markers ∧ refused (p // name) = true
            ∧ looks_like_mwc_folder_probed refused m p = PermissionError (p // name).
Proof.
  unfold looks_like_mwc_folder_probed, looks_like_mwc_folder, Path_exists.
  unfold mbind, probed_bind, mret, probed_ret.
  destruct (refused (p // "mywintercar.exe")) eqn:H1.
  { right. exists "mywintercar.exe". unfold markers. split; [set_solver|done]. }
  destruct (path_exists m (p // "mywintercar.exe")); simpl.
  - destruct (refused (p // "mywintercar_Data")) eqn:H2.
    { right. exists "mywintercar_Data". unfold markers. split; [set_solver|done]. }
    destruct (path_exists m (p // "mywintercar_Data")); simpl; [by left|].
    destruct (refused (p // "mysummercar.exe")) eqn:H3.
    { right. exists "mysummercar.exe". unfold markers. split; [set_solver|done]. }
    destruct (path_exists m (p // "mysummercar.exe")); simpl; [|by left].
    destruct (refused (p // "mysummercar_Data")) eqn:H4.
    { right. exists "mysummercar_Data". unfold markers. split; [set_solver|done]. }
    destruct (path_exists m (p // "mysummercar_Data")); by left.
  - destruct (refused (p // "mysummercar.exe")) eqn:H3.
    { right. exists "mysummercar.exe". unfold markers. split; [set_solver|done]. }
    destruct (path_exists m (p // "mysummercar.exe")); simpl; [|by left].
    destruct (refused (p // "mysummercar_Data")) eqn:H4.
    { right. exists "mysummercar_Data". unfold markers. split; [set_solver|done]. }
    destruct (path_exists m (p // "mysummercar_Data")); by left.
Qed.

(** C4, evaluated on the code.  [C:\Games\Locked] is a directory that
    holds neither pair of markers, in a well-formed store; the user may
    not look into it, so the [stat] of anything inside it is refused.
    [looks_like_mwc_folder] does not answer [False] there: its first
    probe, [exe_mwc.exists()], raises the [PermissionError] of the
    refused [stat], and nothing in the function catches it.  When the
    probes are answered the function does answer as the claim says (the
    last part: with no marker refused the answer is [False] for this
    folder). *)
Theorem looks_like_mwc_folder_raises_on_inaccessible_folder :
  wf_fs locked_fs
  ∧ locked_fs !! locked = Some Dir
  ∧ ¬ (has_pair locked_fs locked "mywintercar.exe" "mywintercar_Data"
       ∨ has_pair locked_fs locked "mysummercar.exe" "mysummercar_Data")
  ∧ looks_like_mwc_folder_probed inside_locked locked_fs locked
    = PermissionError (locked // "mywintercar.exe")
  ∧ looks_like_mwc_folder_probed (λ _, false) locked_fs locked = Answered false.
Proof.
  split; [decide_by_computing|].
  split; [by vm_compute|].
  split.
  { intros [[[n Hn] _]|[[n Hn] _]]; vm_compute in Hn; discriminate. }
  split; by vm_compute.
Qed.
